(** * Register-map code generators: a verification development

    The repository compiles a tree of components, register arrays,
    registers, fields and enumerations into VHDL packages
    ([registermaps/vhdl.py]) and C headers
    ([registermaps/component_to_c.py]).  This file embeds the passes of
    both generators as Rocq functions and proves (or refutes) the
    properties that the specification states about them.

    Conventions.
    - A Python [str] is a [string]; its characters are Latin-1 code
      points, the encoding the VHDL writer declares
      ([encoding = 'iso-8859-1']).
    - A Python [int] is a [Z].
    - Text written by [print]/[printf] is a list of lines; where a
      property speaks about the meaning of the text, the line is kept as
      a small syntax tree together with the function that renders it
      with the source's format string.
    - A Python exception is the left injection of a sum. *)

From Stdlib Require Import ZArith String Ascii List Lia DecimalString.
From stdpp Require Import gmap strings list.

Open Scope Z_scope.

(** ** Errors and small string helpers *)

(** Fallible Python code: [inl e] is a raised exception. *)
Definition result (E A : Type) : Type := E + A.

Definition ok {E A} (a : A) : result E A := inr a.
Definition raise {E A} (e : E) : result E A := inl e.

Definition bind {E A B} (m : result E A) (k : A → result E B) : result E B :=
  match m with
  | inl e => inl e
  | inr a => k a
  end.

Declare Scope result_scope.
Notation "'let*' x ':=' m 'in' k" := (bind m (fun x => k))
  (at level 10, x binder, m at level 100, k at level 200) : result_scope.
Open Scope result_scope.

(** [c in s] for a one-character [c]. *)
Fixpoint char_in (c : ascii) (s : string) : bool :=
  match s with
  | EmptyString => false
  | String d s' => Ascii.eqb c d || char_in c s'
  end.

(** The string whose characters have the given Latin-1 code points. *)
Definition latin1 (codes : list nat) : string :=
  string_of_list_ascii (map ascii_of_nat codes).

(** ['{}'.format(n)] for an integer. *)
Definition str_of_Z (n : Z) : string := NilZero.string_of_int (Z.to_int n).

(** ['sep'.join(parts)]. *)
Fixpoint join (sep : string) (parts : list string) : string :=
  match parts with
  | [] => ""
  | [p] => p
  | p :: ps => p +:+ sep +:+ join sep ps
  end.

(** ** Identifier legalization: [FixReservedWords] (vhdl.py) *)

Module Legalize.

(** The node classes of the tree; [FixReservedWords] only looks at the
    class name, the [name], the [identifier] and the children. *)
Inductive kind :=
  | MemoryMap | Component | Instance | InstanceArray
  | RegisterArray | Register | Field | Enum.

Inductive node :=
  Node { nkind : kind; name : string; identifier : option string;
         children : list node }.

(** [type(node).__name__.lower()] *)
Definition ntype (k : kind) : string :=
  match k with
  | MemoryMap => "memorymap" | Component => "component"
  | Instance => "instance" | InstanceArray => "instancearray"
  | RegisterArray => "registerarray" | Register => "register"
  | Field => "field" | Enum => "enum"
  end.

(** The letters of the 2008 LRM, §15.2: A-Z, then U+00C0..U+00D6 and
    U+00D8..U+00DE; a-z, then U+00DF, U+00E0..U+00F6, U+00F8..U+00FF. *)
Definition uppercase : string :=
  "ABCDEFGHIJKLMNOPQRSTUVWXYZ" +:+
  latin1 [192;193;194;195;196;197;198;199;200;201;202;203;204;205;206;207;
          208;209;210;211;212;213;214;216;217;218;219;220;221;222]%nat.

Definition lowercase : string :=
  "abcdefghijklmnopqrstuvwxyz" +:+
  latin1 [223;224;225;226;227;228;229;230;231;232;233;234;235;236;237;238;
          239;240;241;242;243;244;245;246;248;249;250;251;252;253;254;
          255]%nat.

Definition letters : string := uppercase +:+ lowercase.
Definition word_chars : string := letters +:+ "0123456789_".

Definition reserved_words : list string :=
  [ "abs"; "fairness"; "nand"; "select";
    "access"; "file"; "new"; "sequence";
    "after"; "for"; "next"; "severity";
    "alias"; "force"; "nor"; "signal";
    "all"; "function"; "not"; "shared";
    "and"; "null"; "sla";
    "architecture"; "generate"; "sll";
    "array"; "generic"; "of"; "sra";
    "assert"; "group"; "on"; "srl";
    "assume"; "guarded"; "open"; "strong";
    "assume_guarantee"; "or"; "subtype";
    "attribute"; "if"; "others";
    "impure"; "out"; "then";
    "begin"; "in"; "to";
    "block"; "inertial"; "package"; "transport";
    "body"; "inout"; "parameter"; "type";
    "buffer"; "is"; "port";
    "bus"; "postponed"; "unaffected";
    "label"; "procedure"; "units";
    "case"; "library"; "process"; "until";
    "component"; "linkage"; "property"; "use";
    "configuration"; "literal"; "protected";
    "constant"; "loop"; "pure"; "variable";
    "context"; "vmode";
    "cover"; "map"; "range"; "vprop";
    "mod"; "record"; "vunit";
    "default"; "register";
    "disconnect"; "reject"; "wait";
    "downto"; "release"; "when";
    "rem"; "while";
    "else"; "report"; "with";
    "elsif"; "restrict";
    "end"; "restrict_guarantee"; "xnor";
    "entity"; "return"; "xor";
    "exit"; "rol";
    "ror" ].

(** [w in self.reserved_words] *)
Definition in_reserved (w : string) : bool :=
  existsb (String.eqb w) reserved_words.

(** [str.lower()].  On Latin-1 text the characters with a lowercase
    form are exactly those of [uppercase], and the lowercase form is
    32 code points higher. *)
Definition lower_char (c : ascii) : ascii :=
  if char_in c uppercase then ascii_of_nat (nat_of_ascii c + 32) else c.

Fixpoint lower (s : string) : string :=
  match s with
  | EmptyString => EmptyString
  | String c s' => String (lower_char c) (lower s')
  end.

(** What [invalidvhdl] can raise.  [next(it)] on an empty name raises
    [StopIteration].  The guard on the first character is meant to raise
    [ValueError], but its message is built from [ntype] and [node], which
    are not bound in [invalidvhdl]: evaluating the arguments raises
    [NameError] first. *)
Inductive exn := StopIteration | NameError.

(** The [for char in it] loop of [invalidvhdl]: returns the characters
    appended to [newchars], the final value of [char] and of [changed]. *)
Fixpoint sweep (it : string) (char : ascii) (changed : bool)
  : string * ascii * bool :=
  match it with
  | EmptyString => (EmptyString, char, changed)
  | String c it' =>
      let '(c', changed') :=
        if negb (char_in c word_chars) then ("_"%char, true)
        else (c, changed) in
      let '(rest, last, ch) := sweep it' c' changed' in
      (String c' rest, last, ch)
  end.

(** [invalidvhdl(name)]: [None] if the name is valid VHDL, otherwise a
    new name that is. *)
Definition invalidvhdl (nm : string) : result exn (option string) :=
  match nm with
  | EmptyString => raise StopIteration
  | String first it =>
      if negb (char_in first letters) then raise NameError
      else
        let '(rest, char, changed) := sweep it first false in
        let newchars := String first rest in
        let '(newchars, changed) :=
          if Ascii.eqb char "_" then (newchars +:+ "_0", true)
          else (newchars, changed) in
        ok (if changed then Some newchars else None)
  end.

(** A change record: (type, old, new). *)
Definition change : Type := string * string * string.

(** The qualification of the children's changes in [defaultvisit]:
    [(ctype, oldname + '.' + old, newname + '.' + new)]. *)
Definition qualify (oldname newname : string) (c : change) : change :=
  let '(ctype, old, new) := c in
  (ctype, oldname +:+ "." +:+ old, newname +:+ "." +:+ new).

(** [Visitor.visitchildren] for this pass: visit the children in
    declaration order, one list of changes per child.  The tree is
    mutated in place, so the visit returns the new child as well.
    Modelled from the spec: the traversal engine ([visitor.py]) is not
    among the sources; the specification describes it as "a dispatcher
    that, given a node, selects a per-node-type handler registered by
    the active pass; unhandled node types fall back to a default
    handler", visiting "children in declaration order". *)
Definition visitchildren (visit : node → result exn (node * list change))
  : list node → result exn (list node * list (list change)) :=
  fix go (kids : list node) :=
    match kids with
    | [] => ok ([], [])
    | c :: cs =>
        let* '(c', ch) := visit c in
        let* '(cs', chs) := go cs in
        ok (c' :: cs', ch :: chs)
    end.

(** [defaultvisit]: "All nodes behave the same." *)
Definition defaultvisit (visit : node → result exn (node * list change))
    (n : node) : result exn (node * list change) :=
  let 'Node k oldname _ kids := n in
  (* First off, check to see if it's even a valid VHDL identifier. *)
  let* r := invalidvhdl oldname in
  let '(nm', ident', newname, changes) :=
    match r with
    | Some newname =>
        (* If it wasn't even valid VHDL it can't be a reserved word. *)
        (newname, newname, newname,
         [(ntype k +:+ " name", oldname, newname)])
    | None =>
        if in_reserved (lower oldname) then
          (* Reserved words need a new identifier but not a new name *)
          let newname := oldname +:+ "_0" in
          (oldname, newname, newname,
           [(ntype k +:+ " identifier", oldname, newname)])
        else
          (* All good here *)
          (oldname, oldname, oldname, [])
    end in
  (* Sweep the children too *)
  let* '(kids', childchanges) := visitchildren visit kids in
  ok (Node k nm' (Some ident') kids',
      changes ++ map (qualify oldname newname) (concat childchanges)).

Definition visit_Enum (n : node) : result exn (node * list change) :=
  ok (n, []).

(** The visitor's dispatch on the class of the node, modelled from the
    spec as above: the handler the pass registers for the class,
    [visit_Enum] for an [Enum], and the pass's [defaultvisit] for every
    other class. *)
Fixpoint visit (n : node) : result exn (node * list change) :=
  match n with
  | Node Enum _ _ _ => visit_Enum n
  | Node _ _ _ _ => defaultvisit visit n
  end.

(** [FixReservedWords().execute(startnode)]: the visit of the start
    node, whose result [basic.begin] uses as the list of changes. *)
Definition execute (startnode : node) : result exn (node * list change) :=
  visit startnode.

(** *** The specification's wording of the sanitized name *)

Fixpoint last_char (c : ascii) (s : string) : ascii :=
  match s with
  | EmptyString => c
  | String d s' => last_char d s'
  end.

(** "illegal characters replaced by a placeholder character" *)
Definition placeholder (c : ascii) : ascii :=
  if char_in c word_chars then c else "_"%char.

Fixpoint replace_illegal (s : string) : string :=
  match s with
  | EmptyString => EmptyString
  | String c s' => String (placeholder c) (replace_illegal s')
  end.

Fixpoint has_illegal (s : string) : bool :=
  match s with
  | EmptyString => false
  | String c s' => negb (char_in c word_chars) || has_illegal s'
  end.

(** "an illegal trailing separator resolved by appending a disambiguating
    suffix" *)
Definition spec_sanitize (nm : string) : string :=
  match nm with
  | EmptyString => EmptyString
  | String first it =>
      let s := String first (replace_illegal it) in
      if Ascii.eqb (last_char first (replace_illegal it)) "_"
      then s +:+ "_0" else s
  end.

(** A name with an illegal character after the first one, or with a
    trailing underscore. *)
Definition needs_sanitizing (nm : string) : bool :=
  match nm with
  | EmptyString => false
  | String first it =>
      has_illegal it || Ascii.eqb (last_char first it) "_"
  end.

Definition starts_with_letter (nm : string) : bool :=
  match nm with
  | EmptyString => false
  | String first _ => char_in first letters
  end.

(** *** Predicates on trees, over the nodes the pass visits *)

Definition is_valid (nm : string) : bool :=
  match invalidvhdl nm with
  | inr None => true
  | _ => false
  end.

Definition is_reserved (nm : string) : bool := in_reserved (lower nm).

(** No visited node has a reserved word as its name. *)
Fixpoint no_reserved (n : node) : bool :=
  match n with
  | Node Enum _ _ _ => true
  | Node _ nm _ kids => negb (is_reserved nm) && forallb no_reserved kids
  end.

(** Every visited node has a valid name, and its identifier is its name
    unless the name is a reserved word. *)
Fixpoint settled (n : node) : bool :=
  match n with
  | Node Enum _ _ _ => true
  | Node _ nm id kids =>
      is_valid nm
      && (is_reserved nm || bool_decide (id = Some nm))
      && forallb settled kids
  end.

(** The tree without its identifiers: what is left is the names. *)
Fixpoint erase_identifiers (n : node) : node :=
  let 'Node k nm _ kids := n in
  Node k nm None (map erase_identifiers kids).

(** What the pass leaves of a visited node: a valid name, and as
    identifier the name itself or, for a name that is a reserved word,
    the name with the suffix [_0]; the identifier is valid VHDL too. *)
Definition identifier_ok (nm : string) (id : option string) : bool :=
  match id with
  | Some i =>
      is_valid i
      && (String.eqb i nm || (is_reserved nm && String.eqb i (nm +:+ "_0")))
  | None => false
  end.

Fixpoint legal (n : node) : bool :=
  match n with
  | Node Enum _ _ _ => true
  | Node _ nm id kids =>
      is_valid nm && identifier_ok nm id && forallb legal kids
  end.

(** Every visited node has a valid name that is not a reserved word:
    the pass has nothing to change. *)
Fixpoint clean (n : node) : bool :=
  match n with
  | Node Enum _ _ _ => true
  | Node _ nm _ kids =>
      is_valid nm && negb (is_reserved nm) && forallb clean kids
  end.

(** The name of every visited node starts with a letter. *)
Fixpoint startable (n : node) : bool :=
  match n with
  | Node Enum _ _ _ => true
  | Node _ nm _ kids => starts_with_letter nm && forallb startable kids
  end.

(** The tree with the name of every visited node as its identifier. *)
Fixpoint identify (n : node) : node :=
  match n with
  | Node Enum _ _ _ => n
  | Node k nm _ kids => Node k nm (Some nm) (map identify kids)
  end.

(** The tree without the names and identifiers of its visited nodes:
    the classes, the order of the children, and the [Enum] subtrees as
    they are. *)
Fixpoint frame (n : node) : node :=
  match n with
  | Node Enum _ _ _ => n
  | Node k _ _ kids => Node k "" None (map frame kids)
  end.

(** What a run on a settled tree does. *)
Definition rerun_spec (t : node) : Prop :=
  settled t = true →
  ∃ t'' log',
    visit t = ok (t'', log')
    ∧ erase_identifiers t'' = erase_identifiers t
    ∧ (no_reserved t = true → log' = [] ∧ t'' = t)
    ∧ (no_reserved t = false → log' ≠ []).

(** *** Induction on trees *)

Section node_induction.
Variable P : node → Prop.
Hypothesis step : ∀ k nm id kids, Forall P kids → P (Node k nm id kids).

Fixpoint node_ind' (n : node) : P n :=
  let 'Node k nm id kids := n in
  step k nm id kids
    ((fix go (l : list node) : Forall P l :=
        match l with
        | [] => List.Forall_nil P
        | c :: cs => List.Forall_cons P c cs (node_ind' c) (go cs)
        end) kids).
End node_induction.

(** *** Sample trees *)

(** A register whose name is a VHDL reserved word. *)
Definition reserved_register : node := Node Register "out" None [].

(** The same register after a run of the pass: the name is kept, the
    identifier gets the suffix. *)
Definition reserved_register_done : node :=
  Node Register "out" (Some "out_0") [].

Definition sample_tree : node :=
  Node Register "my-reg_" None
    [Node Field "a b" None [Node Enum "1x" None []];
     Node Field "mode" None []].

(** A component with a register named by a reserved word, a field that
    needs sanitizing, a field that needs nothing and an enumerated
    value. *)
Definition mixed_tree : node :=
  Node Component "uart" None
    [Node Register "out" None
       [Node Field "tx-en" None [Node Enum "1x" None []];
        Node Field "ok" None []]].

Definition mixed_tree_done : node :=
  Node Component "uart" (Some "uart")
    [Node Register "out" (Some "out_0")
       [Node Field "tx_en" (Some "tx_en") [Node Enum "1x" None []];
        Node Field "ok" (Some "ok") []]].

(** A tree the pass has nothing to change in. *)
Definition clean_tree : node :=
  Node Component "uart" None
    [Node Register "ctrl" (Some "stale")
       [Node Field "mode" None [Node Enum "1x" None []]]].

Definition sample_tree_done : node :=
  Node Register "my_reg__0" (Some "my_reg__0")
    [Node Field "a_b" (Some "a_b") [Node Enum "1x" None []];
     Node Field "mode" (Some "mode") []].

End Legalize.

(** ** The address space *)

Module Space.

(** Modelled from the spec: the address-space container ([space.py]) is
    not among the sources.  The specification describes it as "an
    explicit sorted list of (start, length, optional
    owned-entity-reference) entries": "forward iteration yielding either
    an occupied slot (child + position + size) or a gap marker
    (position + size); a (child, offset, size) enumeration ignoring
    gaps; and extraction of a contiguous sub-range", where "slicing is a
    pure function producing a new list restricted and re-clipped to the
    requested range". *)
Record slot (A : Type) := Slot { obj : option A; pos : Z; size : Z }.
Arguments Slot {A} _ _ _.
Arguments obj {A} _.
Arguments pos {A} _.
Arguments size {A} _.

Definition space (A : Type) : Type := list (slot A).

(** [bool(ptr)]: a gap is false. *)
Definition occupied {A} (s : slot A) : bool :=
  match obj s with Some _ => true | None => false end.

(** [space.items()]: the occupied slots, as (child, offset, size). *)
Definition items {A} (sp : space A) : list (A * Z * Z) :=
  omap (λ s, match obj s with
             | Some a => Some (a, pos s, size s)
             | None => None
             end) sp.

(** The children held by the space, in declaration order. *)
Definition objects {A} (sp : space A) : list A :=
  map (λ i, i.1.1) (items sp).

(** [bool(space)]: an empty space is false. *)
Definition nonempty {A} (sp : space A) : bool :=
  match items sp with [] => false | _ => true end.

(** [space[a:b]]: every slot restricted to [[a, b)]; a slot that does not
    meet the range is dropped.  Positions stay those of the enclosing
    space. *)
Definition clip {A} (a b : Z) (s : slot A) : option (slot A) :=
  let lo := Z.max (pos s) a in
  let hi := Z.min (pos s + size s) b in
  if lo <? hi then Some (Slot (obj s) lo (hi - lo)) else None.

Definition slice {A} (sp : space A) (a b : Z) : space A :=
  omap (clip a b) sp.

(** The invariant of the specification: "slots are strictly ordered by
    position, non-overlapping, and collectively cover the entire
    declared range exactly once". *)
Fixpoint covers {A} (sp : space A) (from total : Z) : Prop :=
  match sp with
  | [] => from = total
  | s :: sp' => pos s = from ∧ 0 < size s ∧ covers sp' (from + size s) total
  end.

End Space.

(** ** The VHDL generator: data *)

Module Vhdl.
Import Space.

Inductive format := Bits | Signed | Unsigned.

(** The attributes of [xml_parser.Field] the generator reads.  A field
    has a [width] and a [size], both its number of bits. *)
Record Field := {
  f_name : string; f_identifier : string;
  f_offset : Z; f_width : Z; f_size : Z; f_format : format }.

(** The attributes of [xml_parser.Register] the generator reads; [r_space]
    is the bit space of its fields, empty for a simple register. *)
Record Register := {
  r_name : string; r_identifier : string;
  r_offset : Z; r_width : Z; r_format : format;
  r_readOnly : bool; r_writeOnly : bool;
  r_space : space Field }.

(** What a word space (of a component or of a register array) holds:
    registers, register arrays, and, where the tree is malformed, a node
    of another class. *)
Inductive entity :=
  | EReg (r : Register)
  | EArr (name identifier : string) (offset size framesize framecount : Z)
         (readOnly writeOnly : bool) (sp : list (slot entity))
  | EOther (class name identifier : string) (readOnly writeOnly : bool).

Record Component := {
  c_name : string; c_width : Z; c_size : Z; c_space : space entity }.

Definition e_name (e : entity) : string :=
  match e with
  | EReg r => r_name r
  | EArr n _ _ _ _ _ _ _ _ => n
  | EOther _ n _ _ _ => n
  end.

Definition e_identifier (e : entity) : string :=
  match e with
  | EReg r => r_identifier r
  | EArr _ i _ _ _ _ _ _ _ => i
  | EOther _ _ i _ _ => i
  end.

Definition e_readOnly (e : entity) : bool :=
  match e with
  | EReg r => r_readOnly r
  | EArr _ _ _ _ _ _ ro _ _ => ro
  | EOther _ _ _ ro _ => ro
  end.

Definition e_writeOnly (e : entity) : bool :=
  match e with
  | EReg r => r_writeOnly r
  | EArr _ _ _ _ _ _ _ wo _ => wo
  | EOther _ _ _ _ wo => wo
  end.

(** [register_format(element, index)] *)
Definition register_format (width : Z) (fmt : format) (index : bool) : string :=
  if width =? 1 then "std_logic"
  else
    let f := match fmt with
             | Bits => "std_logic_vector"
             | Signed => "signed"
             | Unsigned => "unsigned"
             end in
    if index then f +:+ "(" +:+ str_of_Z (width - 1) +:+ " downto 0)" else f.

(** [register_format(element, False).upper()] *)
Definition register_format_upper (width : Z) (fmt : format) : string :=
  if width =? 1 then "STD_LOGIC"
  else match fmt with
       | Bits => "STD_LOGIC_VECTOR"
       | Signed => "SIGNED"
       | Unsigned => "UNSIGNED"
       end.

(** *** [GenerateAddressConstants] *)

(** A line of the address-constants section: verbatim text, a comment
    block, or a constant written by [printaddress]. *)
Inductive aline :=
  | AText (s : string)
  | AComment (text : string)
  | AConst (name : string) (val : Z).

Definition nl : string := String (ascii_of_nat 10) "".

(** ['-' * 80], the bar of [commentblock]. *)
Definition cbar : string :=
  string_of_list_ascii (repeat "-"%char 80).

(** [printaddress]: ['constant {}: t_addr := {};'].  A comment block is
    rendered for a text of one line of at most 76 characters, which the
    text wrapper leaves as it is. *)
Definition render_aline (l : aline) : string :=
  match l with
  | AText s => s
  | AComment text => cbar +:+ nl +:+ "--  " +:+ text +:+ nl +:+ cbar
  | AConst name val =>
      "constant " +:+ name +:+ ": t_addr := " +:+ str_of_Z val +:+ ";"
  end.

Definition printaddress (name : string) (val : Z) : aline := AConst name val.

Definition visit_Register_addr (r : Register) : list aline :=
  [printaddress (r_name r +:+ "_ADDR") (r_offset r)].

(** [visit_RegisterArray], and the dispatch of [visitchildren] over the
    children of the array. *)
Fixpoint visit_entity_addr (e : entity) : list aline :=
  match e with
  | EReg r => visit_Register_addr r
  | EArr name _ offset size framesize framecount _ _ sp =>
      let consts :=
        [ ("_BASEADDR", offset);
          ("_LASTADDR", offset + size - 1);
          ("_FRAMESIZE", framesize);
          ("_FRAMECOUNT", framesize) ] in
      map (λ '(suffix, val), printaddress (name +:+ suffix) val) consts
      ++ flat_map (λ s, match obj s with
                        | Some c => visit_entity_addr c
                        | None => []
                        end) sp
  | EOther _ _ _ _ _ => []
  end.

Definition visit_Component_addr (c : Component) : list aline :=
  let maxaddr := c_size c - 1 in
  [ AComment "Address Constants";
    AText ("subtype t_addr is integer range 0 to " +:+ str_of_Z maxaddr +:+ ";") ]
  ++ flat_map visit_entity_addr (objects (c_space c))
  ++ [ AText "function GET_ADDR(address: std_logic_vector) return t_addr;";
       AText "function GET_ADDR(address: unsigned) return t_addr;" ].

(** The constants a list of lines declares. *)
Definition declared (ls : list aline) : list (string * Z) :=
  omap (λ l, match l with AConst n v => Some (n, v) | _ => None end) ls.

(** The value of a declared constant. *)
Fixpoint const_value (cs : list (string * Z)) (name : string) : option Z :=
  match cs with
  | [] => None
  | (n, v) :: cs' => if String.eqb n name then Some v else const_value cs' name
  end.

(** *** [GenerateFunctionBodies]: the address dispatch *)

(** A scope with a word space: a component or a register array. *)
Record scope := { s_name : string; s_space : space entity }.

Definition scope_of_component (c : Component) : scope :=
  {| s_name := c_name c; s_space := c_space c |}.

(** The scope of a register array; another entity has no word space. *)
Definition scope_of_entity (e : entity) : scope :=
  match e with
  | EArr n _ _ _ _ _ _ _ sp => {| s_name := n; s_space := sp |}
  | _ => {| s_name := e_name e; s_space := [] |}
  end.

(** The choices and the statements of the alternatives of a generated
    [case]. *)
Inductive choice :=
  | OnConst (c : string)          (* when C => *)
  | OnRange (lo hi : string)      (* when LO to HI => *)
  | OnOthers.                     (* when others => *)

Inductive action :=
  | UpdateReg (fn name base identifier : string)
  | UpdateArr (fn name offset base identifier : string)
  | ReadReg (name base identifier : string)
  | ReadArr (name offset base identifier : string)
  | ClearSuccess.

Definition whenline : Type := choice * action.

Definition render_choice (c : choice) : string :=
  match c with
  | OnConst c => "when " +:+ c +:+ " => "
  | OnRange lo hi => "when " +:+ lo +:+ " to " +:+ hi +:+ " => "
  | OnOthers => "when others => "
  end.

Definition render_action (a : action) : string :=
  match a with
  | UpdateReg fn name base identifier =>
      fn +:+ "_" +:+ name +:+ "(dat, byteen, " +:+ base +:+ "."
      +:+ identifier +:+ ");"
  | UpdateArr fn name offset base identifier =>
      fn +:+ "_" +:+ name +:+ "(dat, byteen, " +:+ offset +:+ "-" +:+ name
      +:+ "_BASEADDR, " +:+ base +:+ "." +:+ identifier +:+ ", success);"
  | ReadReg name base identifier =>
      "dat := " +:+ name +:+ "_TO_DAT(" +:+ base +:+ "." +:+ identifier
      +:+ ");"
  | ReadArr name offset base identifier =>
      "READ_" +:+ name +:+ "(" +:+ offset +:+ "-" +:+ name +:+ "_BASEADDR, "
      +:+ base +:+ "." +:+ identifier +:+ ", dat, success);"
  | ClearSuccess => "success := false;"
  end.

Definition render_whenline (w : whenline) : string :=
  "        " +:+ render_choice w.1 +:+ render_action w.2.

Definition others_line : whenline := (OnOthers, ClearSuccess).

(** The generator's own errors. *)
Inductive gen_error := ValueError (msg : string).

(** [_fnclass(sig)]: the [fn] and the [class] parameters. *)
Definition fnclass (sig : bool) : string * string :=
  if sig then ("UPDATESIG", "signal") else ("UPDATE", "variable").

(** The loop of [_updatewhenlines] over what it iterates; the state is
    [whenlines] and [gaps]. *)
Fixpoint update_loop (fn base offset scope_name : string)
    (it : list (option entity * Z * Z))
    (whenlines : list whenline) (gaps : bool)
  : result gen_error (list whenline * bool) :=
  match it with
  | [] => ok (whenlines, gaps)
  | (o, _, _) :: it' =>
      match o with
      | None => update_loop fn base offset scope_name it' whenlines true
      | Some e =>
          (* Is this a thing we can't write to? *)
          if e_readOnly e
          then update_loop fn base offset scope_name it' whenlines true
          else
            match e with
            | EReg _ =>
                update_loop fn base offset scope_name it'
                  (whenlines ++
                   [(OnConst (e_name e +:+ "_ADDR"),
                     UpdateReg fn (e_name e) base (e_identifier e))])
                  gaps
            | EArr _ _ _ _ _ _ _ _ _ =>
                update_loop fn base offset scope_name it'
                  (whenlines ++
                   [(OnRange (e_name e +:+ "_BASEADDR")
                             (e_name e +:+ "_LASTADDR"),
                     UpdateArr fn (e_name e) offset base (e_identifier e))])
                  gaps
            | EOther class name _ _ _ =>
                raise (ValueError ("Child node " +:+ class +:+ ": " +:+ name
                                   +:+ " of Component " +:+ scope_name))
            end
      end
  end.

(** [_updatewhenlines(node, base, offset, sig)].  The loop runs over
    [node.space.items()], the enumeration that ignores gaps. *)
Definition updatewhenlines (node : scope) (base offset : string) (sig : bool)
  : result gen_error (list whenline) :=
  let it := map (λ '(child, p, sz), (Some child, p, sz))
                (items (s_space node)) in
  let* '(whenlines, gaps) :=
    update_loop (fnclass sig).1 base offset (s_name node) it [] false in
  (* Put an others line on if the case wasn't filled. *)
  ok (if gaps then whenlines ++ [others_line] else whenlines).

(** The loop of [_readwhenlines]. *)
Fixpoint read_loop (base offset scope_name : string)
    (it : list (option entity * Z * Z))
    (whenlines : list whenline) (gaps : bool)
  : result gen_error (list whenline * bool) :=
  match it with
  | [] => ok (whenlines, gaps)
  | (o, _, _) :: it' =>
      match o with
      | None => read_loop base offset scope_name it' whenlines true
      | Some e =>
          (* Is this a thing we can't read from? *)
          if e_writeOnly e
          then read_loop base offset scope_name it' whenlines true
          else
            match e with
            | EReg _ =>
                read_loop base offset scope_name it'
                  (whenlines ++
                   [(OnConst (e_name e +:+ "_ADDR"),
                     ReadReg (e_name e) base (e_identifier e))])
                  gaps
            | EArr _ _ _ _ _ _ _ _ _ =>
                read_loop base offset scope_name it'
                  (whenlines ++
                   [(OnRange (e_name e +:+ "_BASEADDR")
                             (e_name e +:+ "_LASTADDR"),
                     ReadArr (e_name e) offset base (e_identifier e))])
                  gaps
            | EOther class name _ _ _ =>
                raise (ValueError ("Child node " +:+ class +:+ ": " +:+ name
                                   +:+ " of GenerateFunctionBodies: "
                                   +:+ scope_name))
            end
      end
  end.

(** [_readwhenlines(node, base, offset)].  The loop runs over
    [node.space], the iteration that yields the gaps too. *)
Definition readwhenlines (node : scope) (base offset : string)
  : result gen_error (list whenline) :=
  let it := map (λ s, (obj s, pos s, size s)) (s_space node) in
  let* '(whenlines, gaps) :=
    read_loop base offset (s_name node) it [] false in
  ok (if gaps then whenlines ++ [others_line] else whenlines).

(** The statements of the generated procedure bodies. *)
Inductive expr :=
  | Var (x : string)
  | Cst (c : string)
  | Div (a b : expr)              (* a / b *)
  | Mod (a b : expr).             (* a mod b *)

Inductive pstmt :=
  | SetInt (x : string) (e : expr)          (* x := e; *)
  | SetSuccess (b : bool)                   (* success := b; *)
  | SetDatX                                 (* dat := (others => 'X'); *)
  | CaseOf (x : string) (lines : list whenline).

(** A generated procedure: its name, the object class of its [ra]/[reg]
    parameter ([in] for a read), its local variables with the constant
    bounding their range, and its body. *)
Record procedure := {
  p_name : string; p_class : string;
  p_locals : list (string * string);
  p_body : list pstmt }.

Fixpoint render_expr (e : expr) : string :=
  match e with
  | Var x => x
  | Cst c => c
  | Div a b => render_expr a +:+ " / " +:+ render_expr b
  | Mod a b => render_expr a +:+ " mod " +:+ render_expr b
  end.

Definition render_pstmt (st : pstmt) : list string :=
  match st with
  | SetInt x e => ["    " +:+ x +:+ " := " +:+ render_expr e +:+ ";"]
  | SetSuccess b =>
      ["    success := " +:+ (if b then "true" else "false") +:+ ";"]
  | SetDatX => ["    dat := (others => 'X');"]
  | CaseOf x lines =>
      ["    case " +:+ x +:+ " is"] ++ map render_whenline lines
      ++ ["    end case;"]
  end.

Definition render_local (l : string * string) : string :=
  "    variable " +:+ l.1 +:+ ": integer range 0 to " +:+ l.2 +:+ "-1;".

(** [_complexregarrayupdate(node, sig)] *)
Definition complexregarrayupdate (node : scope) (sig : bool)
  : result gen_error procedure :=
  let '(fn, class) := fnclass sig in
  let name := s_name node in
  let* whenlines := updatewhenlines node "ra(idx)" "offs" sig in
  ok {| p_name := fn +:+ "_" +:+ name;
        p_class := class;
        p_locals := [("idx", name +:+ "_FRAMECOUNT");
                     ("ofs", name +:+ "_FRAMESIZE")];
        p_body :=
          [ SetInt "idx" (Div (Var "offset") (Cst (name +:+ "_FRAMESIZE")));
            SetInt "offs" (Mod (Var "offset") (Cst (name +:+ "_FRAMESIZE")));
            SetSuccess true;
            SetDatX;
            CaseOf "offs" whenlines ] |}.

(** [_complexregarrayread(node)] *)
Definition complexregarrayread (node : scope) : result gen_error procedure :=
  let name := s_name node in
  let* whenlines := readwhenlines node "ra(idx)" "offs" in
  ok {| p_name := "READ_" +:+ name;
        p_class := "in";
        p_locals := [("idx", name +:+ "_FRAMECOUNT");
                     ("ofs", name +:+ "_FRAMESIZE")];
        p_body :=
          [ SetInt "idx" (Div (Var "offset") (Cst (name +:+ "_FRAMESIZE")));
            SetInt "offs" (Mod (Var "offset") (Cst (name +:+ "_FRAMESIZE")));
            SetSuccess true;
            CaseOf "offs" whenlines ] |}.

(** [_regfileupdate(node, sig)]: the update of the whole register file
    of a component. *)
Definition regfileupdate (c : Component) (sig : bool)
  : result gen_error procedure :=
  let '(fn, class) := fnclass sig in
  let* whenlines :=
    updatewhenlines (scope_of_component c) "reg" "offset" sig in
  ok {| p_name := fn +:+ "_REGFILE";
        p_class := class;
        p_locals := [];
        p_body := [ SetSuccess true; SetDatX; CaseOf "offset" whenlines ] |}.

(** [_regfileread(node)]: the read of the whole register file.  The
    parameter is [offset]; the [case] is written on [offs]. *)
Definition regfileread (c : Component) : result gen_error procedure :=
  let* whenlines := readwhenlines (scope_of_component c) "reg" "offset" in
  ok {| p_name := "READ_REGFILE";
        p_class := "in";
        p_locals := [];
        p_body := [ SetSuccess true; CaseOf "offs" whenlines ] |}.

(** The text of an array procedure, as [_complexregarrayupdate] and
    [_complexregarrayread] print it. *)
Definition render_array_procedure (array_name : string) (p : procedure)
  : list string :=
  let is_read := String.eqb (p_class p) "in" in
  ["procedure " +:+ p_name p +:+ "("]
  ++ (if is_read
      then [ "    offset: in t_addr;";
             "    ra: in ta_" +:+ array_name +:+ ";";
             "    dat: out t_busdata;" ]
      else [ "    dat: in t_busdata; byteen : in std_logic_vector;";
             "    offset: in t_addr;";
             "    " +:+ p_class p +:+ " ra: inout ta_" +:+ array_name +:+ ";" ])
  ++ ["    success: out boolean"; ") is"]
  ++ map render_local (p_locals p)
  ++ ["begin"]
  ++ flat_map render_pstmt (p_body p)
  ++ ["end procedure " +:+ p_name p +:+ ";"].

(** *** The meaning of a generated dispatch *)

(** The state of a running procedure: its integer objects, the
    [success] flag, and the statement of the alternative the [case]
    selected.  The selected statement is recorded, not run: where it
    passes [success] on to the procedure of a nested array the flag is
    left undetermined ([None]). *)
Record pstate := {
  st_ints : gmap string Z;
  st_success : option bool;
  st_selected : option action }.

(** VHDL's integer [/] truncates towards zero and [mod] takes the sign
    of the divisor; both are errors on a zero divisor. *)
Fixpoint eval (cs : list (string * Z)) (ints : gmap string Z) (e : expr)
  : option Z :=
  match e with
  | Var x => ints !! x
  | Cst c => const_value cs c
  | Div a b =>
      match eval cs ints a, eval cs ints b with
      | Some x, Some y => if y =? 0 then None else Some (Z.quot x y)
      | _, _ => None
      end
  | Mod a b =>
      match eval cs ints a, eval cs ints b with
      | Some x, Some y => if y =? 0 then None else Some (x `mod` y)
      | _, _ => None
      end
  end.

Definition matches (cs : list (string * Z)) (v : Z) (c : choice) : bool :=
  match c with
  | OnConst n =>
      match const_value cs n with Some a => v =? a | None => false end
  | OnRange lo hi =>
      match const_value cs lo, const_value cs hi with
      | Some a, Some b => (a <=? v) && (v <=? b)
      | _, _ => false
      end
  | OnOthers => true
  end.

(** The alternative a [case] on the value [v] selects: the first one
    whose choice covers [v]. *)
Fixpoint select (cs : list (string * Z)) (v : Z) (lines : list whenline)
  : option action :=
  match lines with
  | [] => None
  | (c, a) :: lines' => if matches cs v c then Some a else select cs v lines'
  end.

(** What the statements of a body do to the state, the rules of VHDL on
    declarations, parameter modes and ranges left aside: those are
    [analyse] and [run] below, and a procedure has a meaning in VHDL
    only where [run] has a result.  An integer object holds a value
    once it is assigned; a [case] on an object without a value has no
    result. *)
Definition exec_pstmt (cs : list (string * Z)) (st : pstate) (s : pstmt)
  : option pstate :=
  match s with
  | SetInt x e =>
      match eval cs (st_ints st) e with
      | Some v => Some {| st_ints := <[x := v]> (st_ints st);
                          st_success := st_success st;
                          st_selected := st_selected st |}
      | None => None
      end
  | SetSuccess b => Some {| st_ints := st_ints st;
                            st_success := Some b;
                            st_selected := st_selected st |}
  | SetDatX => Some st
  | CaseOf x lines =>
      match st_ints st !! x with
      | Some v =>
          let a := select cs v lines in
          Some {| st_ints := st_ints st;
                  st_success :=
                    match a with
                    | Some ClearSuccess => Some false
                    | Some (UpdateArr _ _ _ _ _) | Some (ReadArr _ _ _ _) =>
                        None
                    | _ => st_success st
                    end;
                  st_selected := a |}
      | None => None
      end
  end.

Fixpoint exec_body (cs : list (string * Z)) (st : pstate) (body : list pstmt)
  : option pstate :=
  match body with
  | [] => Some st
  | s :: body' =>
      match exec_pstmt cs st s with
      | Some st' => exec_body cs st' body'
      | None => None
      end
  end.

(** A call of the procedure at the address [offset]. *)
Definition call (cs : list (string * Z)) (p : procedure) (offset : Z)
  : option pstate :=
  exec_body cs {| st_ints := {[ "offset" := offset ]};
                  st_success := None; st_selected := None |} (p_body p).

(** *** The rules of VHDL on a generated procedure *)

(** What VHDL refuses, in the text of a procedure or at a call of it. *)
Inductive fault :=
  | Undeclared (x : string)           (* no declaration of [x] is visible *)
  | NotAssignable (x : string)        (* [x] is a parameter of mode [in] *)
  | OutOfRange (x : string) (v : Z)   (* [v] is outside the range of [x] *)
  | NoValue.                          (* a zero divisor, an unknown constant *)

(** A read procedure has [dat: out t_busdata], an update procedure
    [dat: in t_busdata]; both have [offset: in t_addr]. *)
Definition is_read (p : procedure) : bool := String.eqb (p_class p) "in".

Definition is_local (p : procedure) (x : string) : bool :=
  existsb (λ l, String.eqb x l.1) (p_locals p).

(** The integer objects a body can read: the parameter [offset] and the
    local variables. *)
Definition readable (p : procedure) (x : string) : bool :=
  String.eqb x "offset" || is_local p x.

Fixpoint expr_faults (p : procedure) (e : expr) : list fault :=
  match e with
  | Var x => if readable p x then [] else [Undeclared x]
  | Cst _ => []
  | Div a b | Mod a b => expr_faults p a ++ expr_faults p b
  end.

(** The faults of a statement.  The alternatives of a [case] are not
    looked into: the list is of faults the text has, not of all of
    them. *)
Definition pstmt_faults (p : procedure) (s : pstmt) : list fault :=
  match s with
  | SetInt x e =>
      expr_faults p e
      ++ (if is_local p x then []
          else if String.eqb x "offset" then [NotAssignable x]
          else [Undeclared x])
  | SetSuccess _ => []
  | SetDatX => if is_read p then [] else [NotAssignable "dat"]
  | CaseOf x _ => if readable p x then [] else [Undeclared x]
  end.

Definition analyse (p : procedure) : list fault :=
  flat_map (pstmt_faults p) (p_body p).

(** [variable x: integer range 0 to C-1]: a value assigned to [x] is
    checked against the range. *)
Definition in_declared_range (cs : list (string * Z)) (p : procedure)
    (x : string) (v : Z) : bool :=
  forallb (λ l, if String.eqb x l.1
                then match const_value cs l.2 with
                     | Some b => (0 <=? v) && (v <=? b - 1)
                     | None => false
                     end
                else true)
          (p_locals p).

Definition run_pstmt (cs : list (string * Z)) (p : procedure) (st : pstate)
    (s : pstmt) : result fault pstate :=
  match exec_pstmt cs st s with
  | None => raise NoValue
  | Some st' =>
      match s with
      | SetInt x _ =>
          match st_ints st' !! x with
          | Some v => if in_declared_range cs p x v then ok st'
                      else raise (OutOfRange x v)
          | None => raise NoValue
          end
      | _ => ok st'
      end
  end.

Fixpoint run_body (cs : list (string * Z)) (p : procedure) (st : pstate)
    (body : list pstmt) : result fault pstate :=
  match body with
  | [] => ok st
  | s :: body' =>
      let* st' := run_pstmt cs p st s in
      run_body cs p st' body'
  end.

(** A call of the procedure at the address [offset], under the rules:
    a procedure whose text has a fault is not run. *)
Definition run (cs : list (string * Z)) (p : procedure) (offset : Z)
  : result fault pstate :=
  match analyse p with
  | f :: _ => raise f
  | [] =>
      run_body cs p {| st_ints := {[ "offset" := offset ]};
                       st_success := None; st_selected := None |}
               (p_body p)
  end.

(** The procedure with the local [ofs] declared under the name the body
    uses, [offs]. *)
Definition declare_offs (p : procedure) : procedure :=
  {| p_name := p_name p; p_class := p_class p;
     p_locals := map (λ l, if String.eqb l.1 "ofs" then ("offs", l.2) else l)
                     (p_locals p);
     p_body := p_body p |}.

(** *** The register functions: [GenerateD2R], [GenerateR2D] and
    [GenerateRegUpdate] *)

(** The left-hand sides and the right-hand sides of the assignments the
    three generators write. *)
Inductive target :=
  | RegSlice (H L : Z)                          (* reg(H downto L) *)
  | RegBit (L : Z)                              (* reg(L) *)
  | FieldSlice (identifier : string) (fh fl : Z)
                                                (* reg.id(fh downto fl) *)
  | FieldWhole (identifier : string)            (* reg.id *)
  | RetSlice (H L : Z)                          (* ret(H downto L) *)
  | RetBit (H : Z).                             (* ret(H) *)

Inductive source :=
  | DatBit (L : Z)                              (* dat(L) *)
  | DatBitAs (fmt : string) (L : Z)             (* FMT(dat(L)) *)
  | DatSlice (fmt : string) (H L : Z)           (* FMT(dat(H downto L)) *)
  | RegField (identifier : string)              (* reg.id *)
  | RegFieldVector (identifier : string).       (* STD_LOGIC_VECTOR(reg.id) *)

Definition assignment : Type := target * source.

(** A lane of [UPDATE_reg]: [if byteen(bit) then ... end if;] *)
Record lane_update := { lu_bit : Z; lu_body : list assignment }.

(** The body of [DAT_TO_reg]: the return of an expression or of a
    record aggregate. *)
Inductive d2r_body :=
  | ReturnOf (s : source)
  | ReturnAggregate (assoc : list (string * source)).

Definition downto (H L : Z) : string :=
  "(" +:+ str_of_Z H +:+ " downto " +:+ str_of_Z L +:+ ")".

Definition render_target (t : target) : string :=
  match t with
  | RegSlice H L => "reg" +:+ downto H L
  | RegBit L => "reg(" +:+ str_of_Z L +:+ ")"
  | FieldSlice id fh fl => "reg." +:+ id +:+ downto fh fl
  | FieldWhole id => "reg." +:+ id
  | RetSlice H L => "ret" +:+ downto H L
  | RetBit H => "ret(" +:+ str_of_Z H +:+ ")"
  end.

Definition render_source (s : source) : string :=
  match s with
  | DatBit L => "dat(" +:+ str_of_Z L +:+ ")"
  | DatBitAs fmt L => fmt +:+ "(dat(" +:+ str_of_Z L +:+ "))"
  | DatSlice fmt H L => fmt +:+ "(dat" +:+ downto H L +:+ ")"
  | RegField id => "reg." +:+ id
  | RegFieldVector id => "STD_LOGIC_VECTOR(reg." +:+ id +:+ ")"
  end.

Definition render_assignment (a : assignment) : string :=
  render_target a.1 +:+ " := " +:+ render_source a.2 +:+ ";".

(** A line of the body of [reg_TO_DAT]. *)
Definition render_r2d (a : assignment) : string :=
  "    " +:+ render_assignment a.

Definition render_lane (l : lane_update) : list string :=
  ["    if byteen(" +:+ str_of_Z (lu_bit l) +:+ ") then"]
  ++ map (λ a, "        " +:+ render_assignment a) (lu_body l)
  ++ ["    end if;"].

Definition render_d2r (b : d2r_body) : list string :=
  match b with
  | ReturnOf s => ["    return " +:+ render_source s +:+ ";"]
  | ReturnAggregate assoc =>
      ["    return ("]
      ++ [join ("," +:+ nl)
            (map (λ '(n, s), "        " +:+ n +:+ " => " +:+ render_source s)
                 assoc)]
      ++ ["    );"]
  end.

(** [enumerate(range(0, width, 8))]: the lanes of a register, as
    (bit, start). *)
Definition lanes (width : Z) : list (Z * Z) :=
  map (λ k : nat, (Z.of_nat k, 8 * Z.of_nat k))
      (seq 0 (Z.to_nat ((width + 7) `div` 8))).

(** [visitchildren(node)] of a register: its fields, in declaration
    order. *)
Definition fields (r : Register) : list Field := objects (r_space r).

Module GenerateD2R.

Definition simpleRegister (node : Register) : d2r_body :=
  let fmt := register_format_upper (r_width node) (r_format node) in
  if r_width node =? 1 then ReturnOf (DatBitAs fmt 0)
  else ReturnOf (DatSlice fmt (r_width node - 1) 0).

Definition visit_Field (node : Field) : string * source :=
  let fmt := register_format_upper (f_width node) (f_format node) in
  let high := f_offset node + f_width node - 1 in
  let low := f_offset node in
  if f_width node =? 1 then (f_name node, DatBit high)
  else (f_name node, DatSlice fmt high low).

Definition complexRegister (node : Register) : d2r_body :=
  ReturnAggregate (map visit_Field (fields node)).

Definition visit_Register (node : Register) : d2r_body :=
  if nonempty (r_space node) then complexRegister node
  else simpleRegister node.

End GenerateD2R.

Module GenerateR2D.

Definition simpleRegister (node : Register) : list assignment :=
  if r_width node =? 1
  then [(RetBit 0, RegField (r_identifier node))]
  else [(RetSlice (r_width node - 1) 0, RegFieldVector (r_identifier node))].

Definition visit_Field (node : Field) : assignment :=
  let high := f_offset node + f_width node - 1 in
  let low := f_offset node in
  if f_width node =? 1
  then (RetBit high, RegField (f_identifier node))
  else (RetSlice high low, RegFieldVector (f_identifier node)).

Definition complexRegister (node : Register) : list assignment :=
  map visit_Field (fields node).

Definition visit_Register (node : Register) : list assignment :=
  if nonempty (r_space node) then complexRegister node
  else simpleRegister node.

End GenerateR2D.

Module GenerateRegUpdate.

(** The body of the loop of [simpleRegister], for a lane
    [(bit, start)]. *)
Definition simple_lane (width : Z) (fmt : string) (lane : Z * Z)
  : lane_update :=
  let '(bit, start) := lane in
  let end_ := Z.min (start + 7) width in
  let line :=
    if start =? end_ then (RegBit start, DatBit start)
    else (RegSlice end_ start, DatSlice fmt end_ start) in
  {| lu_bit := bit; lu_body := [line] |}.

Definition simpleRegister (node : Register) : list lane_update :=
  let fmt := register_format_upper (r_width node) (r_format node) in
  map (simple_lane (r_width node) fmt) (lanes (r_width node)).

(** The inner loop of [complexRegister], over a sub-space. *)
Definition lane_lines (subspace : space Field) : list assignment :=
  omap (λ s,
          match obj s with
          | None => None
          | Some o =>
              let start := pos s in
              let sz := size s in
              let fmt := register_format_upper (f_width o) (f_format o) in
              Some (if (1 <? sz) || (1 <? f_size o)
                    then (* This field is indexable. *)
                      (FieldSlice (f_identifier o)
                                  (start + sz - 1 - f_offset o)
                                  (start - f_offset o),
                       DatSlice fmt (start + sz - 1) start)
                    else (* This field is a bit. *)
                      (FieldWhole (f_identifier o), DatBit start))
          end) subspace.

(** The body of the loop of [complexRegister], for a lane
    [(bit, start)]. *)
Definition complex_lane (sp : space Field) (lane : Z * Z)
  : option lane_update :=
  let '(bit, start) := lane in
  let subspace := slice sp start (start + 8) in
  if negb (existsb occupied subspace) then None
  else Some {| lu_bit := bit;
               lu_body := lane_lines subspace |}.

Definition complexRegister (node : Register) : list lane_update :=
  omap (complex_lane (r_space node)) (lanes (r_width node)).

Definition visit_Register (node : Register) : list lane_update :=
  if nonempty (r_space node) then complexRegister node
  else simpleRegister node.

End GenerateRegUpdate.

(** [GenerateTypes.visit_Register] and [visit_Field]: a complex register
    is a record with one element per field, named by the identifier of
    the field and typed by its width; a simple register is a scalar
    subtype.  A width of 1 is [std_logic], another width a vector. *)
Inductive regtype :=
  | TScalar (width : Z)
  | TRecord (elements : list (string * Z)).

Definition type_of_register (node : Register) : regtype :=
  if nonempty (r_space node)
  then TRecord (map (λ f, (f_identifier f, f_width f)) (fields node))
  else TScalar (r_width node).

(** *** The meaning of the register functions *)

(** A value of a VHDL object: a [std_logic] bit, or a vector of [w]
    bits, held as the number they spell ([bits] in [[0, 2^w)]).  The
    nine-valued [std_logic] is cut down to two values. *)
Inductive value :=
  | VBit (b : bool)
  | VVec (w : Z) (bits : Z).

Inductive regvalue :=
  | Scalar (v : value)
  | Fields (m : gmap string value).

(** [z(H downto L)] *)
Definition bits_of (z : Z) (H L : Z) : Z :=
  Z.land (Z.shiftr z L) (Z.ones (H - L + 1)).

(** [z] after [z(H downto L) := v] *)
Definition set_bits (z : Z) (H L : Z) (v : Z) : Z :=
  Z.lor (Z.ldiff z (Z.shiftl (Z.ones (H - L + 1)) L)) (Z.shiftl v L).

(** [z] after [z(i) := b] *)
Definition set_bit (z : Z) (i : Z) (b : bool) : Z :=
  if b then Z.setbit z i else Z.clearbit z i.

Definition in_range (W H L : Z) : bool :=
  (0 <=? L) && (L <=? H) && (H <? W).

(** The value of a right-hand side, for a bus of [W] bits.  An index out
    of range, the selection of an element of an object that is not a
    record or has no such element, and the conversion of a slice to
    [STD_LOGIC] have no value. *)
Definition eval_source (W : Z) (dat : Z) (reg : regvalue) (s : source)
  : option value :=
  match s with
  | DatBit L =>
      if in_range W L L then Some (VBit (Z.testbit dat L)) else None
  | DatBitAs fmt L =>
      if in_range W L L && String.eqb fmt "STD_LOGIC"
      then Some (VBit (Z.testbit dat L)) else None
  | DatSlice fmt H L =>
      if in_range W H L && negb (String.eqb fmt "STD_LOGIC")
      then Some (VVec (H - L + 1) (bits_of dat H L)) else None
  | RegField id =>
      match reg with
      | Fields m => m !! id
      | Scalar _ => None
      end
  | RegFieldVector id =>
      match reg with
      | Fields m =>
          match m !! id with
          | Some (VVec w bits) => Some (VVec w bits)
          | _ => None
          end
      | Scalar _ => None
      end
  end.

(** The objects an assignment can change: [reg] and [ret]. *)
Definition store : Type := regvalue * Z.

(** An assignment to a target.  The target must exist, be indexed
    within its range, and have the shape and the length of the value. *)
Definition assign (W : Z) (st : store) (t : target) (v : value)
  : option store :=
  let '(reg, ret) := st in
  match t, v with
  | RegSlice H L, VVec n bits =>
      match reg with
      | Scalar (VVec w r) =>
          if in_range w H L && (n =? H - L + 1)
          then Some (Scalar (VVec w (set_bits r H L bits)), ret) else None
      | _ => None
      end
  | RegBit L, VBit b =>
      match reg with
      | Scalar (VVec w r) =>
          if in_range w L L
          then Some (Scalar (VVec w (set_bit r L b)), ret) else None
      | _ => None
      end
  | FieldSlice id fh fl, VVec n bits =>
      match reg with
      | Fields m =>
          match m !! id with
          | Some (VVec w r) =>
              if in_range w fh fl && (n =? fh - fl + 1)
              then Some (Fields (<[id := VVec w (set_bits r fh fl bits)]> m),
                         ret)
              else None
          | _ => None
          end
      | _ => None
      end
  | FieldWhole id, VBit b =>
      match reg with
      | Fields m =>
          match m !! id with
          | Some (VBit _) => Some (Fields (<[id := VBit b]> m), ret)
          | _ => None
          end
      | _ => None
      end
  | RetSlice H L, VVec n bits =>
      if in_range W H L && (n =? H - L + 1)
      then Some (reg, set_bits ret H L bits) else None
  | RetBit H, VBit b =>
      if in_range W H H then Some (reg, set_bit ret H b) else None
  | _, _ => None
  end.

Definition exec_assignment (W : Z) (dat : Z) (st : store) (a : assignment)
  : option store :=
  match eval_source W dat st.1 a.2 with
  | Some v => assign W st a.1 v
  | None => None
  end.

Fixpoint exec_assignments (W : Z) (dat : Z) (st : store)
    (body : list assignment) : option store :=
  match body with
  | [] => Some st
  | a :: body' =>
      match exec_assignment W dat st a with
      | Some st' => exec_assignments W dat st' body'
      | None => None
      end
  end.

(** [byteen(bit)], for a mask given by its elements from index 0. *)
Definition enabled (byteen : list bool) (bit : Z) : option bool :=
  if bit <? 0 then None else byteen !! Z.to_nat bit.

Fixpoint exec_lanes (W : Z) (dat : Z) (byteen : list bool) (st : store)
    (ls : list lane_update) : option store :=
  match ls with
  | [] => Some st
  | l :: ls' =>
      match enabled byteen (lu_bit l) with
      | Some true =>
          match exec_assignments W dat st (lu_body l) with
          | Some st' => exec_lanes W dat byteen st' ls'
          | None => None
          end
      | Some false => exec_lanes W dat byteen st ls'
      | None => None
      end
  end.

(** A value of the type of a width. *)
Definition value_ok (w : Z) (v : value) : bool :=
  match v with
  | VBit _ => w =? 1
  | VVec w' bits =>
      (w' =? w) && negb (w =? 1) && (0 <=? bits) && (bits <? 2 ^ w)
  end.

(** A record aggregate for a record type: it gives every element a
    value of its type.  The elements are compared in their order of
    declaration, the order in which the generator writes them. *)
Fixpoint aggregate_ok (elements : list (string * Z))
    (assoc : list (string * value)) : bool :=
  match elements, assoc with
  | [], [] => true
  | (id, w) :: elements', (n, v) :: assoc' =>
      String.eqb id n && value_ok w v && aggregate_ok elements' assoc'
  | _, _ => false
  end.

(** A value of the type of a register. *)
Definition has_type (ty : regtype) (reg : regvalue) : Prop :=
  match ty, reg with
  | TScalar w, Scalar v => value_ok w v = true
  | TRecord elements, Fields m =>
      NoDup (map fst elements)
      ∧ (∀ id, is_Some (m !! id) ↔ id ∈ map fst elements)
      ∧ ∀ id w, (id, w) ∈ elements →
                ∃ v, m !! id = Some v ∧ value_ok w v = true
  | _, _ => False
  end.

Fixpoint eval_assoc (W : Z) (dat : Z) (assoc : list (string * source))
  : option (list (string * value)) :=
  match assoc with
  | [] => Some []
  | (n, s) :: assoc' =>
      match eval_source W dat (Scalar (VBit false)) s, eval_assoc W dat assoc' with
      | Some v, Some vs => Some ((n, v) :: vs)
      | _, _ => None
      end
  end.

(** [DAT_TO_reg(dat)]: the register value of a bus word. *)
Definition DAT_TO (W : Z) (node : Register) (dat : Z) : option regvalue :=
  match GenerateD2R.visit_Register node, type_of_register node with
  | ReturnOf s, TScalar w =>
      match eval_source W dat (Scalar (VBit false)) s with
      | Some v => if value_ok w v then Some (Scalar v) else None
      | None => None
      end
  | ReturnAggregate assoc, TRecord elements =>
      match eval_assoc W dat assoc with
      | Some vs =>
          if aggregate_ok elements vs
          then Some (Fields (list_to_map vs)) else None
      | None => None
      end
  | _, _ => None
  end.

(** [reg_TO_DAT(reg)]: the bus word of a register value; [ret] starts
    as [(others => '0')]. *)
Definition TO_DAT (W : Z) (node : Register) (reg : regvalue) : option Z :=
  match exec_assignments W 0 (reg, 0) (GenerateR2D.visit_Register node) with
  | Some (_, ret) => Some ret
  | None => None
  end.

(** [UPDATE_reg(dat, byteen, reg)]: the register value after the
    update. *)
Definition UPDATE (W : Z) (node : Register) (dat : Z) (byteen : list bool)
    (reg : regvalue) : option regvalue :=
  match exec_lanes W dat byteen (reg, 0)
          (GenerateRegUpdate.visit_Register node) with
  | Some (reg', _) => Some reg'
  | None => None
  end.

(** *** The claims' vocabulary for the register functions *)

(** The value a bus word holds for a field. *)
Definition word_field (dat : Z) (f : Field) : value :=
  if f_width f =? 1 then VBit (Z.testbit dat (f_offset f))
  else VVec (f_width f)
            (bits_of dat (f_offset f + f_width f - 1) (f_offset f)).

(** Two fields that share no bit. *)
Definition apart (f g : Field) : Prop :=
  f_offset f + f_width f ≤ f_offset g ∨ f_offset g + f_width g ≤ f_offset f.

Fixpoint pairwise_apart (fs : list Field) : Prop :=
  match fs with
  | [] => True
  | f :: fs' => Forall (apart f) fs' ∧ pairwise_apart fs'
  end.

(** The fields of a well-formed complex register on a bus of [W] bits:
    distinct identifiers, which are the names (no name is a reserved
    word), and bit ranges inside the bus word that do not overlap. *)
Record wf_fields (W : Z) (fs : list Field) : Prop := {
  wf_nodup : NoDup (map f_identifier fs);
  wf_names : Forall (λ f, f_name f = f_identifier f) fs;
  wf_bounds : Forall (λ f, 0 ≤ f_offset f ∧ 0 < f_width f
                           ∧ f_offset f + f_width f ≤ W) fs;
  wf_apart : pairwise_apart fs }.

(** A well-formed complex register on a bus of [W] bits: its bit space
    covers its width, every field sits in the slot of its offset and
    width, the identifiers of its fields are distinct, and it is not
    wider than the bus. *)
Record wf_register (W : Z) (node : Register) : Prop := {
  wr_cover : covers (r_space node) 0 (r_width node);
  wr_place : ∀ s f, s ∈ r_space node → obj s = Some f →
                    pos s = f_offset f ∧ size s = f_width f
                    ∧ f_size f = f_width f;
  wr_nodup : NoDup (map f_identifier (fields node));
  wr_bus : r_width node ≤ W }.

(** The low [k] bits of [dat] under the other bits of [r]. *)
Definition merged (r dat k : Z) : Z :=
  Z.lor (Z.land dat (Z.ones k)) (Z.ldiff r (Z.ones k)).

(** The value of a field once the bits of the register below [B] are
    those of the word [dat], the other bits being those of [v]. *)
Definition upto (dat B : Z) (f : Field) (v : value) : value :=
  match v with
  | VBit b => VBit (if f_offset f <? B then Z.testbit dat (f_offset f) else b)
  | VVec w bits =>
      VVec w (merged bits
                (bits_of dat (f_offset f + f_width f - 1) (f_offset f))
                (Z.max 0 (Z.min (B - f_offset f) (f_width f))))
  end.

(** The bus word after the value of a field is written to it. *)
Definition write_field (ret : Z) (f : Field) (v : value) : Z :=
  match v with
  | VBit b => set_bit ret (f_offset f) b
  | VVec _ bits =>
      set_bits ret (f_offset f + f_width f - 1) (f_offset f) bits
  end.

(** The record holds a value of its type for every field. *)
Definition typed_fields (m : gmap string value) (fs : list Field) : Prop :=
  ∀ f, f ∈ fs →
       ∃ v, m !! f_identifier f = Some v ∧ value_ok (f_width f) v = true.

(** What holds of a field in its slot. *)
Definition placed (W : Z) (s : slot Field) (f : Field) : Prop :=
  pos s = f_offset f ∧ size s = f_width f ∧ f_size f = f_width f
  ∧ 0 ≤ f_offset f ∧ 0 < f_width f ∧ f_offset f + f_width f ≤ W.

(** The fields of the space hold, in [m], their value in [m0] with the
    bits below the boundary [B] taken from the word. *)
Definition updated_upto (dat B : Z) (m0 m : gmap string value)
    (fs : list Field) : Prop :=
  ∀ f, f ∈ fs →
       ∃ v, m0 !! f_identifier f = Some v
            ∧ value_ok (f_width f) v = true
            ∧ m !! f_identifier f = Some (upto dat B f v).

(** The lane of the bit [i] of the bus word is enabled by the mask. *)
Definition lane_enabled (byteen : list bool) (i : Z) : bool :=
  match byteen !! Z.to_nat (i `div` 8) with
  | Some b => b
  | None => false
  end.

(** *** The claims' vocabulary for a dispatch *)

(** A slot the read dispatch leaves out: a gap or a write-only child. *)
Definition read_excluded (s : slot entity) : bool :=
  match obj s with None => true | Some e => e_writeOnly e end.

(** A slot the update dispatch should leave out: a gap or a read-only
    child. *)
Definition update_excluded (s : slot entity) : bool :=
  match obj s with None => true | Some e => e_readOnly e end.

Definition is_others (w : whenline) : bool :=
  match w with
  | (OnOthers, ClearSuccess) => true
  | _ => false
  end.

(** The dispatch has a default branch that clears [success]. *)
Definition has_others (lines : list whenline) : bool :=
  existsb is_others lines.

(** The choice the dispatch writes for a child. *)
Definition choice_of (e : entity) : choice :=
  match e with
  | EArr _ _ _ _ _ _ _ _ _ =>
      OnRange (e_name e +:+ "_BASEADDR") (e_name e +:+ "_LASTADDR")
  | _ => OnConst (e_name e +:+ "_ADDR")
  end.

(** The address [v] lies in a gap of the space. *)
Definition in_gap (sp : space entity) (v : Z) : Prop :=
  ∃ s, s ∈ sp ∧ obj s = None ∧ pos s ≤ v < pos s + size s.

(** The address [v] is outside the choice written for the child (a
    child of another class gets no alternative). *)
Definition missed (cs : list (string * Z)) (v : Z) (e : entity) : Prop :=
  match e with
  | EOther _ _ _ _ _ => True
  | _ => matches cs v (choice_of e) = false
  end.

(** The constants have the values the placement of the children gives
    them: the address of a register is its position, the base and last
    address of an array are the ends of its slot. *)
Definition consts_agree (cs : list (string * Z)) (sp : space entity) : Prop :=
  ∀ s e, s ∈ sp → obj s = Some e →
    match e with
    | EReg r => const_value cs (r_name r +:+ "_ADDR") = Some (pos s)
    | EArr n _ _ _ _ _ _ _ _ =>
        const_value cs (n +:+ "_BASEADDR") = Some (pos s)
        ∧ const_value cs (n +:+ "_LASTADDR") = Some (pos s + size s - 1)
    | EOther _ _ _ _ _ => True
    end.

(** The state in which an array procedure ends at the address
    [offset], for a frame size [fs] and a dispatch [lines]. *)
Definition dispatched (cs : list (string * Z)) (fs offset : Z)
    (lines : list whenline) : pstate :=
  let a := select cs (offset `mod` fs) lines in
  {| st_ints := <["offs" := offset `mod` fs]>
                  (<["idx" := offset `div` fs]> {[ "offset" := offset ]});
     st_success := match a with
                   | Some ClearSuccess => Some false
                   | Some (UpdateArr _ _ _ _ _) | Some (ReadArr _ _ _ _) =>
                       None
                   | _ => Some true
                   end;
     st_selected := a |}.

Definition excluded_for_read (x : option entity * Z * Z) : bool :=
  match x.1.1 with None => true | Some e => e_writeOnly e end.

Definition excluded_for_update (x : option entity * Z * Z) : bool :=
  match x.1.1 with None => true | Some e => e_readOnly e end.

(** The alternative the read dispatch writes for a child, and the one
    the update dispatch writes; a child of another class has none. *)
Definition read_line (base offset : string) (e : entity) : option whenline :=
  match e with
  | EReg _ =>
      Some (choice_of e, ReadReg (e_name e) base (e_identifier e))
  | EArr _ _ _ _ _ _ _ _ _ =>
      Some (choice_of e, ReadArr (e_name e) offset base (e_identifier e))
  | EOther _ _ _ _ _ => None
  end.

Definition update_line (fn base offset : string) (e : entity)
  : option whenline :=
  match e with
  | EReg _ =>
      Some (choice_of e, UpdateReg fn (e_name e) base (e_identifier e))
  | EArr _ _ _ _ _ _ _ _ _ =>
      Some (choice_of e, UpdateArr fn (e_name e) offset base (e_identifier e))
  | EOther _ _ _ _ _ => None
  end.

(** The alternative of a slot: that of its child, if the dispatch keeps
    the child. *)
Definition slot_line (keep : entity → bool) (line : entity → option whenline)
    (s : slot entity) : option whenline :=
  match obj s with
  | Some e => if keep e then line e else None
  | None => None
  end.

Definition readable_child (e : entity) : bool := negb (e_writeOnly e).
Definition writable_child (e : entity) : bool := negb (e_readOnly e).

Definition is_other (e : entity) : bool :=
  match e with EOther _ _ _ _ _ => true | _ => false end.

(** No child that the dispatch keeps is of another class than register
    and register array. *)
Definition dispatchable (keep : entity → bool) (sp : space entity) : bool :=
  forallb (λ s, match obj s with
                | Some e => negb (keep e && is_other e)
                | None => true
                end) sp.

(** What a dispatch does at an address it has no alternative for: the
    default branch if it has one. *)
Definition fallback (lines : list whenline) : option action :=
  if has_others lines then Some ClearSuccess else None.

(** *** Sample entities *)

(** A register array of four frames of eight words at offset 16. *)
Definition sample_array : entity :=
  EArr "RA" "RA" 16 32 8 4 false false [].

Definition plain_register (name : string) (offset : Z) : Register :=
  {| r_name := name; r_identifier := name; r_offset := offset;
     r_width := 32; r_format := Unsigned;
     r_readOnly := false; r_writeOnly := false; r_space := [] |}.

(** The array of the specification's scenario: four frames of eight
    words, each with register [A] at offset 0 and register [B] at offset
    4. *)
Definition ab_array : entity :=
  EArr "RA" "RA" 0 32 8 4 false false
    [ Slot (Some (EReg (plain_register "A" 0))) 0 1;
      Slot None 1 3;
      Slot (Some (EReg (plain_register "B" 4))) 4 1;
      Slot None 5 3 ].

(** An array of four frames of two words, with register [A] at offset 0
    and register [B] at offset 1. *)
Definition narrow_array : entity :=
  EArr "NA" "NA" 0 8 2 4 false false
    [ Slot (Some (EReg (plain_register "A" 0))) 0 1;
      Slot (Some (EReg (plain_register "B" 1))) 1 1 ].

(** A simple register of the given width. *)
Definition simple_register (name : string) (width : Z) : Register :=
  {| r_name := name; r_identifier := name; r_offset := 0;
     r_width := width; r_format := Unsigned;
     r_readOnly := false; r_writeOnly := false; r_space := [] |}.

Definition mk_field (name : string) (offset width : Z) : Field :=
  {| f_name := name; f_identifier := name; f_offset := offset;
     f_width := width; f_size := width; f_format := Unsigned |}.

(** The register of the specification's scenario: 32 bits, a 4-bit
    field [MODE] at bit 0 and a 1-bit field [ENABLE] at bit 8. *)
Definition CTRL : Register :=
  {| r_name := "CTRL"; r_identifier := "CTRL"; r_offset := 0;
     r_width := 32; r_format := Bits;
     r_readOnly := false; r_writeOnly := false;
     r_space := [ Slot (Some (mk_field "MODE" 0 4)) 0 4;
                  Slot None 4 4;
                  Slot (Some (mk_field "ENABLE" 8 1)) 8 1;
                  Slot None 9 23 ] |}.

(** A register with a 12-bit field that straddles two lanes. *)
Definition STRADDLE : Register :=
  {| r_name := "STRADDLE"; r_identifier := "STRADDLE"; r_offset := 0;
     r_width := 16; r_format := Bits;
     r_readOnly := false; r_writeOnly := false;
     r_space := [ Slot None 0 2;
                  Slot (Some (mk_field "WIDE" 2 12)) 2 12;
                  Slot None 14 2 ] |}.

(** A register with a field whose name is a reserved word, as the
    legalization pass leaves it: the name kept, the identifier
    suffixed. *)
Definition PORTS : Register :=
  {| r_name := "PORTS"; r_identifier := "PORTS"; r_offset := 0;
     r_width := 8; r_format := Bits;
     r_readOnly := false; r_writeOnly := false;
     r_space := [ Slot (Some {| f_name := "out"; f_identifier := "out_0";
                                f_offset := 0; f_width := 8; f_size := 8;
                                f_format := Unsigned |}) 0 8 ] |}.

(** A component with a read-only register, a write-only register, a
    gap and a register array of two frames of two words. *)
Definition mixed_component : Component :=
  {| c_name := "MIX"; c_width := 32; c_size := 8;
     c_space :=
       [ Slot (Some (EReg {| r_name := "STATUS"; r_identifier := "STATUS";
                             r_offset := 0; r_width := 32;
                             r_format := Unsigned; r_readOnly := true;
                             r_writeOnly := false; r_space := [] |})) 0 1;
         Slot (Some (EReg {| r_name := "CMD"; r_identifier := "CMD";
                             r_offset := 1; r_width := 32;
                             r_format := Unsigned; r_readOnly := false;
                             r_writeOnly := true; r_space := [] |})) 1 1;
         Slot None 2 2;
         Slot (Some (EArr "CH" "CH" 4 4 2 2 false false
                       [ Slot (Some (EReg (plain_register "A" 0))) 0 1;
                         Slot (Some (EReg (plain_register "B" 1))) 1 1 ]))
              4 4 ] |}.

(** A component with a child of a class the dispatch has no rule
    for. *)
Definition odd_component : Component :=
  {| c_name := "ODD"; c_width := 32; c_size := 2;
     c_space := [ Slot (Some (EReg (plain_register "A" 0))) 0 1;
                  Slot (Some (EOther "Field" "F" "F" false false)) 1 1 ] |}.

(** A component with a two-word gap between two read-write registers. *)
Definition gap_component : Component :=
  {| c_name := "GAPPY"; c_width := 32; c_size := 4;
     c_space := [ Slot (Some (EReg (plain_register "A" 0))) 0 1;
                  Slot None 1 2;
                  Slot (Some (EReg (plain_register "B" 3))) 3 1 ] |}.

End Vhdl.

(** ** The C generator: [component_to_c.py] *)

Module CHeader.
Import Space.

(** *** Data *)

(** Where an element comes from: what an error report names. *)
Record origin := {
  o_class : string; o_name : string;
  o_sourcefile : string; o_sourceline : Z }.

Record Enum := { en_name : string; en_value : Z; en_desc : string }.

Record Field := {
  fd_name : string; fd_offset : Z; fd_size : Z; fd_desc : string;
  fd_enums : list Enum }.

(** What the bit space of a register holds: fields, and, where the tree
    is malformed, something else. *)
Inductive bitnode :=
  | BField (f : Field)
  | BOther (o : origin).

Record Register := {
  rg_origin : origin; rg_name : string; rg_size : Z;
  rg_readOnly : bool; rg_writeOnly : bool; rg_format : string;
  rg_desc : string; rg_space : space bitnode }.

(** What a word space holds: registers and arrays of registers. *)
Inductive wordnode :=
  | WReg (r : Register)
  | WArr (name : string) (count : Z) (sp : list (slot wordnode)).

Record Component := {
  cp_name : string; cp_desc : string; cp_sourcefile : string;
  cp_space : space wordnode }.

Record Instance := {
  in_name : string; in_desc : string; in_binding : Component }.

(** The children of an instance array: instances, or something else. *)
Inductive mapchild :=
  | MInstance (i : Instance)
  | MOther (o : origin).

Inductive mapnode :=
  | PInstance (i : Instance)
  | PArray (o : origin) (name : string) (desc : string) (count : Z)
           (children : list mapchild).

Record MemoryMap := {
  mm_name : string; mm_desc : string; mm_sourcefile : string; mm_base : Z;
  mm_space : space mapnode }.

(** *** Output *)

(** The value of a [#define]: an integer, a hexadecimal word
    (['0x{0:08X}u']), the shift macro (['(x) << {0}_LSB']), the use of a
    macro on a value (['{0}({1})']), or a base plus an offset
    (['{0}_BASE + 0x{1:08X}u']). *)
Inductive cvalue :=
  | VInt (n : Z)
  | VHex (n : Z)
  | VShift (fieldname : string)
  | VApply (macro : string) (arg : Z)
  | VBasePlus (basename : string) (offset : Z).

(** What one [print >>output] writes.  [CComment bars indent text] is
    the result of a [CommentFormatter]; [CSuffixed buffer suffix] is the
    text of a string buffer, stripped of its trailing [;] and newlines
    and followed by [suffix]. *)
Inductive cline :=
  | CText (s : string)
  | CComment (bars : bool) (indent : nat) (text : string)
  | CDefine (name : string) (val : cvalue)
  | CSuffixed (buffer : list cline) (suffix : string).

Definition maincomment (text : string) : cline := CComment true 0 text.
Definition subcomment (text : string) : cline := CComment false 4 text.

(** [define(name, val)] *)
Definition define (name : string) (val : cvalue) : cline := CDefine name val.

(** The generator's errors: [OutputterError(message, element)], and
    any other exception. *)
Inductive error :=
  | OutputterError (message : string) (element : origin)
  | OtherError (what : string).

(** A generator writes to [output] as it goes and may raise: it is the
    lines it has written, with its result.  The output is append-only
    and is never read back, so the lines written are all there is to
    know; they are written whether the generator ends or raises. *)
Definition gen (A : Type) : Type := list cline * result error A.

Definition gret {A} (a : A) : gen A := ([], ok a).
Definition gbind {A B} (m : gen A) (k : A → gen B) : gen B :=
  match m with
  | (written, inr a) => let '(more, r) := k a in (written ++ more, r)
  | (written, inl e) => (written, inl e)
  end.
Definition graise {A} (e : error) : gen A := ([], raise e).

(** [print >>output, line] *)
Definition print (l : cline) : gen unit := ([l], ok tt).

Declare Scope gen_scope.
Notation "'let!' x ':=' m 'in' k" := (gbind m (fun x => k))
  (at level 10, x binder, m at level 100, k at level 200) : gen_scope.
Notation "m ';;;' k" := (gbind m (fun _ => k))
  (at level 100, k at level 200, right associativity) : gen_scope.
Local Open Scope gen_scope.

(** [for x in xs: body(x)] *)
Fixpoint foreach {A} (xs : list A) (body : A → gen unit) : gen unit :=
  match xs with
  | [] => gret tt
  | x :: xs' => body x ;;; foreach xs' body
  end.

(** *** Structs from registers *)

(** [register_format(reg)]: the storage specification. *)
Definition register_format (reg : Register) : string :=
  let storage :=
    if rg_readOnly reg then "__I "
    else if rg_writeOnly reg then "__O "
    else "__IO" in
  if String.eqb (Legalize.lower (rg_format reg)) "signed"
  then storage +:+ " int32_t" else storage +:+ " uint32_t".

(** ['{0:Ns}'.format(s)]: [s] padded with spaces to [n] characters. *)
Definition ljust (n : nat) (s : string) : string :=
  s +:+ string_of_list_ascii (repeat " "%char (n - String.length s)).

(** [range(pos, pos + size)] *)
Definition zrange (pos size : Z) : list Z :=
  map (λ k : nat, pos + Z.of_nat k) (seq 0 (Z.to_nat size)).

(** [generate_register_struct(self, indent, output)] *)
Definition generate_register_struct (self : Register) (indent : string)
  : gen unit :=
  if negb (rg_size self =? 1) then
    graise (OutputterError
              "Don't know how to deal with register sizes other than 1."
              (rg_origin self))
  else
    let desc := rg_desc self in
    (if negb (String.eqb desc "") then print (subcomment desc) else gret tt) ;;;
    print (CText (indent +:+ ljust 15 (register_format self) +:+ " "
                  +:+ rg_name self +:+ ";")).

(** [len(space)]: the number of children in the space. *)
Definition len {A} (sp : space A) : nat := length (items sp).

(** [generate_struct_innards(space, indent, output)], over the method
    [generate_struct] of the elements. *)
Definition struct_innards_with
    (generate_struct : wordnode → string → gen unit) (indent : string)
  : space wordnode → gen unit :=
  fix innards (sp : space wordnode) : gen unit :=
    match sp with
    | [] => gret tt
    | ptr :: sp' =>
        match obj ptr with
        | Some o =>
            (* Real element *)
            generate_struct o indent
        | None =>
            (* Gap *)
            foreach (zrange (pos ptr) (size ptr))
              (λ i, print (CText (indent +:+ "__I  uint32_t rsvd"
                                  +:+ str_of_Z i +:+ ";")))
        end ;;;
        innards sp'
    end.

(** [for ptr in itertools.ifilter(bool, self.space):
       ptr.obj.generate_struct(indent, s)] *)
Definition struct_elements_with
    (generate_struct : wordnode → string → gen unit) (indent : string)
  : space wordnode → gen unit :=
  fix elements (sp : space wordnode) : gen unit :=
    match sp with
    | [] => gret tt
    | ptr :: sp' =>
        match obj ptr with
        | Some o => generate_struct o indent
        | None => gret tt
        end ;;;
        elements sp'
    end.

(** [generate_struct], the method bound to [Register]
    ([generate_register_struct]) and to [RegisterArray]
    ([generate_array_struct]). *)
Fixpoint generate_struct (n : wordnode) (indent : string) : gen unit :=
  match n with
  | WReg r => generate_register_struct r indent
  | WArr name count sp =>
      if (1 <? len sp)%nat then
        print (CText (indent +:+ "struct {")) ;;;
        struct_innards_with generate_struct (indent +:+ "    ") sp ;;;
        print (CText (indent +:+ "} " +:+ name +:+ "["
                      +:+ str_of_Z count +:+ "];"))
      else
        (* the elements are written to a string buffer [s] *)
        match struct_elements_with generate_struct indent sp with
        | (s, inr _) => print (CSuffixed s ("[" +:+ str_of_Z count +:+ "]"))
        | (_, inl e) => graise e
        end
  end.

Definition generate_struct_innards (sp : space wordnode) (indent : string)
  : gen unit :=
  struct_innards_with generate_struct indent sp.

(** *** Bitfields from fields *)

(** [a << n]; a negative shift count raises [ValueError]. *)
Definition shl (a n : Z) : gen Z :=
  if n <? 0 then graise (OtherError "ValueError: negative shift count")
  else gret (Z.shiftl a n).

(** The lines [generate_register_bitfields] writes for one field. *)
Definition generate_field_bitfields (regname : string) (f : Field)
  : gen unit :=
  let fieldname := regname +:+ "_" +:+ fd_name f in
  let enums := fd_enums f in
  let comment :=
    [fieldname +:+ " - " +:+ fd_desc f]
    ++ (if negb (bool_decide (enums = []))
        then "Values:" :: map (λ e, en_name e +:+ " - " +:+ en_desc e) enums
        else []) in
  print (subcomment (join Vhdl.nl comment)) ;;;
  print (CText "") ;;;
  print (define (fieldname +:+ "_LSB") (VInt (fd_offset f))) ;;;
  if (fd_size f =? 1) && bool_decide (enums = []) then
    let! bit := shl 1 (fd_offset f) in
    print (define fieldname (VHex bit))
  else
    let! top := shl 1 (fd_size f) in
    let! mask := shl (top - 1) (fd_offset f) in
    print (define (fieldname +:+ "_MASK") (VHex mask)) ;;;
    print (define (fieldname +:+ "(x)") (VShift fieldname)) ;;;
    foreach enums
      (λ e, print (define (fieldname +:+ "_" +:+ en_name e)
                          (VApply fieldname (en_value e)))).

(** [generate_register_bitfields(self, compname, output)] *)
Definition generate_register_bitfields (self : Register) (compname : string)
  : gen unit :=
  let fields := objects (rg_space self) in
  let regname := compname +:+ "_" +:+ rg_name self in
  (if negb (bool_decide (fields = [])) then
     print (CText "") ;;;
     print (maincomment (rg_name self +:+ " Field Descriptions"))
   else gret tt) ;;;
  foreach (rev fields)
    (λ f, match f with
          | BOther _ =>
              graise (OutputterError
                        "Hit non-Field term inside of Register, can't deal with this."
                        (rg_origin self))
          | BField f => generate_field_bitfields regname f
          end).

(** [generate_bitfields(space, compname, output)], over the method
    [generate_bitfields] of the elements; an element with an empty
    space is passed over. *)
Definition bitfields_with (generate_bitfields : wordnode → string → gen unit)
    (has_space : wordnode → bool) (compname : string)
  : space wordnode → gen unit :=
  fix over (sp : space wordnode) : gen unit :=
    match sp with
    | [] => gret tt
    | ptr :: sp' =>
        match obj ptr with
        | Some o =>
            if has_space o then generate_bitfields o compname else gret tt
        | None => gret tt
        end ;;;
        over sp'
    end.

(** [ptr.obj.space], as a condition. *)
Definition has_space (n : wordnode) : bool :=
  match n with
  | WReg r => nonempty (rg_space r)
  | WArr _ _ sp => nonempty sp
  end.

(** [generate_bitfields], the method bound to [Register]
    ([generate_register_bitfields]) and to [RegisterArray]
    ([generate_array_bitfields]). *)
Fixpoint generate_bitfields_of (n : wordnode) (compname : string) : gen unit :=
  match n with
  | WReg r => generate_register_bitfields r compname
  | WArr _ _ sp => bitfields_with generate_bitfields_of has_space compname sp
  end.

Definition generate_bitfields (sp : space wordnode) (compname : string)
  : gen unit :=
  bitfields_with generate_bitfields_of has_space compname sp.

(** *** What makes the generation of a struct fail *)

(** Every register of the element has size 1. *)
Fixpoint struct_ok (n : wordnode) : bool :=
  match n with
  | WReg r => rg_size r =? 1
  | WArr _ _ sp =>
      forallb (λ s, match obj s with
                    | Some o => struct_ok o
                    | None => true
                    end) sp
  end.

Definition space_ok (sp : space wordnode) : bool :=
  forallb (λ s, match obj s with Some o => struct_ok o | None => true end) sp.

(** The registers of an element, nested ones included. *)
Fixpoint registers_of (n : wordnode) : list Register :=
  match n with
  | WReg r => [r]
  | WArr _ _ sp =>
      flat_map (λ s, match obj s with
                     | Some o => registers_of o
                     | None => []
                     end) sp
  end.

Definition registers_in (sp : space wordnode) : list Register :=
  flat_map (λ s, match obj s with Some o => registers_of o | None => [] end) sp.

Definition size_error (r : Register) : error :=
  OutputterError "Don't know how to deal with register sizes other than 1."
                 (rg_origin r).

Definition group_error (self : origin) : error :=
  OutputterError
    "Instance Arrays allowed only for single Instances, not groups." self.

(** What the loop of [main] reports for a component that failed. *)
Definition component_report (comp : Component) (e : error) : list string :=
  match e with
  | OutputterError message element =>
      [ message;
        "    Sourced from " +:+ o_sourcefile element +:+ ", line "
        +:+ str_of_Z (o_sourceline element) ]
  | OtherError _ =>
      [ "Unknown error parsing " +:+ cp_name comp +:+ ", sourced from "
        +:+ cp_sourcefile comp;
        "<traceback>" ]
  end.

(** What the loop of [main] reports for a memory map that failed. *)
Definition map_report (mmap : MemoryMap) : list string :=
  [ "Error parsing " +:+ mm_name mmap +:+ ", sourced from "
    +:+ mm_sourcefile mmap;
    "<traceback>" ].

(** *** Components *)

(** The lines of the boilerplate whose text comes from code that is not
    modelled: the include guard named after the source file, and the
    storage class definitions. *)
Definition guard_open (sourcefile : string) : cline :=
  CText ("#ifndef <" +:+ sourcefile +:+ ">").
Definition guard_close : cline := CText "#endif".

(** The text of the header comment; [now] is the time of the run. *)
Definition component_header (name desc source now : string) : string :=
  join Vhdl.nl
    [ name +:+ " Register Map";
      "Defines the registers in the " +:+ name +:+ " component.";
      desc;
      "Generated automatically from " +:+ source +:+ " on " +:+ now;
      "Do not modify this file directly." ].

(** [generate_single_component(comp, output, standalone)] *)
Definition generate_single_component (now : string) (comp : Component)
    (standalone : bool) : gen unit :=
  print (maincomment (component_header (cp_name comp) (cp_desc comp)
                        (cp_sourcefile comp) now)) ;;;
  (if standalone then print (guard_open (cp_sourcefile comp)) else gret tt) ;;;
  (* Generate our typedef from the space *)
  print (CText "typedef struct {") ;;;
  generate_struct_innards (cp_space comp) "    " ;;;
  print (CText ("} t_" +:+ cp_name comp +:+ ";")) ;;;
  (* Generate the bitfield definitions *)
  generate_bitfields (cp_space comp) (cp_name comp) ;;;
  (if standalone then print guard_close else gret tt).

(** *** Memory maps *)

Definition mapnode_name (n : mapnode) : string :=
  match n with PInstance i => in_name i | PArray _ name _ _ _ => name end.

Definition mapnode_desc (n : mapnode) : string :=
  match n with PInstance i => in_desc i | PArray _ _ desc _ _ => desc end.

(** [generate_baseaddrs(space, basename, output)] *)
Definition generate_baseaddrs (sp : space mapnode) (basename : string)
  : gen unit :=
  foreach (items sp)
    (λ '(o, p, _),
       (if negb (String.eqb (mapnode_desc o) "")
        then print (subcomment (mapnode_desc o)) else gret tt) ;;;
       print (define (basename +:+ "_" +:+ mapnode_name o +:+ "_BASE")
                     (VBasePlus basename p))).

Definition peripheral_line (comp pername perarray : string) : cline :=
  CText ("__attribute__((unused)) static t_" +:+ comp +:+ " * const "
         +:+ perarray +:+ "= (t_" +:+ comp +:+ " *)" +:+ pername +:+ "_BASE;").

(** [generate_instance_peripherals(self, basename, output)] *)
Definition generate_instance_peripherals (self : Instance) (basename : string)
  : gen unit :=
  let pername := basename +:+ "_" +:+ in_name self in
  print (peripheral_line (ljust 12 (cp_name (in_binding self))) pername
           (ljust 20 pername)).

(** [generate_array_peripherals(self, basename, output)] *)
Definition generate_array_peripherals (self : origin) (count : Z)
    (children : list mapchild) (basename : string) : gen unit :=
  match children with
  | [] => graise (OtherError "IndexError: list index out of range")
  | first :: rest =>
      match first with
      | MInstance inst =>
          if (1 <? length children)%nat then
            graise (OutputterError
                      "Instance Arrays allowed only for single Instances, not groups."
                      self)
          else
            let pername := basename +:+ "_" +:+ in_name inst in
            print (peripheral_line (cp_name (in_binding inst)) pername
                     (ljust 25 (pername +:+ "[" +:+ str_of_Z count +:+ "]")))
      | MOther _ =>
          graise (OutputterError
                    "Instance Arrays allowed only for single Instances, not groups."
                    self)
      end
  end.

(** [generate_peripherals(space, basename, output)] *)
Definition generate_peripherals (sp : space mapnode) (basename : string)
  : gen unit :=
  foreach (objects sp)
    (λ o, match o with
          | PInstance i => generate_instance_peripherals i basename
          | PArray self _ _ count children =>
              generate_array_peripherals self count children basename
          end).

(** The components the instances of a map are bound to. *)
Definition bindings (sp : space mapnode) : list Component :=
  flat_map (λ o, match o with
                 | PInstance i => [in_binding i]
                 | PArray _ _ _ _ children =>
                     flat_map (λ c, match c with
                                    | MInstance i => [in_binding i]
                                    | MOther _ => []
                                    end) children
                 end) (objects sp).

(** [set(inst.binding for inst in mmap.getChildren())], in the order of
    first occurrence; a component is identified by its source file.  The
    order in which Python walks the set is not specified. *)
Fixpoint unique (seen : list string) (cs : list Component) : list Component :=
  match cs with
  | [] => []
  | c :: cs' =>
      if existsb (String.eqb (cp_sourcefile c)) seen then unique seen cs'
      else c :: unique (cp_sourcefile c :: seen) cs'
  end.

(** [generate_memory_map(mmap, output, external_reference)] *)
Definition generate_memory_map (now : string) (mmap : MemoryMap)
    (external_reference : bool) : gen unit :=
  print (maincomment
           (join Vhdl.nl
              [ mm_name mmap +:+ " Memory Map";
                "Defines all of the " +:+ mm_name mmap +:+ " components.";
                mm_desc mmap;
                "Generated automatically from " +:+ mm_sourcefile mmap
                +:+ " on " +:+ now;
                "Do not modify this file directly." ])) ;;;
  print (guard_open (mm_sourcefile mmap)) ;;;
  (* Find all of the components referenced, uniquely *)
  let references := unique [] (bindings (mm_space mmap)) in
  (if external_reference then
     print (CText "") ;;;
     foreach references
       (λ inst, print (CText ("#include <" +:+ cp_sourcefile inst +:+ ">"))) ;;;
     print (CText "")
   else
     foreach references
       (λ comp, generate_single_component now comp false ;;;
                print (CText ""))) ;;;
  (* Wire up the instances to their locations in memory *)
  print (maincomment "Peripheral memory map") ;;;
  print (CText "") ;;;
  let basename := mm_name mmap in
  print (define (basename +:+ "_BASE") (VHex (mm_base mmap))) ;;;
  generate_baseaddrs (mm_space mmap) basename ;;;
  print (CText "") ;;;
  print (maincomment "Peripheral declaration") ;;;
  print (CText "") ;;;
  generate_peripherals (mm_space mmap) basename ;;;
  print guard_close.

(** *** The driving loop of [main] *)

(** What the run writes to: the standard output, the header files, keyed
    by the output directory and the source file they are named after,
    and the standard error. *)
Record world := {
  w_stdout : list cline;
  w_files : gmap (string * string) (list cline);
  w_stderr : list string }.

(** [with output_select(output_dir, sourcefile) as target: body(target)]:
    a file opened for writing starts empty; the standard output is
    appended to.  What the body wrote is in the target, also when the
    body raised. *)
Definition with_output {A} (output_dir : option string) (sourcefile : string)
    (body : gen A) (w : world) : world * result error A :=
  let '(text, r) := body in
  match output_dir with
  | Some dir =>
      ({| w_stdout := w_stdout w;
          w_files := <[(dir, sourcefile) := text]> (w_files w);
          w_stderr := w_stderr w |}, r)
  | None =>
      ({| w_stdout := w_stdout w ++ text;
          w_files := w_files w;
          w_stderr := w_stderr w |}, r)
  end.

(** [print >>sys.stderr, line] *)
Definition log (lines : list string) (w : world) : world :=
  {| w_stdout := w_stdout w; w_files := w_files w;
     w_stderr := w_stderr w ++ lines |}.

(** The body of the loop over the memory maps: the bare [except]
    reports every failure the same way. *)
Definition main_map (now : string) (output_dir : option string)
    (xrefs : bool) (w : world) (mmap : MemoryMap) : world :=
  match with_output output_dir (mm_sourcefile mmap)
          (generate_memory_map now mmap xrefs) w with
  | (w', inr _) => w'
  | (w', inl _) => log (map_report mmap) w'
  end.

(** The body of the loop over the components: [except OutputterError]
    reports the message and the source of the element, the bare
    [except] the component. *)
Definition main_component (now : string) (output_dir : option string)
    (w : world) (comp : Component) : world :=
  match with_output output_dir (cp_sourcefile comp)
          (generate_single_component now comp true) w with
  | (w', inr _) => w'
  | (w', inl e) => log (component_report comp e) w'
  end.

(** The generation part of [main], after the sources are parsed:
    [mmap] is [args.mmap], [xrefs] is [args.xrefs]. *)
Definition main (now : string) (output_dir : option string)
    (mmap xrefs : bool) (components : list Component)
    (maps : list MemoryMap) (w : world) : world :=
  let components_as_files :=
    bool_decide (maps = []) || negb mmap || xrefs in
  let w1 :=
    if negb (bool_decide (maps = [])) && mmap
    then fold_left (main_map now output_dir xrefs) maps w
    else w in
  if components_as_files
  then fold_left (main_component now output_dir) components w1
  else w1.

(** *** The claims' vocabulary for failures *)

(** What [generate_struct] does: it ends when every register has size
    1, and otherwise raises the error of a register whose size is not
    1. *)
Definition struct_result (g : gen unit) (ok_ : bool) (rs : list Register)
  : Prop :=
  (ok_ = true → ∃ lines, g = (lines, ok tt))
  ∧ (ok_ = false →
     ∃ lines r, g = (lines, raise (size_error r))
                ∧ r ∈ rs ∧ rg_size r ≠ 1).

(** The lines a component writes before its struct. *)
Definition component_opening (now : string) (comp : Component)
    (standalone : bool) : list cline :=
  maincomment (component_header (cp_name comp) (cp_desc comp)
                 (cp_sourcefile comp) now)
  :: (if standalone then [guard_open (cp_sourcefile comp)] else [])
  ++ [CText "typedef struct {"].

(** What one artifact leaves in its file, and on the standard error. *)
Definition component_text (now : string) (c : Component) : list cline :=
  (generate_single_component now c true).1.

Definition component_log (now : string) (c : Component) : list string :=
  match (generate_single_component now c true).2 with
  | inl e => component_report c e
  | inr _ => []
  end.

Definition map_text (now : string) (xrefs : bool) (m : MemoryMap)
  : list cline :=
  (generate_memory_map now m xrefs).1.

Definition map_log (now : string) (xrefs : bool) (m : MemoryMap)
  : list string :=
  match (generate_memory_map now m xrefs).2 with
  | inl _ => map_report m
  | inr _ => []
  end.

(** *** Induction on the elements of a word space *)

Section wordnode_induction.
Variable P : wordnode → Prop.
Hypothesis on_reg : ∀ r, P (WReg r).
Hypothesis on_arr :
  ∀ name count sp,
    Forall (λ s, match obj s with Some o => P o | None => True end) sp →
    P (WArr name count sp).

Fixpoint wordnode_ind' (n : wordnode) : P n :=
  match n with
  | WReg r => on_reg r
  | WArr name count sp =>
      on_arr name count sp
        ((fix go (l : list (slot wordnode))
            : Forall (λ s, match obj s with
                           | Some o => P o
                           | None => True
                           end) l :=
            match l with
            | [] => List.Forall_nil _
            | s :: l' =>
                List.Forall_cons _ s l'
                  (match obj s as x
                         return match x with Some o => P o | None => True end
                   with
                   | Some o => wordnode_ind' o
                   | None => I
                   end)
                  (go l')
            end) sp)
  end.
End wordnode_induction.

(** *** The text of a [#define] *)

Definition hex_digit (d : Z) : ascii :=
  match String.get (Z.to_nat d) "0123456789ABCDEF" with
  | Some c => c
  | None => "?"%char
  end.

Fixpoint hex_go (fuel : nat) (n : Z) (acc : string) : string :=
  match fuel with
  | O => acc
  | S fuel' =>
      if n =? 0 then acc
      else hex_go fuel' (n `div` 16) (String (hex_digit (n `mod` 16)) acc)
  end.

(** ['{0:X}'.format(n)], for [n] not negative. *)
Definition hex (n : Z) : string :=
  if n =? 0 then "0" else hex_go (S (Z.to_nat (Z.log2 n))) n "".

(** ['{0:08X}'.format(n)], for [n] not negative. *)
Definition hex08 (n : Z) : string :=
  string_of_list_ascii (repeat "0"%char (8 - String.length (hex n)))
  +:+ hex n.

Definition render_cvalue (v : cvalue) : string :=
  match v with
  | VInt n => str_of_Z n
  | VHex n => "0x" +:+ hex08 n +:+ "u"
  | VShift fieldname => "(x) << " +:+ fieldname +:+ "_LSB"
  | VApply macro arg => macro +:+ "(" +:+ str_of_Z arg +:+ ")"
  | VBasePlus basename offset =>
      basename +:+ "_BASE + 0x" +:+ hex08 offset +:+ "u"
  end.

(** ['#define {0:39s} ({1})'.format(name, val)] *)
Definition render_define (name : string) (val : cvalue) : string :=
  "#define " +:+ ljust 39 name +:+ " (" +:+ render_cvalue val +:+ ")".

(** *** The specification's wording of the constants of a field *)

(** "a constant [_LSB] equal to the field's bit offset; if the field has
    size 1 and no enum children, a direct bit constant equal to
    [2^offset]; otherwise a [_MASK] constant equal to
    [(2^size - 1) * 2^offset] and a value-setting macro, plus one enum
    constant per Enum child applying that macro to the enum's value" *)
Definition spec_field_constants (fieldname : string) (f : Field)
  : list cline :=
  define (fieldname +:+ "_LSB") (VInt (fd_offset f))
  :: (if (fd_size f =? 1) && bool_decide (fd_enums f = [])
      then [ define fieldname (VHex (2 ^ fd_offset f)) ]
      else
        define (fieldname +:+ "_MASK")
               (VHex ((2 ^ fd_size f - 1) * 2 ^ fd_offset f))
        :: define (fieldname +:+ "(x)") (VShift fieldname)
        :: map (λ e, define (fieldname +:+ "_" +:+ en_name e)
                            (VApply fieldname (en_value e)))
               (fd_enums f)).

(** The comment that precedes the constants of a field. *)
Definition field_comment (fieldname : string) (f : Field) : cline :=
  subcomment
    (join Vhdl.nl
       ([fieldname +:+ " - " +:+ fd_desc f]
        ++ (if negb (bool_decide (fd_enums f = []))
            then "Values:"
                 :: map (λ e, en_name e +:+ " - " +:+ en_desc e) (fd_enums f)
            else []))).

(** The fields of a register whose bit space holds fields only. *)
Definition fields_of (self : Register) : option (list Field) :=
  mapM (λ o, match o with BField f => Some f | BOther _ => None end)
       (objects (rg_space self)).

(** *** Sample elements *)

Definition sample_origin (class name : string) (line : Z) : origin :=
  {| o_class := class; o_name := name;
     o_sourcefile := "uart.xml"; o_sourceline := line |}.

Definition sample_register (name : string) (size line : Z) : Register :=
  {| rg_origin := sample_origin "Register" name line; rg_name := name;
     rg_size := size; rg_readOnly := false; rg_writeOnly := false;
     rg_format := "unsigned"; rg_desc := ""; rg_space := [] |}.

(** A component whose second register claims two words. *)
Definition uart : Component :=
  {| cp_name := "UART"; cp_desc := "A serial port.";
     cp_sourcefile := "uart.xml";
     cp_space := [ Slot (Some (WReg (sample_register "DATA" 1 10))) 0 1;
                   Slot (Some (WReg (sample_register "WIDE" 2 20))) 1 2 ] |}.

(** A well-formed component. *)
Definition timer : Component :=
  {| cp_name := "TIMER"; cp_desc := "A timer.";
     cp_sourcefile := "timer.xml";
     cp_space := [ Slot (Some (WReg (sample_register "COUNT" 1 5))) 0 1 ] |}.

(** A register with a 4-bit field with two enumerated values and a
    1-bit field. *)
Definition sample_control : Register :=
  {| rg_origin := sample_origin "Register" "CTRL" 30; rg_name := "CTRL";
     rg_size := 1; rg_readOnly := false; rg_writeOnly := false;
     rg_format := "bits"; rg_desc := "";
     rg_space :=
       [ Slot (Some (BField {| fd_name := "MODE"; fd_offset := 0;
                               fd_size := 4; fd_desc := "Mode";
                               fd_enums :=
                                 [ {| en_name := "IDLE"; en_value := 0;
                                      en_desc := "" |};
                                   {| en_name := "RUN"; en_value := 5;
                                      en_desc := "" |} ] |})) 0 4;
         Slot None 4 4;
         Slot (Some (BField {| fd_name := "ENABLE"; fd_offset := 8;
                               fd_size := 1; fd_desc := "Enable";
                               fd_enums := [] |})) 8 1;
         Slot None 9 23 ] |}.

(** An empty world. *)
Definition nothing_written : world :=
  {| w_stdout := []; w_files := ∅; w_stderr := [] |}.

End CHeader.

(** * Properties *)

(** ** Identifier legalization *)

Section LegalizeFacts.
Import Legalize.


Lemma visit_default k nm id kids :
  k ≠ Enum → visit (Node k nm id kids) = defaultvisit visit (Node k nm id kids).
Proof. destruct k; intros; congruence || reflexivity. Qed.

Lemma append_cons x (a b : string) : String x a +:+ b = String x (a +:+ b).
Proof. reflexivity. Qed.

Lemma append_nil_l (b : string) : "" +:+ b = b.
Proof. reflexivity. Qed.

Lemma append_assoc (a b c : string) : (a +:+ b) +:+ c = a +:+ (b +:+ c).
Proof.
  induction a as [|x a IH]; [reflexivity |].
  now rewrite !append_cons, IH.
Qed.

Lemma underscore_word_char : char_in "_" word_chars = true.
Proof. reflexivity. Qed.

Lemma placeholder_word_char c : char_in (placeholder c) word_chars = true.
Proof.
  unfold placeholder. destruct (char_in c word_chars) eqn:E; [exact E | reflexivity].
Qed.

Lemma has_illegal_replace s : has_illegal (replace_illegal s) = false.
Proof.
  induction s as [|c s IH]; [reflexivity |].
  cbn [replace_illegal has_illegal].
  now rewrite placeholder_word_char, IH.
Qed.

Lemma replace_illegal_id s : has_illegal s = false → replace_illegal s = s.
Proof.
  induction s as [|c s IH]; [reflexivity |].
  cbn [replace_illegal has_illegal].
  intros [Hc Hs]%orb_false_elim. apply negb_false_iff in Hc.
  unfold placeholder. now rewrite Hc, IH.
Qed.

(** The loop of [invalidvhdl] computes the replacement, its last
    character and whether anything was replaced. *)
Lemma sweep_spec it c ch :
  sweep it c ch =
  (replace_illegal it, last_char c (replace_illegal it), ch || has_illegal it).
Proof.
  revert c ch. induction it as [|d it IH]; intros c ch.
  - cbn [sweep replace_illegal last_char has_illegal]. now rewrite orb_false_r.
  - cbn [sweep replace_illegal last_char has_illegal]. unfold placeholder.
    destruct (char_in d word_chars); cbn [negb orb]; rewrite IH;
      cbn [orb]; [reflexivity | now rewrite orb_true_r].
Qed.

Lemma invalidvhdl_spec nm :
  starts_with_letter nm = true →
  invalidvhdl nm =
  ok (if needs_sanitizing nm then Some (spec_sanitize nm) else None).
Proof.
  destruct nm as [|first it]; [discriminate |].
  cbn [starts_with_letter invalidvhdl needs_sanitizing spec_sanitize].
  intros ->. cbn [negb]. rewrite sweep_spec, orb_false_l.
  destruct (has_illegal it) eqn:Hill.
  - rewrite orb_true_l.
    now destruct (Ascii.eqb (last_char first (replace_illegal it)) "_").
  - rewrite (replace_illegal_id it Hill), orb_false_l.
    now destruct (Ascii.eqb (last_char first it) "_").
Qed.

Lemma invalidvhdl_raises nm :
  starts_with_letter nm = false → ∃ e, invalidvhdl nm = raise e.
Proof.
  destruct nm as [|first it]; [now exists StopIteration |].
  cbn [starts_with_letter invalidvhdl]. intros ->. now exists NameError.
Qed.

Lemma has_illegal_app s t :
  has_illegal (s +:+ t) = has_illegal s || has_illegal t.
Proof.
  induction s as [|c s IH]; [reflexivity |].
  rewrite append_cons. cbn [has_illegal]. now rewrite IH, orb_assoc.
Qed.

Lemma last_char_app c s d t :
  last_char c (s +:+ String d t) = last_char d t.
Proof.
  revert c. induction s as [|x s IH]; intros c; [reflexivity |].
  rewrite append_cons. cbn [last_char]. apply IH.
Qed.

(** A sanitized name is valid: the pass does not rename it again. *)
Lemma sanitized_is_valid nm :
  starts_with_letter nm = true → is_valid (spec_sanitize nm) = true.
Proof.
  destruct nm as [|first it]; [discriminate |].
  cbn [starts_with_letter spec_sanitize]. intros Hf. unfold is_valid.
  destruct (Ascii.eqb (last_char first (replace_illegal it)) "_") eqn:Hl.
  - rewrite append_cons, invalidvhdl_spec by exact Hf.
    cbn [needs_sanitizing].
    rewrite has_illegal_app, has_illegal_replace, last_char_app. reflexivity.
  - rewrite invalidvhdl_spec by exact Hf. cbn [needs_sanitizing].
    rewrite has_illegal_replace, Hl.
    reflexivity.
Qed.

Lemma settled_default k nm id kids :
  k ≠ Enum →
  settled (Node k nm id kids) =
  is_valid nm && (is_reserved nm || bool_decide (id = Some nm))
  && forallb settled kids.
Proof. destruct k; intros; congruence || reflexivity. Qed.

Lemma no_reserved_default k nm id kids :
  k ≠ Enum →
  no_reserved (Node k nm id kids) =
  negb (is_reserved nm) && forallb no_reserved kids.
Proof. destruct k; intros; congruence || reflexivity. Qed.

Lemma kind_eq_dec (k k' : kind) : {k = k'} + {k ≠ k'}.
Proof. decide equality. Qed.

(** [defaultvisit] on a name that needs no sanitizing. *)
Lemma defaultvisit_valid k nm id kids :
  is_valid nm = true →
  defaultvisit visit (Node k nm id kids) =
  let* '(kids', cc) := visitchildren visit kids in
  let newname := if is_reserved nm then nm +:+ "_0" else nm in
  ok (Node k nm (Some newname) kids',
      (if is_reserved nm
       then [(ntype k +:+ " identifier", nm, nm +:+ "_0")] else [])
      ++ map (qualify nm newname) (concat cc)).
Proof.
  unfold is_valid, defaultvisit, is_reserved.
  destruct (invalidvhdl nm) as [e|[s|]]; try discriminate. intros _.
  cbn [bind]. now destruct (in_reserved (lower nm)).
Qed.

(** [defaultvisit] on a name that starts with a letter and needs
    sanitizing. *)
Lemma defaultvisit_sanitize k nm id kids :
  starts_with_letter nm = true → needs_sanitizing nm = true →
  defaultvisit visit (Node k nm id kids) =
  let* '(kids', cc) := visitchildren visit kids in
  ok (Node k (spec_sanitize nm) (Some (spec_sanitize nm)) kids',
      (ntype k +:+ " name", nm, spec_sanitize nm)
      :: map (qualify nm (spec_sanitize nm)) (concat cc)).
Proof.
  intros Hl Hn. unfold defaultvisit.
  rewrite (invalidvhdl_spec nm Hl), Hn. reflexivity.
Qed.

Lemma defaultvisit_raises k nm id kids :
  starts_with_letter nm = false →
  ∃ e, defaultvisit visit (Node k nm id kids) = raise e.
Proof.
  intros [e He]%invalidvhdl_raises. exists e.
  unfold defaultvisit. now rewrite He.
Qed.

Lemma invalidvhdl_valid nm :
  starts_with_letter nm = true → needs_sanitizing nm = false →
  is_valid nm = true.
Proof.
  intros Hl Hn. unfold is_valid. now rewrite (invalidvhdl_spec nm Hl), Hn.
Qed.

(** After a successful run every visited name is valid. *)
Lemma visit_settles t :
  ∀ t' log, visit t = ok (t', log) → settled t' = true.
Proof.
  induction t as [k nm id kids IH] using node_ind'. intros t' log.
  destruct (kind_eq_dec k Enum) as [->|Hk].
  { cbn. intros [= <- _]. reflexivity. }
  rewrite (visit_default _ _ _ _ Hk).
  assert (Hkids : ∀ kids' cc, visitchildren visit kids = ok (kids', cc) →
                              forallb settled kids' = true).
  { clear -IH. induction IH as [|c cs Hc _ IHcs]; intros kids' cc.
    - cbn. now intros [= <- _].
    - cbn [visitchildren]. destruct (visit c) as [e|[c' ch]] eqn:Ec;
        [discriminate |]. cbn [bind].
      fold (visitchildren visit cs).
      destruct (visitchildren visit cs) as [e|[cs' chs]] eqn:Ecs;
        [discriminate |]. cbn [bind]. intros [= <- _].
      cbn [forallb]. rewrite (Hc _ _ eq_refl), (IHcs _ _ eq_refl). reflexivity. }
  destruct (starts_with_letter nm) eqn:Hl.
  2:{ destruct (defaultvisit_raises k nm id kids Hl) as [e ->]. discriminate. }
  destruct (needs_sanitizing nm) eqn:Hn.
  - rewrite (defaultvisit_sanitize _ _ _ _ Hl Hn).
    destruct (visitchildren visit kids) as [e|[kids' cc]] eqn:Ek;
      [discriminate |]. cbn [bind]. intros [= <- _].
    rewrite (settled_default _ _ _ _ Hk), (sanitized_is_valid nm Hl).
    rewrite bool_decide_eq_true_2 by reflexivity.
    rewrite orb_true_r. cbn [andb]. eauto.
  - pose proof (invalidvhdl_valid nm Hl Hn) as Hv.
    rewrite (defaultvisit_valid _ _ _ _ Hv).
    destruct (visitchildren visit kids) as [e|[kids' cc]] eqn:Ek;
      [discriminate |]. cbn [bind]. intros [= <- _].
    rewrite (settled_default _ _ _ _ Hk), Hv. cbn [andb].
    destruct (is_reserved nm); cbn [orb andb]; [eauto |].
    rewrite bool_decide_eq_true_2 by reflexivity. cbn [andb]. eauto.
Qed.

Lemma rerun_children kids :
  Forall rerun_spec kids → forallb settled kids = true →
  ∃ kids'' cc,
    visitchildren visit kids = ok (kids'', cc)
    ∧ map erase_identifiers kids'' = map erase_identifiers kids
    ∧ (forallb no_reserved kids = true → concat cc = [] ∧ kids'' = kids)
    ∧ (forallb no_reserved kids = false → concat cc ≠ []).
Proof.
  induction 1 as [|c cs Hc _ IHcs].
  - intros _. exists [], []. cbn. repeat split; discriminate.
  - cbn [forallb]. intros [Sc Scs]%andb_prop.
    destruct (Hc Sc) as (c'' & l & Ev & Eer & Hyes & Hno).
    destruct (IHcs Scs) as (cs'' & cc & Evs & Eers & Hyess & Hnos).
    exists (c'' :: cs''), (l :: cc). cbn [visitchildren].
    fold (visitchildren visit cs). rewrite Ev, Evs. cbn [bind map concat].
    repeat split.
    + now rewrite Eer, Eers.
    + apply andb_prop in H as [H1 H2].
      destruct (Hyes H1) as [-> _], (Hyess H2) as [-> _]. reflexivity.
    + apply andb_prop in H as [H1 H2].
      destruct (Hyes H1) as [_ ->], (Hyess H2) as [_ ->]. reflexivity.
    + intros [H1|H2]%andb_false_iff.
      * intros [E _]%app_eq_nil. now apply Hno.
      * intros [_ E]%app_eq_nil. now apply Hnos.
Qed.

Lemma rerun_settled t : rerun_spec t.
Proof.
  induction t as [k nm id kids IH] using node_ind'. intros St.
  destruct (kind_eq_dec k Enum) as [->|Hk].
  { eexists _, _. cbn. repeat split. discriminate. }
  rewrite (settled_default _ _ _ _ Hk) in St.
  apply andb_prop in St as [[Hv Hid]%andb_prop Skids].
  destruct (rerun_children kids IH Skids)
    as (kids'' & cc & Ev & Eer & Hyes & Hno).
  rewrite (visit_default _ _ _ _ Hk), (defaultvisit_valid _ _ _ _ Hv), Ev.
  cbn [bind]. eexists _, _. split; [reflexivity |].
  rewrite (no_reserved_default _ _ _ _ Hk).
  repeat split.
  - cbn [erase_identifiers]. now rewrite Eer.
  - apply andb_prop in H as [Hr Hk']. apply negb_true_iff in Hr.
    rewrite Hr. destruct (Hyes Hk') as [-> _]. reflexivity.
  - apply andb_prop in H as [Hr Hk']. apply negb_true_iff in Hr.
    rewrite Hr in Hid |- *. cbn [orb] in Hid.
    apply bool_decide_eq_true_1 in Hid as ->.
    destruct (Hyes Hk') as [_ ->]. reflexivity.
  - intros [Hr|Hk']%andb_false_iff.
    + apply negb_false_iff in Hr. rewrite Hr. discriminate.
    + intros [_ E]%app_eq_nil. apply map_eq_nil in E. now apply Hno.
Qed.

(** C3, counterexample.  A register named [out] is logged by the first
    run and logged again, with the same entry, by a second run made
    immediately after: the second change log is not empty. *)
Lemma C3_counterexample :
  execute reserved_register
  = ok (reserved_register_done, [("register identifier", "out", "out_0")])
  ∧ execute reserved_register_done
    = ok (reserved_register_done, [("register identifier", "out", "out_0")])
  ∧ ¬ (∀ t' log t'' log',
         execute reserved_register = ok (t', log) →
         execute t' = ok (t'', log') → log' = []).
Proof.
  split; [reflexivity |]. split; [reflexivity |].
  intros H.
  specialize (H _ _ _ _ (eq_refl : execute reserved_register = ok _)
                (eq_refl : execute reserved_register_done = ok _)).
  discriminate H.
Qed.

(** C3 (amended).  For every entity tree on which a first run of the
    pass succeeds, a second run made immediately after succeeds too and
    leaves every name as it is; if no visited entity's name is a
    reserved word the second change log is empty and the tree is left
    unchanged, and otherwise the second change log is not empty (a
    reserved-word name is reported on every run). *)
Theorem C3_second_run t t' log :
  execute t = ok (t', log) →
  ∃ t'' log',
    execute t' = ok (t'', log')
    ∧ erase_identifiers t'' = erase_identifiers t'
    ∧ (no_reserved t' = true → log' = [] ∧ t'' = t')
    ∧ (no_reserved t' = false → log' ≠ []).
Proof.
  unfold execute. intros Hrun.
  exact (rerun_settled t' (visit_settles t t' log Hrun)).
Qed.

Lemma C3_second_run_witness :
  ∃ t'' log',
    execute sample_tree_done = ok (t'', log')
    ∧ erase_identifiers t'' = erase_identifiers sample_tree_done
    ∧ (no_reserved sample_tree_done = true
       → log' = [] ∧ t'' = sample_tree_done)
    ∧ (no_reserved sample_tree_done = false → log' ≠ []).
Proof.
  apply (C3_second_run sample_tree sample_tree_done
           [("register name", "my-reg_", "my_reg__0");
            ("field name", "my-reg_.a b", "my_reg__0.a_b")]).
  vm_compute. reflexivity.
Defined.

(** C8, counterexample.  A name whose first character is not a letter
    is not sanitized: the guard on the first character makes the pass
    raise, so there is no new name and no change record. *)
Lemma C8_counterexample :
  visit (Node Register "1abc" None []) = raise NameError
  ∧ ¬ (∃ n' log, visit (Node Register "1abc" None []) = ok (n', log)
                 ∧ length log = 1%nat).
Proof.
  split; [reflexivity |]. intros (n' & log & E & _). discriminate E.
Qed.

(** C8 (amended).  For every entity other than an [Enum] whose children
    are legalized without an error:
    - if its name starts with a letter and has an illegal character
      elsewhere or a trailing underscore, the name and the identifier
      become the sanitized variant (illegal characters replaced by [_],
      then [_0] appended if the result ends in [_]) and exactly one
      change, a name change from the old to the new name, is recorded
      for the entity, followed by the children's changes qualified with
      the old and new name;
    - if its name is valid and is a reserved word, compared in lower
      case, the name is kept, the identifier becomes [name_0] and
      exactly one change, an identifier change from [name] to [name_0],
      is recorded for the entity;
    - if its name does not start with a letter the pass raises an error
      instead of sanitizing. *)
Theorem C8_legalize_entity k nm id kids kids' cc :
  k ≠ Enum →
  visitchildren visit kids = ok (kids', cc) →
  (starts_with_letter nm = true → needs_sanitizing nm = true →
   visit (Node k nm id kids)
   = ok (Node k (spec_sanitize nm) (Some (spec_sanitize nm)) kids',
         (ntype k +:+ " name", nm, spec_sanitize nm)
         :: map (qualify nm (spec_sanitize nm)) (concat cc)))
  ∧ (starts_with_letter nm = true → needs_sanitizing nm = false →
     is_reserved nm = true →
     visit (Node k nm id kids)
     = ok (Node k nm (Some (nm +:+ "_0")) kids',
           (ntype k +:+ " identifier", nm, nm +:+ "_0")
           :: map (qualify nm (nm +:+ "_0")) (concat cc)))
  ∧ (starts_with_letter nm = false →
     ∃ e, visit (Node k nm id kids) = raise e).
Proof.
  intros Hk Hkids. rewrite (visit_default _ _ _ _ Hk). repeat split.
  - intros Hl Hn. rewrite (defaultvisit_sanitize _ _ _ _ Hl Hn), Hkids.
    reflexivity.
  - intros Hl Hn Hr.
    rewrite (defaultvisit_valid _ _ _ _ (invalidvhdl_valid nm Hl Hn)), Hkids, Hr.
    reflexivity.
  - apply defaultvisit_raises.
Qed.

Lemma C8_legalize_entity_witness :
  visit (Node Register "my-reg_" (Some "old") [])
  = ok (Node Register "my_reg__0" (Some "my_reg__0") [],
        [("register name", "my-reg_", "my_reg__0")])
  ∧ visit (Node Field "Signal" None [])
    = ok (Node Field "Signal" (Some "Signal_0") [],
          [("field identifier", "Signal", "Signal_0")]).
Proof.
  split.
  - exact (proj1 (C8_legalize_entity Register "my-reg_" (Some "old") [] [] []
                    ltac:(discriminate) eq_refl) eq_refl eq_refl).
  - exact (proj1 (proj2 (C8_legalize_entity Field "Signal" None [] [] []
                           ltac:(discriminate) eq_refl))
             eq_refl eq_refl eq_refl).
Defined.

End LegalizeFacts.

(** ** Invariants of the legalization pass *)

Section LegalizeInvariants.
Import Legalize.

(** The children of a node are visited one after the other; what holds
    of every visit holds of the lists. *)
Lemma visitchildren_each (P : node → node → list change → Prop)
    (Q : list node → list node → list (list change) → Prop) :
  Q [] [] [] →
  (∀ c cs c' cs' l ls, P c c' l → Q cs cs' ls →
                       Q (c :: cs) (c' :: cs') (l :: ls)) →
  ∀ kids,
    Forall (λ c, ∀ c' l, visit c = ok (c', l) → P c c' l) kids →
    ∀ kids' cc, visitchildren visit kids = ok (kids', cc) → Q kids kids' cc.
Proof.
  intros Hnil Hcons kids HP.
  induction HP as [|c cs Hc _ IH]; intros kids' cc.
  - cbn. now intros [= <- <-].
  - cbn [visitchildren]. destruct (visit c) as [e|[c' l]] eqn:Ec;
      [discriminate |]. cbn [bind]. fold (visitchildren visit cs).
    destruct (visitchildren visit cs) as [e|[cs' ls]] eqn:Ecs;
      [discriminate |]. cbn [bind]. intros [= <- <-].
    apply Hcons; [now apply Hc | now apply IH].
Qed.

(** One step of the pass on a node that is not an [Enum]. *)
Lemma visit_cases k nm id kids t' log :
  k ≠ Enum →
  visit (Node k nm id kids) = ok (t', log) →
  ∃ kids' cc nm' id' own,
    visitchildren visit kids = ok (kids', cc)
    ∧ t' = Node k nm' (Some id') kids'
    ∧ log = own ++ map (qualify nm id') (concat cc)
    ∧ ((is_valid nm = true ∧ is_reserved nm = false
        ∧ nm' = nm ∧ id' = nm ∧ own = [])
       ∨ (is_valid nm = true ∧ is_reserved nm = true
          ∧ nm' = nm ∧ id' = nm +:+ "_0"
          ∧ own = [(ntype k +:+ " identifier", nm, nm +:+ "_0")])
       ∨ (is_valid nm = false ∧ starts_with_letter nm = true
          ∧ nm' = spec_sanitize nm ∧ id' = spec_sanitize nm
          ∧ own = [(ntype k +:+ " name", nm, spec_sanitize nm)])).
Proof.
  intros Hk. rewrite (visit_default _ _ _ _ Hk).
  destruct (starts_with_letter nm) eqn:Hl.
  2:{ destruct (defaultvisit_raises k nm id kids Hl) as [e ->]. discriminate. }
  destruct (needs_sanitizing nm) eqn:Hn.
  - rewrite (defaultvisit_sanitize _ _ _ _ Hl Hn).
    destruct (visitchildren visit kids) as [e|[kids' cc]]; [discriminate |].
    cbn [bind]. intros [= <- <-].
    exists kids', cc, (spec_sanitize nm), (spec_sanitize nm),
      [(ntype k +:+ " name", nm, spec_sanitize nm)].
    repeat split. right. right. repeat split.
    unfold is_valid. now rewrite (invalidvhdl_spec nm Hl), Hn.
  - pose proof (invalidvhdl_valid nm Hl Hn) as Hv.
    rewrite (defaultvisit_valid _ _ _ _ Hv).
    destruct (visitchildren visit kids) as [e|[kids' cc]]; [discriminate |].
    cbn [bind]. intros [= <- <-].
    destruct (is_reserved nm) eqn:Hr.
    + exists kids', cc, nm, (nm +:+ "_0"),
        [(ntype k +:+ " identifier", nm, nm +:+ "_0")].
      repeat split. right. left. repeat split; assumption.
    + exists kids', cc, nm, nm, []. repeat split. left. now repeat split.
Qed.

Lemma is_valid_inv nm :
  is_valid nm = true →
  starts_with_letter nm = true ∧ needs_sanitizing nm = false.
Proof.
  unfold is_valid. destruct (starts_with_letter nm) eqn:Hl.
  - rewrite (invalidvhdl_spec nm Hl).
    destruct (needs_sanitizing nm); [discriminate | auto].
  - destruct (invalidvhdl_raises nm Hl) as [e ->]. discriminate.
Qed.

(** A valid name with the suffix [_0] is a valid name. *)
Lemma suffixed_is_valid nm : is_valid nm = true → is_valid (nm +:+ "_0") = true.
Proof.
  intros [Hl Hn]%is_valid_inv. destruct nm as [|first it]; [discriminate |].
  apply invalidvhdl_valid.
  - rewrite append_cons. exact Hl.
  - rewrite append_cons. cbn [needs_sanitizing] in Hn |- *.
    apply orb_false_elim in Hn as [Hill _].
    rewrite has_illegal_app, Hill, last_char_app. reflexivity.
Qed.

Lemma legal_default k nm id kids :
  k ≠ Enum →
  legal (Node k nm id kids)
  = is_valid nm && identifier_ok nm id && forallb legal kids.
Proof. destruct k; intros; congruence || reflexivity. Qed.

(** X1.  After a successful run of the pass, every visited entity has
    a name that is valid VHDL and an identifier that is valid VHDL; the
    identifier is the name, or the name with the suffix [_0] where
    the name is a reserved word. *)
Theorem legalized_tree_is_legal t t' log :
  execute t = ok (t', log) → legal t' = true.
Proof.
  unfold execute. revert t' log.
  induction t as [k nm id kids IH] using node_ind'. intros t' log.
  destruct (kind_eq_dec k Enum) as [->|Hk].
  { cbn. now intros [= <- _]. }
  intros (kids' & cc & nm' & id' & own & Hkids & -> & _ & Hcase)
    %(visit_cases _ _ _ _ _ _ Hk).
  rewrite (legal_default _ _ _ _ Hk).
  assert (Hall : forallb legal kids' = true).
  { revert kids' cc Hkids.
    apply (visitchildren_each (λ _ c' _, legal c' = true)
             (λ _ cs' _, forallb legal cs' = true)); [reflexivity | | exact IH].
    intros c cs c' cs' l ls Hc Hcs. cbn [forallb]. now rewrite Hc, Hcs. }
  rewrite Hall, andb_true_r. unfold identifier_ok.
  destruct Hcase as [(Hv & Hr & -> & -> & _)
                    |[(Hv & Hr & -> & -> & _)|(Hv & Hl & -> & -> & _)]].
  - now rewrite Hv, String.eqb_refl.
  - rewrite Hv, (suffixed_is_valid nm Hv), Hr, String.eqb_refl.
    now rewrite orb_true_r.
  - now rewrite (sanitized_is_valid nm Hl), String.eqb_refl.
Qed.

Lemma legalized_tree_is_legal_witness : legal mixed_tree_done = true.
Proof.
  apply (legalized_tree_is_legal mixed_tree mixed_tree_done
           [("register identifier", "uart.out", "uart.out_0");
            ("field name", "uart.out.tx-en", "uart.out_0.tx_en")]).
  vm_compute. reflexivity.
Defined.

Lemma frame_default k nm id kids :
  k ≠ Enum → frame (Node k nm id kids) = Node k "" None (map frame kids).
Proof. destruct k; intros; congruence || reflexivity. Qed.

(** X2.  The pass changes names and identifiers only: the classes of
    the nodes, the number and the order of the children and every
    [Enum] subtree are as they were. *)
Theorem legalization_keeps_the_frame t t' log :
  execute t = ok (t', log) → frame t' = frame t.
Proof.
  unfold execute. revert t' log.
  induction t as [k nm id kids IH] using node_ind'. intros t' log.
  destruct (kind_eq_dec k Enum) as [->|Hk].
  { cbn. now intros [= <- _]. }
  intros (kids' & cc & nm' & id' & own & Hkids & -> & _ & _)
    %(visit_cases _ _ _ _ _ _ Hk).
  rewrite !(frame_default _ _ _ _ Hk). f_equal.
  revert kids' cc Hkids.
  apply (visitchildren_each (λ c c' _, frame c' = frame c)
           (λ cs cs' _, map frame cs' = map frame cs)); [reflexivity | | exact IH].
  intros c cs c' cs' l ls Hc Hcs. cbn [map]. now rewrite Hc, Hcs.
Qed.

Lemma legalization_keeps_the_frame_witness :
  frame mixed_tree_done = frame mixed_tree.
Proof.
  apply (legalization_keeps_the_frame mixed_tree mixed_tree_done
           [("register identifier", "uart.out", "uart.out_0");
            ("field name", "uart.out.tx-en", "uart.out_0.tx_en")]).
  vm_compute. reflexivity.
Defined.

Lemma clean_default k nm id kids :
  k ≠ Enum →
  clean (Node k nm id kids)
  = is_valid nm && negb (is_reserved nm) && forallb clean kids.
Proof. destruct k; intros; congruence || reflexivity. Qed.

Lemma identify_default k nm id kids :
  k ≠ Enum →
  identify (Node k nm id kids) = Node k nm (Some nm) (map identify kids).
Proof. destruct k; intros; congruence || reflexivity. Qed.

(** X3.  The change log of a successful run is empty exactly when
    every visited name is valid VHDL and no reserved word; the run then
    leaves every name as it is and makes it the identifier. *)
Theorem log_is_empty_iff_clean t t' log :
  execute t = ok (t', log) →
  (log = [] ↔ clean t = true) ∧ (clean t = true → t' = identify t).
Proof.
  unfold execute. revert t' log.
  induction t as [k nm id kids IH] using node_ind'. intros t' log.
  destruct (kind_eq_dec k Enum) as [->|Hk].
  { cbn. intros [= <- <-]. repeat split. }
  intros (kids' & cc & nm' & id' & own & Hkids & -> & -> & Hcase)
    %(visit_cases _ _ _ _ _ _ Hk).
  rewrite (clean_default _ _ _ _ Hk), (identify_default _ _ _ _ Hk).
  assert (Hall : (concat cc = [] ↔ forallb clean kids = true)
                 ∧ (forallb clean kids = true → kids' = map identify kids)).
  { revert kids' cc Hkids.
    apply (visitchildren_each
             (λ c c' l, (l = [] ↔ clean c = true)
                        ∧ (clean c = true → c' = identify c))
             (λ cs cs' ls, (concat ls = [] ↔ forallb clean cs = true)
                           ∧ (forallb clean cs = true
                              → cs' = map identify cs)));
      [repeat split | | exact IH].
    intros c cs c' cs' l ls [Hc1 Hc2] [Hcs1 Hcs2].
    cbn [concat forallb map]. rewrite andb_true_iff. split.
    - rewrite <- Hc1, <- Hcs1. split.
      + now intros [-> ->]%app_eq_nil.
      + now intros [-> ->].
    - intros [H1 H2]. now rewrite (Hc2 H1), (Hcs2 H2). }
  destruct Hall as [Hlog Hkids'].
  destruct Hcase as [(Hv & Hr & -> & -> & ->)
                    |[(Hv & Hr & -> & -> & ->)|(Hv & Hl & -> & -> & ->)]].
  - rewrite Hv, Hr. cbn [negb andb app]. split.
    + rewrite <- Hlog. split.
      * now intros E%map_eq_nil.
      * now intros ->.
    + intros H. now rewrite (Hkids' H).
  - rewrite Hv, Hr. cbn [negb andb app]. split; [split |]; discriminate.
  - rewrite Hv. cbn [andb app]. split; [split |]; discriminate.
Qed.

Lemma log_is_empty_iff_clean_witness :
  let done :=
    Node Component "uart" (Some "uart")
      [Node Register "ctrl" (Some "ctrl")
         [Node Field "mode" (Some "mode") [Node Enum "1x" None []]]] in
  (@nil change = [] ↔ clean clean_tree = true)
  ∧ (clean clean_tree = true → done = identify clean_tree).
Proof.
  intros done. apply (log_is_empty_iff_clean clean_tree done []).
  vm_compute. reflexivity.
Defined.

(** X4.  Sanitizing is idempotent: a name that [invalidvhdl] returns is
    a name that [invalidvhdl] accepts. *)
Theorem invalidvhdl_accepts_its_result nm nm' :
  invalidvhdl nm = ok (Some nm') → invalidvhdl nm' = ok None.
Proof.
  intros H.
  destruct (starts_with_letter nm) eqn:Hl.
  2:{ destruct (invalidvhdl_raises nm Hl) as [e He].
      rewrite He in H. discriminate H. }
  rewrite (invalidvhdl_spec nm Hl) in H.
  destruct (needs_sanitizing nm); [| discriminate]. injection H as <-.
  pose proof (sanitized_is_valid nm Hl) as Hv. unfold is_valid in Hv.
  destruct (invalidvhdl (spec_sanitize nm)) as [e|[s|]];
    [discriminate Hv | discriminate Hv | reflexivity].
Qed.

Lemma invalidvhdl_accepts_its_result_witness :
  invalidvhdl "a-b c_" = ok (Some "a_b_c__0")
  ∧ invalidvhdl "a_b_c__0" = ok None.
Proof.
  split; [reflexivity |].
  apply (invalidvhdl_accepts_its_result "a-b c_"). reflexivity.
Defined.

Lemma startable_default k nm id kids :
  k ≠ Enum →
  startable (Node k nm id kids)
  = starts_with_letter nm && forallb startable kids.
Proof. destruct k; intros; congruence || reflexivity. Qed.

Lemma children_succeed kids :
  Forall (λ c, (∃ c' l, visit c = ok (c', l)) ↔ startable c = true) kids →
  (∃ kids' cc, visitchildren visit kids = ok (kids', cc))
  ↔ forallb startable kids = true.
Proof.
  induction 1 as [|c cs Hc _ IH].
  - cbn. split; [reflexivity | eauto].
  - cbn [visitchildren forallb]. fold (visitchildren visit cs).
    rewrite andb_true_iff, <- Hc, <- IH. split.
    + intros (kids' & cc & H).
      destruct (visit c) as [e|[c' l]]; [discriminate |]. cbn [bind] in H.
      destruct (visitchildren visit cs) as [e|[cs' ls]]; [discriminate |].
      split; eauto.
    + intros [(c' & l & ->) (cs' & ls & ->)]. cbn [bind]. eauto.
Qed.

(** X5.  The pass ends without an error exactly when the name of every
    visited entity starts with a letter; a name that is empty or starts
    with another character makes the whole run fail. *)
Theorem pass_succeeds_iff_startable t :
  (∃ t' log, execute t = ok (t', log)) ↔ startable t = true.
Proof.
  unfold execute.
  induction t as [k nm id kids IH] using node_ind'.
  destruct (kind_eq_dec k Enum) as [->|Hk].
  { cbn. split; [reflexivity | eauto]. }
  rewrite (visit_default _ _ _ _ Hk), (startable_default _ _ _ _ Hk).
  pose proof (children_succeed kids IH) as Hkids.
  destruct (starts_with_letter nm) eqn:Hl.
  - cbn [andb]. rewrite <- Hkids.
    destruct (needs_sanitizing nm) eqn:Hn.
    + rewrite (defaultvisit_sanitize _ _ _ _ Hl Hn). split.
      * intros (t' & log & H).
        destruct (visitchildren visit kids) as [e|[kids' cc]];
          [discriminate | eauto].
      * intros (kids' & cc & ->). cbn [bind]. eauto.
    + rewrite (defaultvisit_valid _ _ _ _ (invalidvhdl_valid nm Hl Hn)). split.
      * intros (t' & log & H).
        destruct (visitchildren visit kids) as [e|[kids' cc]];
          [discriminate | eauto].
      * intros (kids' & cc & ->). cbn [bind]. eauto.
  - cbn [andb]. destruct (defaultvisit_raises k nm id kids Hl) as [e ->].
    split; [intros (t' & log & H) |]; discriminate.
Qed.

End LegalizeInvariants.


(** ** Address constants and address dispatch *)

Section DispatchFacts.
Import Space Vhdl.

(** What [visit_RegisterArray] prints for an array, before the constants
    of its children. *)
Lemma array_constants name id offset size framesize framecount ro wo sp :
  ∃ rest,
    declared (visit_entity_addr
                (EArr name id offset size framesize framecount ro wo sp))
    = (name +:+ "_BASEADDR", offset)
      :: (name +:+ "_LASTADDR", offset + size - 1)
      :: (name +:+ "_FRAMESIZE", framesize)
      :: (name +:+ "_FRAMECOUNT", framesize) :: rest.
Proof.
  eexists. cbn [visit_entity_addr map printaddress]. reflexivity.
Qed.

(** C4.  The pass evaluated on an array of four frames of eight words
    at offset 16: the base address, the last address and the frame size
    are as the claim says, and [RA_FRAMECOUNT] is 8, the frame size, and
    not the frame count 4. *)
Theorem C4_array_constants :
  declared (visit_entity_addr sample_array)
  = [ ("RA_BASEADDR", 16); ("RA_LASTADDR", 47);
      ("RA_FRAMESIZE", 8); ("RA_FRAMECOUNT", 8) ]
  ∧ const_value (declared (visit_entity_addr sample_array)) "RA_FRAMECOUNT"
    ≠ Some 4.
Proof. split; [reflexivity | discriminate]. Qed.

Lemma eval_div_const cs ints x c a b :
  ints !! x = Some a → const_value cs c = Some b → 0 ≤ a → 0 < b →
  eval cs ints (Div (Var x) (Cst c)) = Some (a `div` b).
Proof.
  intros Ha Hb Hpos Hb0. cbn [eval]. rewrite Ha, Hb.
  destruct (Z.eqb_spec b 0) as [->|_]; [lia |].
  now rewrite Z.quot_div_nonneg by lia.
Qed.

Lemma eval_mod_const cs ints x c a b :
  ints !! x = Some a → const_value cs c = Some b → 0 < b →
  eval cs ints (Mod (Var x) (Cst c)) = Some (a `mod` b).
Proof.
  intros Ha Hb Hb0. cbn [eval]. rewrite Ha, Hb.
  destruct (Z.eqb_spec b 0) as [->|_]; [lia | reflexivity].
Qed.

Lemma exec_body_two cs st a b rest :
  exec_body cs st (a :: b :: rest)
  = match exec_body cs st [a; b] with
    | Some st' => exec_body cs st' rest
    | None => None
    end.
Proof.
  cbn [exec_body]. destruct (exec_pstmt cs st a) as [st1|]; [| reflexivity].
  now destruct (exec_pstmt cs st1 b).
Qed.

(** The two assignments that open the body of an array procedure. *)
Lemma index_and_intra_offset cs name fs offset st :
  const_value cs (name +:+ "_FRAMESIZE") = Some fs →
  0 < fs → 0 ≤ offset →
  st_ints st !! "offset" = Some offset →
  exec_body cs st
    [ SetInt "idx" (Div (Var "offset") (Cst (name +:+ "_FRAMESIZE")));
      SetInt "offs" (Mod (Var "offset") (Cst (name +:+ "_FRAMESIZE"))) ]
  = Some {| st_ints := <["offs" := offset `mod` fs]>
                         (<["idx" := offset `div` fs]> (st_ints st));
            st_success := st_success st;
            st_selected := st_selected st |}.
Proof.
  intros Hfs Hpos Hoff Hlook.
  cbn [exec_body exec_pstmt].
  rewrite (eval_div_const cs _ _ _ offset fs Hlook Hfs Hoff Hpos).
  cbn [st_ints st_success st_selected].
  rewrite (eval_mod_const cs _ _ _ offset fs) by
    (try assumption; rewrite lookup_insert_ne by discriminate; assumption).
  reflexivity.
Qed.

Lemma complexregarrayread_call node cs fs offset lines :
  const_value cs (s_name node +:+ "_FRAMESIZE") = Some fs →
  0 < fs → 0 ≤ offset →
  readwhenlines node "ra(idx)" "offs" = ok lines →
  ∃ p, complexregarrayread node = ok p
       ∧ call cs p offset = Some (dispatched cs fs offset lines).
Proof.
  intros Hfs Hpos Hoff Hl. unfold complexregarrayread. rewrite Hl. cbn [bind].
  eexists. split; [reflexivity |]. unfold call. cbn [p_body].
  rewrite exec_body_two.
  rewrite (index_and_intra_offset cs _ fs offset _ Hfs Hpos Hoff)
    by apply lookup_singleton_eq.
  cbn [exec_body exec_pstmt st_ints st_success st_selected].
  rewrite lookup_insert_eq. reflexivity.
Qed.

Lemma complexregarrayupdate_call node sig cs fs offset lines :
  const_value cs (s_name node +:+ "_FRAMESIZE") = Some fs →
  0 < fs → 0 ≤ offset →
  updatewhenlines node "ra(idx)" "offs" sig = ok lines →
  ∃ p, complexregarrayupdate node sig = ok p
       ∧ call cs p offset = Some (dispatched cs fs offset lines).
Proof.
  intros Hfs Hpos Hoff Hl. unfold complexregarrayupdate.
  destruct (fnclass sig) as [fn class]. rewrite Hl. cbn [bind].
  eexists. split; [reflexivity |]. unfold call. cbn [p_body].
  rewrite exec_body_two.
  rewrite (index_and_intra_offset cs _ fs offset _ Hfs Hpos Hoff)
    by apply lookup_singleton_eq.
  cbn [exec_body exec_pstmt st_ints st_success st_selected].
  rewrite lookup_insert_eq. reflexivity.
Qed.

Lemma dispatched_idx cs fs offset lines :
  st_ints (dispatched cs fs offset lines) !! "idx" = Some (offset `div` fs).
Proof.
  cbn [dispatched st_ints].
  rewrite lookup_insert_ne by discriminate. apply lookup_insert_eq.
Qed.

Lemma dispatched_offs cs fs offset lines :
  st_ints (dispatched cs fs offset lines) !! "offs" = Some (offset `mod` fs).
Proof. cbn [dispatched st_ints]. apply lookup_insert_eq. Qed.

(** What the statements of the array procedures compute, the rules on
    declarations and modes left aside: for a frame-size constant of
    value [fs] and a flat offset, [idx = offset div fs] and
    [offs = offset mod fs], and the alternative their [case] selects
    on [offs], the intra-offset. *)
Lemma array_statements node cs fs offset :
  const_value cs (s_name node +:+ "_FRAMESIZE") = Some fs →
  0 < fs → 0 ≤ offset →
  (∀ lines,
     readwhenlines node "ra(idx)" "offs" = ok lines →
     ∃ p st,
       complexregarrayread node = ok p
       ∧ call cs p offset = Some st
       ∧ st_ints st !! "idx" = Some (offset `div` fs)
       ∧ st_ints st !! "offs" = Some (offset `mod` fs)
       ∧ st_selected st = select cs (offset `mod` fs) lines)
  ∧ (∀ sig lines,
       updatewhenlines node "ra(idx)" "offs" sig = ok lines →
       ∃ p st,
         complexregarrayupdate node sig = ok p
         ∧ call cs p offset = Some st
         ∧ st_ints st !! "idx" = Some (offset `div` fs)
         ∧ st_ints st !! "offs" = Some (offset `mod` fs)
         ∧ st_selected st = select cs (offset `mod` fs) lines).
Proof.
  intros Hfs Hpos Hoff. split.
  - intros lines Hl.
    destruct (complexregarrayread_call node cs fs offset lines
                Hfs Hpos Hoff Hl) as (p & Hp & Hc).
    exists p, (dispatched cs fs offset lines).
    auto using dispatched_idx, dispatched_offs.
  - intros sig lines Hl.
    destruct (complexregarrayupdate_call node sig cs fs offset lines
                Hfs Hpos Hoff Hl) as (p & Hp & Hc).
    exists p, (dispatched cs fs offset lines).
    auto using dispatched_idx, dispatched_offs.
Qed.

(** The statements at the scenario of the specification: frame size 8,
    flat offset 12. *)
Example array_statements_at_12 :
  let node := scope_of_entity ab_array in
  let cs := declared (visit_entity_addr ab_array) in
  (∃ p st,
     complexregarrayread node = ok p
     ∧ call cs p 12 = Some st
     ∧ st_ints st !! "idx" = Some 1
     ∧ st_ints st !! "offs" = Some 4
     ∧ st_selected st = Some (ReadReg "B" "ra(idx)" "B"))
  ∧ (∃ p st,
       complexregarrayupdate node false = ok p
       ∧ call cs p 12 = Some st
       ∧ st_ints st !! "idx" = Some 1
       ∧ st_ints st !! "offs" = Some 4
       ∧ st_selected st = Some (UpdateReg "UPDATE" "B" "ra(idx)" "B")).
Proof.
  intros node cs.
  destruct (array_statements node cs 8 12 eq_refl ltac:(lia) ltac:(lia))
    as [Hread Hupdate].
  split.
  - destruct (Hread [ (OnConst "A_ADDR", ReadReg "A" "ra(idx)" "A");
                      (OnConst "B_ADDR", ReadReg "B" "ra(idx)" "B");
                      others_line ] eq_refl)
      as (p & st & Hp & Hc & Hi & Ho & Hs).
    exists p, st. repeat split; assumption.
  - destruct (Hupdate false
                [ (OnConst "A_ADDR", UpdateReg "UPDATE" "A" "ra(idx)" "A");
                  (OnConst "B_ADDR", UpdateReg "UPDATE" "B" "ra(idx)" "B") ]
                eq_refl)
      as (p & st & Hp & Hc & Hi & Ho & Hs).
    exists p, st. repeat split; assumption.
Qed.

(** The text of the read procedure of the scenario's array. *)
Example read_procedure_text :
  (let* p := complexregarrayread (scope_of_entity ab_array) in
   ok (render_array_procedure "RA" p))
  = ok [ "procedure READ_RA(";
         "    offset: in t_addr;";
         "    ra: in ta_RA;";
         "    dat: out t_busdata;";
         "    success: out boolean";
         ") is";
         "    variable idx: integer range 0 to RA_FRAMECOUNT-1;";
         "    variable ofs: integer range 0 to RA_FRAMESIZE-1;";
         "begin";
         "    idx := offset / RA_FRAMESIZE;";
         "    offs := offset mod RA_FRAMESIZE;";
         "    success := true;";
         "    case offs is";
         "        when A_ADDR => dat := A_TO_DAT(ra(idx).A);";
         "        when B_ADDR => dat := B_TO_DAT(ra(idx).B);";
         "        when others => success := false;";
         "    end case;";
         "end procedure READ_RA;" ].
Proof. reflexivity. Qed.

(** *** The array procedures under the rules of VHDL *)

(** A run under the rules does what the statements do. *)
Lemma run_body_exec cs p st body st' :
  run_body cs p st body = ok st' → exec_body cs st body = Some st'.
Proof.
  revert st. induction body as [|s body IH]; intros st.
  - now intros [= ->].
  - cbn [run_body exec_body]. unfold run_pstmt.
    destruct (exec_pstmt cs st s) as [st1|]; [| discriminate].
    destruct s as [x e| | |]; cbn [bind]; try apply IH.
    destruct (st_ints st1 !! x) as [v|]; [| discriminate].
    destruct (in_declared_range cs p x v); [apply IH | discriminate].
Qed.

Lemma run_call cs p offset st :
  run cs p offset = ok st → call cs p offset = Some st.
Proof.
  unfold run, call. destruct (analyse p); [| discriminate].
  apply run_body_exec.
Qed.

(** Every read procedure of a heterogeneous array assigns and
    dispatches on [offs], which it does not declare: no call of it has
    a result. *)
Lemma array_read_rejected node p cs offset :
  complexregarrayread node = ok p →
  is_local p "ofs" = true
  ∧ is_local p "offs" = false
  ∧ analyse p = [Undeclared "offs"; Undeclared "offs"]
  ∧ run cs p offset = raise (Undeclared "offs").
Proof.
  unfold complexregarrayread.
  destruct (readwhenlines _ _ _) as [e|lines]; [discriminate |].
  cbn [bind]. intros [= <-]. repeat split.
Qed.

(** Every update procedure of a heterogeneous array does the same, and
    assigns to its parameter [dat], of mode [in]. *)
Lemma array_update_rejected node sig p cs offset :
  complexregarrayupdate node sig = ok p →
  is_local p "offs" = false
  ∧ analyse p
    = [Undeclared "offs"; NotAssignable "dat"; Undeclared "offs"]
  ∧ run cs p offset = raise (Undeclared "offs").
Proof.
  unfold complexregarrayupdate.
  destruct (updatewhenlines _ _ _ _) as [e|lines]; [destruct sig; discriminate |].
  destruct sig; cbn [fnclass bind]; intros [= <-]; repeat split.
Qed.

Lemma run_pstmt_SetInt cs p st x e v :
  eval cs (st_ints st) e = Some v →
  in_declared_range cs p x v = true →
  run_pstmt cs p st (SetInt x e)
  = ok {| st_ints := <[x := v]> (st_ints st);
          st_success := st_success st; st_selected := st_selected st |}.
Proof.
  intros He Hr. unfold run_pstmt. cbn [exec_pstmt]. rewrite He.
  cbn [st_ints]. rewrite lookup_insert_eq, Hr. reflexivity.
Qed.

Ltac run_SetInt v :=
  lazymatch goal with
  | |- context [run_pstmt ?cs ?p ?st (SetInt ?x ?e)] =>
      let L := fresh "L" in
      pose proof (run_pstmt_SetInt cs p st x e v) as L;
      rewrite L; clear L
  end.

(** With [offs] declared in the place of [ofs], the read procedure has
    no fault and a call of it is the run of its statements, as long as
    the index is in the range of [idx]. *)
Lemma declared_read_runs node cs fs fc offset lines :
  const_value cs (s_name node +:+ "_FRAMESIZE") = Some fs →
  const_value cs (s_name node +:+ "_FRAMECOUNT") = Some fc →
  0 < fs → 0 ≤ offset → offset `div` fs < fc →
  readwhenlines node "ra(idx)" "offs" = ok lines →
  ∃ p, complexregarrayread node = ok p
       ∧ analyse (declare_offs p) = []
       ∧ run cs (declare_offs p) offset
         = ok (dispatched cs fs offset lines).
Proof.
  intros Hfs Hfc Hpos Hoff Hidx Hl.
  unfold complexregarrayread. rewrite Hl. cbn [bind].
  eexists. split; [reflexivity |]. split; [reflexivity |].
  unfold run. change (analyse _) with (@nil fault).
  set (p := declare_offs _). cbn [p_body declare_offs] in p |- *.
  assert (Hi : in_declared_range cs p "idx" (offset `div` fs) = true).
  { unfold in_declared_range. cbn -[Z.leb Z.sub Z.div]. rewrite Hfc.
    pose proof (Z.div_pos offset fs Hoff Hpos).
    rewrite !andb_true_r. apply andb_true_iff. rewrite !Z.leb_le. lia. }
  assert (Ho : in_declared_range cs p "offs" (offset `mod` fs) = true).
  { unfold in_declared_range. cbn -[Z.leb Z.sub Z.modulo]. rewrite Hfs.
    pose proof (Z.mod_pos_bound offset fs Hpos).
    rewrite !andb_true_r. apply andb_true_iff. rewrite !Z.leb_le. lia. }
  subst p. cbn [p_body declare_offs run_body].
  run_SetInt (offset `div` fs);
    [| apply eval_div_const;
       [apply lookup_singleton_eq | assumption..] | exact Hi].
  unfold ok at 1. cbn [bind].
  run_SetInt (offset `mod` fs);
    [| apply eval_mod_const; cbn [st_ints];
       [rewrite lookup_insert_ne by discriminate; apply lookup_singleton_eq
       | assumption..] | exact Ho].
  unfold run_pstmt, ok.
  cbn [exec_pstmt st_ints st_success st_selected bind].
  rewrite lookup_insert_eq. reflexivity.
Qed.

(** The procedures of the whole register file under the rules: the
    read dispatches on [offs], which is not declared, and the updates
    assign to [dat], of mode [in]. *)
Lemma regfile_rejected c cs offset :
  (∀ p, regfileread c = ok p →
        run cs p offset = raise (Undeclared "offs"))
  ∧ (∀ sig p, regfileupdate c sig = ok p →
              run cs p offset = raise (NotAssignable "dat")).
Proof.
  split.
  - intros p. unfold regfileread.
    destruct (readwhenlines _ _ _) as [e|lines]; [discriminate |].
    cbn [bind]. now intros [= <-].
  - intros sig p. unfold regfileupdate.
    destruct (updatewhenlines _ _ _ _) as [e|lines];
      [destruct sig; discriminate |].
    destruct sig; cbn [fnclass bind]; now intros [= <-].
Qed.

(** The scenario with [offs] declared: the call at 12 gives index 1,
    intra-offset 4 and the read of [B]. *)
Example declared_read_at_12 :
  let node := scope_of_entity ab_array in
  let cs := declared (visit_entity_addr ab_array) in
  ∃ p st, complexregarrayread node = ok p
          ∧ run cs (declare_offs p) 12 = ok st
          ∧ st_ints st !! "idx" = Some 1
          ∧ st_ints st !! "offs" = Some 4
          ∧ st_selected st = Some (ReadReg "B" "ra(idx)" "B").
Proof.
  intros node cs.
  destruct (declared_read_runs node cs 8 8 12
              [ (OnConst "A_ADDR", ReadReg "A" "ra(idx)" "A");
                (OnConst "B_ADDR", ReadReg "B" "ra(idx)" "B");
                others_line ]
              eq_refl eq_refl ltac:(lia) ltac:(lia) ltac:(reflexivity)
              eq_refl)
    as (p & Hp & _ & Hrun).
  exists p, (dispatched cs 8 12
               [ (OnConst "A_ADDR", ReadReg "A" "ra(idx)" "A");
                 (OnConst "B_ADDR", ReadReg "B" "ra(idx)" "B");
                 others_line ]).
  split; [exact Hp |]. split; [exact Hrun |].
  split; [apply dispatched_idx |]. split; [apply dispatched_offs |].
  reflexivity.
Qed.

(** The range of [idx] is bounded by the constant [_FRAMECOUNT], which
    holds the frame size: in an array of four frames of two words, the
    index 3 of the last frame is out of the range, also with [offs]
    declared. *)
Example narrow_array_index_out_of_range :
  let node := scope_of_entity narrow_array in
  let cs := declared (visit_entity_addr narrow_array) in
  const_value cs "NA_FRAMECOUNT" = Some 2
  ∧ ∃ p, complexregarrayread node = ok p
         ∧ run cs (declare_offs p) 6 = raise (OutOfRange "idx" 3).
Proof.
  intros node cs. split; [reflexivity |]. eexists. split; reflexivity.
Qed.

(** C2.  The array of the specification's scenario, four frames of
    eight words with [A] at offset 0 and [B] at offset 4, and the flat
    offset 12.  The generated read and update procedures declare the
    locals [idx] and [ofs], and assign and dispatch on [offs], which no
    declaration makes visible; the update procedures also assign to
    [dat], a parameter of mode [in].  Under the rules of VHDL a call of
    them has no result, where the claim asks for index 1, intra-offset
    4 and the alternative of [B]. *)
Theorem C2_array_procedures_at_12 :
  let node := scope_of_entity ab_array in
  let cs := declared (visit_entity_addr ab_array) in
  const_value cs "RA_FRAMESIZE" = Some 8
  ∧ (∃ p, complexregarrayread node = ok p
          ∧ map fst (p_locals p) = ["idx"; "ofs"]
          ∧ analyse p = [Undeclared "offs"; Undeclared "offs"]
          ∧ run cs p 12 = raise (Undeclared "offs"))
  ∧ (∀ sig,
       ∃ p, complexregarrayupdate node sig = ok p
            ∧ map fst (p_locals p) = ["idx"; "ofs"]
            ∧ analyse p
              = [Undeclared "offs"; NotAssignable "dat"; Undeclared "offs"]
            ∧ run cs p 12 = raise (Undeclared "offs")).
Proof.
  intros node cs. split; [reflexivity |]. split.
  - eexists. repeat split; reflexivity.
  - intros [|]; eexists; repeat split; reflexivity.
Qed.

(** *** The default branch *)

Lemma has_others_app l1 l2 :
  has_others (l1 ++ l2) = has_others l1 || has_others l2.
Proof. apply existsb_app. Qed.

Lemma existsb_map {A B} (f : B → bool) (g : A → B) l :
  existsb f (map g l) = existsb (λ a, f (g a)) l.
Proof. induction l as [|a l IH]; cbn; [reflexivity | now rewrite IH]. Qed.

Lemma select_app_none cs v l1 l2 :
  select cs v l1 = None → select cs v (l1 ++ l2) = select cs v l2.
Proof.
  induction l1 as [|[c a] l1 IH]; cbn [select app]; [reflexivity |].
  destruct (matches cs v c); [discriminate | exact IH].
Qed.

(** What the loop of [_readwhenlines] adds to its state: alternatives
    for the readable children only, none of them a default branch, and
    the flag [gaps] when something was left out. *)
Lemma read_loop_spec base offset n it :
  ∀ wl g wl' g',
    read_loop base offset n it wl g = ok (wl', g') →
    ∃ new,
      wl' = wl ++ new
      ∧ has_others new = false
      ∧ g' = g || existsb excluded_for_read it
      ∧ ∀ cs v,
          (∀ e p sz, (Some e, p, sz) ∈ it → missed cs v e) →
          select cs v new = None.
Proof.
  induction it as [|[[o p] sz] it IH]; intros wl g wl' g'.
  - cbn. intros [= <- <-]. exists []. rewrite app_nil_r, orb_false_r. auto.
  - cbn [read_loop existsb]. unfold excluded_for_read at 1. cbn [fst].
    assert (Hskip : read_loop base offset n it wl true = ok (wl', g') →
                    ∃ new, wl' = wl ++ new ∧ has_others new = false
                           ∧ g' = g || (true || existsb excluded_for_read it)
                           ∧ ∀ cs v,
                               (∀ e p0 sz0, (Some e, p0, sz0) ∈ (o, p, sz) :: it →
                                  missed cs v e) →
                               select cs v new = None).
    { intros H. destruct (IH _ _ _ _ H) as (new & -> & Ho & -> & Hsel).
      exists new. rewrite orb_true_r. repeat split; auto.
      intros cs v Hm. apply Hsel. intros e p0 sz0 Hin.
      apply (Hm e p0 sz0). now right. }
    destruct o as [e|]; [| exact Hskip].
    destruct (e_writeOnly e) eqn:Hwo; [exact Hskip |]. clear Hskip.
    destruct e as [r|nm id off size fsz fc ro wo sp|cl nm id ro wo];
      [| | discriminate];
      intros H; destruct (IH _ _ _ _ H) as (new & -> & Ho & -> & Hsel);
      eexists (_ :: new); rewrite <- app_assoc; (split; [reflexivity |]);
      cbn [orb]; (split; [exact Ho |]); (split; [reflexivity |]);
      intros cs v Hm; cbn [select];
      pose proof (Hm _ p sz (list_elem_of_here _ _)) as Hhead;
      cbn [missed choice_of] in Hhead; rewrite Hhead;
      apply Hsel; intros e' p0 sz0 Hin; apply (Hm e' p0 sz0); now right.
Qed.

Lemma update_loop_spec fn base offset n it :
  ∀ wl g wl' g',
    update_loop fn base offset n it wl g = ok (wl', g') →
    ∃ new,
      wl' = wl ++ new
      ∧ has_others new = false
      ∧ g' = g || existsb excluded_for_update it.
Proof.
  induction it as [|[[o p] sz] it IH]; intros wl g wl' g'.
  - cbn. intros [= <- <-]. exists []. rewrite app_nil_r, orb_false_r. auto.
  - cbn [update_loop existsb]. unfold excluded_for_update at 1. cbn [fst].
    assert (Hskip : update_loop fn base offset n it wl true = ok (wl', g') →
                    ∃ new, wl' = wl ++ new ∧ has_others new = false
                           ∧ g' = g || (true || existsb excluded_for_update it)).
    { intros H. destruct (IH _ _ _ _ H) as (new & -> & Ho & ->).
      exists new. rewrite orb_true_r. auto. }
    destruct o as [e|]; [| exact Hskip].
    destruct (e_readOnly e) eqn:Hro; [exact Hskip |]. clear Hskip.
    destruct e as [r|nm id off size fsz fc ro wo sp|cl nm id ro wo];
      [| | discriminate];
      intros H; destruct (IH _ _ _ _ H) as (new & -> & Ho & ->);
      eexists (_ :: new); rewrite <- app_assoc; (split; [reflexivity |]);
      cbn [orb]; (split; [exact Ho | reflexivity]).
Qed.

(** The read dispatch has the default branch exactly when the space has
    a gap or a write-only child. *)
Lemma read_others_iff node base offset lines :
  readwhenlines node base offset = ok lines →
  has_others lines = existsb read_excluded (s_space node).
Proof.
  unfold readwhenlines.
  destruct (read_loop _ _ _ _ _ _) as [e|[wl g]] eqn:E; [discriminate |].
  cbn [bind]. intros [= <-].
  destruct (read_loop_spec _ _ _ _ _ _ _ _ E) as (new & -> & Ho & -> & _).
  cbn [app orb]. rewrite existsb_map.
  change (λ a : slot entity, excluded_for_read (obj a, pos a, size a))
    with read_excluded.
  destruct (existsb read_excluded (s_space node)); [| exact Ho].
  rewrite has_others_app, Ho. reflexivity.
Qed.

(** The update dispatch has the default branch exactly when the space
    has a read-only child: the enumeration it loops over has no gaps. *)
Lemma update_others_iff node base offset sig lines :
  updatewhenlines node base offset sig = ok lines →
  has_others lines = existsb e_readOnly (objects (s_space node)).
Proof.
  unfold updatewhenlines.
  destruct (update_loop _ _ _ _ _ _ _) as [e|[wl g]] eqn:E; [discriminate |].
  cbn [bind]. intros [= <-].
  destruct (update_loop_spec _ _ _ _ _ _ _ _ _ E) as (new & -> & Ho & ->).
  cbn [app orb]. unfold objects. rewrite !existsb_map.
  assert (Heq : existsb (λ a : entity * Z * Z,
                   excluded_for_update (let '(child, p, sz) := a in
                                        (Some child, p, sz)))
                  (items (s_space node))
                = existsb (λ a : entity * Z * Z, e_readOnly a.1.1)
                    (items (s_space node))).
  { clear. induction (items (s_space node)) as [|[[c p] sz] l IH];
      [reflexivity |]. cbn [existsb]. now rewrite IH. }
  rewrite Heq. clear Heq E.
  destruct (existsb (λ a : entity * Z * Z, e_readOnly a.1.1)
              (items (s_space node))); [| exact Ho].
  rewrite has_others_app, Ho. reflexivity.
Qed.

(** *** Addresses in a gap *)

Lemma covers_after {A} (sp : space A) from total s :
  covers sp from total → s ∈ sp → from ≤ pos s ∧ 0 < size s.
Proof.
  revert from. induction sp as [|h sp IH]; intros from Hc Hin.
  - inversion Hin.
  - destruct Hc as (Hp & Hs & Hrest).
    apply elem_of_cons in Hin as [->|Hin]; [lia |].
    destruct (IH _ Hrest Hin). lia.
Qed.

Lemma covers_le {A} (sp : space A) from total :
  covers sp from total → from ≤ total.
Proof.
  revert from. induction sp as [|h sp IH]; intros from Hc.
  - cbn in Hc. lia.
  - destruct Hc as (Hp & Hs & Hrest). apply IH in Hrest. lia.
Qed.

Lemma covers_within {A} (sp : space A) from total s :
  covers sp from total → s ∈ sp → pos s + size s ≤ total.
Proof.
  revert from. induction sp as [|h sp IH]; intros from Hc Hin.
  - inversion Hin.
  - destruct Hc as (Hp & Hs & Hrest).
    apply elem_of_cons in Hin as [->|Hin]; [| eauto].
    apply covers_le in Hrest. lia.
Qed.

(** Two slots of a covering space that share an address are the same
    slot. *)
Lemma covers_disjoint {A} (sp : space A) from total s1 s2 v :
  covers sp from total → s1 ∈ sp → s2 ∈ sp →
  pos s1 ≤ v < pos s1 + size s1 → pos s2 ≤ v < pos s2 + size s2 →
  s1 = s2.
Proof.
  revert from. induction sp as [|h sp IH]; intros from Hc H1 H2 V1 V2.
  - inversion H1.
  - destruct Hc as (Hp & Hs & Hrest).
    apply elem_of_cons in H1 as [->|H1], H2 as [->|H2].
    + reflexivity.
    + destruct (covers_after _ _ _ _ Hrest H2). lia.
    + destruct (covers_after _ _ _ _ Hrest H1). lia.
    + eauto.
Qed.

(** An address in a gap is outside the choice of every child. *)
Lemma gap_missed cs sp total v :
  covers sp 0 total → consts_agree cs sp → in_gap sp v →
  ∀ e p sz, (Some e, p, sz) ∈ map (λ s, (obj s, pos s, size s)) sp →
            missed cs v e.
Proof.
  intros Hc Ha (g & Hg & Hgap & Hv) e p sz Hin.
  apply list_elem_of_fmap in Hin as (s & [= Ho -> ->] & Hs).
  symmetry in Ho. pose proof (Ha s e Hs Ho) as Hcs.
  assert (Hout : ¬ (pos s ≤ v < pos s + size s)).
  { intros Hvs. pose proof (covers_disjoint _ _ _ _ _ _ Hc Hg Hs Hv Hvs).
    congruence. }
  destruct (covers_after _ _ _ _ Hc Hs) as [_ Hsz].
  destruct e as [r|nm id off size fsz fc ro wo sp'|cl nm id ro wo];
    cbn [missed choice_of matches e_name]; [| | exact I].
  - rewrite Hcs. apply Z.eqb_neq. lia.
  - destruct Hcs as [-> ->]. apply andb_false_iff.
    rewrite Z.leb_gt, Z.leb_gt. lia.
Qed.

(** Reading at an address inside a gap selects the default branch. *)
Lemma read_in_gap node cs base offset lines total v :
  readwhenlines node base offset = ok lines →
  covers (s_space node) 0 total → consts_agree cs (s_space node) →
  in_gap (s_space node) v →
  select cs v lines = Some ClearSuccess.
Proof.
  unfold readwhenlines. intros Hl Hc Ha Hgap.
  destruct (read_loop _ _ _ _ _ _) as [e|[wl g]] eqn:E; [discriminate |].
  cbn [bind] in Hl. injection Hl as <-.
  destruct (read_loop_spec _ _ _ _ _ _ _ _ E) as (new & -> & Ho & -> & Hsel).
  assert (Hg : existsb excluded_for_read
                 (map (λ s, (obj s, pos s, size s)) (s_space node)) = true).
  { destruct Hgap as (g & Hg & Hgap & _). apply existsb_exists.
    exists (obj g, pos g, size g). split.
    - apply list_elem_of_In, list_elem_of_fmap. eauto.
    - unfold excluded_for_read. cbn [fst]. now rewrite Hgap. }
  rewrite Hg. cbn [orb app].
  rewrite select_app_none by (apply Hsel; eapply gap_missed; eauto).
  reflexivity.
Qed.

(** In a heterogeneous array, reading at a flat offset whose
    intra-offset lies in a gap of the frame clears the success flag. *)
Lemma array_read_in_gap node cs fs offset lines total :
  const_value cs (s_name node +:+ "_FRAMESIZE") = Some fs →
  0 < fs → 0 ≤ offset →
  readwhenlines node "ra(idx)" "offs" = ok lines →
  covers (s_space node) 0 total → consts_agree cs (s_space node) →
  in_gap (s_space node) (offset `mod` fs) →
  ∃ p st, complexregarrayread node = ok p
          ∧ call cs p offset = Some st
          ∧ st_success st = Some false.
Proof.
  intros Hfs Hpos Hoff Hl Hc Ha Hgap.
  destruct (complexregarrayread_call node cs fs offset lines
              Hfs Hpos Hoff Hl) as (p & Hp & Hcall).
  exists p, (dispatched cs fs offset lines). repeat split; try assumption.
  cbn [dispatched st_success].
  now rewrite (read_in_gap _ _ _ _ _ _ _ Hl Hc Ha Hgap).
Qed.

(** The read of the whole register file of a component does not run:
    its [case] is on [offs], and the procedure has only [offset]. *)
Lemma regfileread_stuck c cs p offset :
  regfileread c = ok p → call cs p offset = None.
Proof.
  unfold regfileread.
  destruct (readwhenlines _ _ _) as [e|lines]; [discriminate |].
  cbn [bind]. intros [= <-]. reflexivity.
Qed.

(** C7.  The component with a two-word gap between two read-write
    registers: its space has a slot that the update dispatch should
    leave out, the read dispatch has the default branch, and the update
    dispatches have none; an update at address 1, inside the gap, selects
    no alternative and leaves [success] true. *)
Theorem C7_update_dispatch_without_others :
  let node := scope_of_component gap_component in
  let cs := declared (visit_Component_addr gap_component) in
  existsb update_excluded (s_space node) = true
  ∧ (∃ lines, readwhenlines node "reg" "offset" = ok lines
              ∧ has_others lines = true)
  ∧ (∀ sig, ∃ lines, updatewhenlines node "reg" "offset" sig = ok lines
                     ∧ has_others lines = false)
  ∧ (∃ p st, regfileupdate gap_component false = ok p
             ∧ call cs p 1 = Some st
             ∧ st_selected st = None
             ∧ st_success st = Some true).
Proof.
  intros node cs. split; [reflexivity |]. split; [| split].
  - eexists. split; reflexivity.
  - intros [|]; eexists; split; reflexivity.
  - eexists _, _. repeat split; reflexivity.
Qed.

End DispatchFacts.

(** ** What a dispatch does at every address *)

Section DispatchAt.
Import Space Vhdl.

Lemma omap_cons {A B} (f : A → option B) x l :
  omap f (x :: l) = match f x with
                    | Some y => y :: omap f l
                    | None => omap f l
                    end.
Proof. reflexivity. Qed.

(** The loop of [_readwhenlines] in closed form: one alternative per
    readable child, in the order of the space. *)
Lemma read_loop_lines base offset n sp :
  dispatchable readable_child sp = true →
  ∀ wl g,
    read_loop base offset n (map (λ s, (obj s, pos s, size s)) sp) wl g
    = ok (wl ++ omap (slot_line readable_child (read_line base offset)) sp,
          g || existsb read_excluded sp).
Proof.
  induction sp as [|s sp IH]; intros Hd wl g.
  - cbn. now rewrite app_nil_r, orb_false_r.
  - cbn [dispatchable forallb] in Hd. apply andb_prop in Hd as [Hs Hd].
    cbn [map read_loop existsb]. rewrite omap_cons.
    unfold slot_line at 1, read_excluded at 1, readable_child at 1.
    unfold readable_child at 1 in Hs.
    destruct (obj s) as [e|].
    + destruct (e_writeOnly e) eqn:Hwo; cbn [negb].
      * rewrite (IH Hd). now rewrite !orb_true_r.
      * destruct e as [r|nm id off size fsz fc ro wo sp'|cl nm id ro wo];
          cbn [read_line]; cbn in Hs;
          [| | discriminate]; rewrite (IH Hd), <- app_assoc; reflexivity.
    + rewrite (IH Hd). now rewrite !orb_true_r.
Qed.

Lemma read_lines node base offset :
  dispatchable readable_child (s_space node) = true →
  readwhenlines node base offset
  = ok (omap (slot_line readable_child (read_line base offset)) (s_space node)
        ++ (if existsb read_excluded (s_space node)
            then [others_line] else [])).
Proof.
  intros Hd. unfold readwhenlines. rewrite (read_loop_lines _ _ _ _ Hd).
  cbn [bind app orb].
  destruct (existsb read_excluded (s_space node));
    [reflexivity | now rewrite app_nil_r].
Qed.

(** The loop of [_updatewhenlines] in closed form. *)
Lemma update_loop_lines fn base offset n sp :
  dispatchable writable_child sp = true →
  ∀ wl g,
    update_loop fn base offset n
      (map (λ '(child, p, sz), (Some child, p, sz)) (items sp)) wl g
    = ok (wl ++ omap (slot_line writable_child (update_line fn base offset)) sp,
          g || existsb e_readOnly (objects sp)).
Proof.
  induction sp as [|s sp IH]; intros Hd wl g.
  - cbn. now rewrite app_nil_r, orb_false_r.
  - cbn [dispatchable forallb] in Hd. apply andb_prop in Hd as [Hs Hd].
    specialize (IH Hd).
    unfold objects, items in *. rewrite !omap_cons.
    unfold slot_line at 1, writable_child at 1.
    unfold writable_child at 1 in Hs.
    destruct (obj s) as [e|]; [| apply IH].
    cbn [map update_loop existsb fst].
    destruct (e_readOnly e) eqn:Hro; cbn [negb].
    + rewrite IH. now rewrite !orb_true_r.
    + destruct e as [r|nm id off size fsz fc ro wo sp'|cl nm id ro wo];
        cbn [update_line]; cbn in Hs;
        [| | discriminate]; rewrite IH, <- app_assoc; reflexivity.
Qed.

Lemma update_lines node base offset sig :
  dispatchable writable_child (s_space node) = true →
  updatewhenlines node base offset sig
  = ok (omap (slot_line writable_child
                (update_line (fnclass sig).1 base offset)) (s_space node)
        ++ (if existsb e_readOnly (objects (s_space node))
            then [others_line] else [])).
Proof.
  intros Hd. unfold updatewhenlines. rewrite (update_loop_lines _ _ _ _ _ Hd).
  cbn [bind app orb].
  destruct (existsb e_readOnly (objects (s_space node)));
    [reflexivity | now rewrite app_nil_r].
Qed.

Section at_an_address.
Variable keep : entity → bool.
Variable line : entity → option whenline.
Variable cs : list (string * Z).
Hypothesis line_choice : ∀ e w, line e = Some w → w.1 = choice_of e.
Hypothesis line_other : ∀ e, is_other e = true → line e = None.

Lemma consts_agree_tail s sp :
  consts_agree cs (s :: sp) → consts_agree cs sp.
Proof. intros H x e Hx. apply H. now right. Qed.

(** The alternative of a slot does not cover an address outside the
    slot. *)
Lemma slot_line_misses sp s v c a :
  consts_agree cs sp → s ∈ sp → 0 < size s →
  ¬ (pos s ≤ v < pos s + size s) →
  slot_line keep line s = Some (c, a) → matches cs v c = false.
Proof.
  intros Ha Hs Hsz Hout. unfold slot_line.
  destruct (obj s) as [e|] eqn:Ho; [| discriminate].
  destruct (keep e); [| discriminate]. intros Hl.
  pose proof (line_choice _ _ Hl) as Hc. cbn [fst] in Hc. subst c.
  pose proof (Ha s e Hs Ho) as Hcs.
  destruct e as [r|nm id off sz fsz fc ro wo sp'|cl nm id ro wo].
  - cbn [choice_of matches e_name]. rewrite Hcs. apply Z.eqb_neq. lia.
  - destruct Hcs as [Hb Hl']. cbn [choice_of matches e_name].
    rewrite Hb, Hl'. apply andb_false_iff. rewrite !Z.leb_gt. lia.
  - rewrite line_other in Hl by reflexivity. discriminate.
Qed.

(** The alternatives of the slots above an address do not cover it. *)
Lemma select_above sp from total v rest :
  covers sp from total → consts_agree cs sp → v < from →
  select cs v (omap (slot_line keep line) sp ++ rest) = select cs v rest.
Proof.
  revert from. induction sp as [|s sp IH]; intros from Hc Ha Hv;
    [reflexivity |].
  destruct Hc as (Hp & Hsz & Hrest). rewrite omap_cons.
  destruct (slot_line keep line s) as [[c a]|] eqn:Hl.
  - cbn [app select].
    rewrite (slot_line_misses (s :: sp) s v c a Ha (list_elem_of_here _ _) Hsz)
      by (assumption || lia).
    apply (IH _ Hrest (consts_agree_tail _ _ Ha)). lia.
  - apply (IH _ Hrest (consts_agree_tail _ _ Ha)). lia.
Qed.

(** At an address of a slot, the dispatch is decided by the alternative
    of that slot. *)
Lemma select_at sp from total s v rest :
  covers sp from total → consts_agree cs sp → s ∈ sp →
  pos s ≤ v < pos s + size s →
  select cs v (omap (slot_line keep line) sp ++ rest)
  = match slot_line keep line s with
    | Some (c, a) => if matches cs v c then Some a else select cs v rest
    | None => select cs v rest
    end.
Proof.
  revert from. induction sp as [|x sp IH]; intros from Hc Ha Hs Hv;
    [inversion Hs |].
  destruct Hc as (Hp & Hsz & Hrest).
  destruct (decide (pos x ≤ v < pos x + size x)) as [Hin|Hout].
  - assert (x = s) as ->.
    { apply (covers_disjoint (x :: sp) from total x s v);
        [exact (conj Hp (conj Hsz Hrest)) | apply list_elem_of_here
        | exact Hs | exact Hin | exact Hv]. }
    rewrite omap_cons. destruct (slot_line keep line s) as [[c a]|].
    + cbn [app select]. destruct (matches cs v c); [reflexivity |].
      apply (select_above _ _ _ _ _ Hrest (consts_agree_tail _ _ Ha)). lia.
    + apply (select_above _ _ _ _ _ Hrest (consts_agree_tail _ _ Ha)). lia.
  - apply elem_of_cons in Hs as [->|Hs]; [contradiction |].
    rewrite omap_cons. destruct (slot_line keep line x) as [[c a]|] eqn:Hl.
    + cbn [app select].
      rewrite (slot_line_misses (x :: sp) x v c a Ha (list_elem_of_here _ _) Hsz)
        by assumption.
      apply (IH _ Hrest (consts_agree_tail _ _ Ha) Hs Hv).
    + apply (IH _ Hrest (consts_agree_tail _ _ Ha) Hs Hv).
Qed.

End at_an_address.

(** A child of another class that the dispatch does not leave out
    makes the generator raise. *)
Lemma read_loop_raises base offset n sp :
  dispatchable readable_child sp = false →
  ∀ wl g, ∃ msg,
    read_loop base offset n (map (λ s, (obj s, pos s, size s)) sp) wl g
    = raise (ValueError msg).
Proof.
  induction sp as [|s sp IH]; intros Hd wl g; [discriminate |].
  cbn [dispatchable forallb] in Hd. cbn [map read_loop].
  unfold readable_child at 1 in Hd.
  destruct (obj s) as [e|]; [| apply (IH Hd)].
  destruct (e_writeOnly e) eqn:Hwo; [apply (IH Hd) |].
  destruct e as [r|nm id off size fsz fc ro wo sp'|cl nm id ro wo];
    [apply (IH Hd) | apply (IH Hd) | eauto].
Qed.

Lemma update_loop_raises fn base offset n sp :
  dispatchable writable_child sp = false →
  ∀ wl g, ∃ msg,
    update_loop fn base offset n
      (map (λ '(child, p, sz), (Some child, p, sz)) (items sp)) wl g
    = raise (ValueError msg).
Proof.
  induction sp as [|s sp IH]; intros Hd wl g; [discriminate |].
  cbn [dispatchable forallb] in Hd. unfold items in *. rewrite omap_cons.
  unfold writable_child at 1 in Hd.
  destruct (obj s) as [e|]; [| apply (IH Hd)].
  cbn [map update_loop].
  destruct (e_readOnly e) eqn:Hro; [apply (IH Hd) |].
  destruct e as [r|nm id off size fsz fc ro wo sp'|cl nm id ro wo];
    [apply (IH Hd) | apply (IH Hd) | eauto].
Qed.

Lemma read_ok_dispatchable node base offset lines :
  readwhenlines node base offset = ok lines →
  dispatchable readable_child (s_space node) = true.
Proof.
  intros H. destruct (dispatchable _ _) eqn:Hd; [reflexivity |].
  unfold readwhenlines in H.
  destruct (read_loop_raises base offset (s_name node) _ Hd [] false)
    as [msg E].
  rewrite E in H. discriminate H.
Qed.

Lemma update_ok_dispatchable node base offset sig lines :
  updatewhenlines node base offset sig = ok lines →
  dispatchable writable_child (s_space node) = true.
Proof.
  intros H. destruct (dispatchable _ _) eqn:Hd; [reflexivity |].
  unfold updatewhenlines in H.
  destruct (update_loop_raises (fnclass sig).1 base offset (s_name node)
              _ Hd [] false) as [msg E].
  rewrite E in H. discriminate H.
Qed.

Lemma read_line_choice base offset e w :
  read_line base offset e = Some w → w.1 = choice_of e.
Proof. now destruct e; intros [= <-]. Qed.

Lemma update_line_choice fn base offset e w :
  update_line fn base offset e = Some w → w.1 = choice_of e.
Proof. now destruct e; intros [= <-]. Qed.

Lemma read_line_other base offset e :
  is_other e = true → read_line base offset e = None.
Proof. now destruct e. Qed.

Lemma update_line_other fn base offset e :
  is_other e = true → update_line fn base offset e = None.
Proof. now destruct e. Qed.

Lemma select_others cs v b :
  select cs v (if b : bool then [others_line] else [])
  = if b then Some ClearSuccess else None.
Proof. now destruct b. Qed.

(** X6.  The read dispatch of a component or of an array has the
    default branch [when others => success := false;] exactly when its
    space has a gap or a write-only child. *)
Theorem read_dispatch_default_branch node base offset lines :
  readwhenlines node base offset = ok lines →
  has_others lines = existsb read_excluded (s_space node).
Proof. apply read_others_iff. Qed.

Lemma read_dispatch_default_branch_witness :
  has_others
    [ (OnConst "STATUS_ADDR", ReadReg "STATUS" "reg" "STATUS");
      (OnRange "CH_BASEADDR" "CH_LASTADDR",
       ReadArr "CH" "offset" "reg" "CH");
      others_line ]
  = existsb read_excluded (c_space mixed_component).
Proof.
  apply (read_dispatch_default_branch
           (scope_of_component mixed_component) "reg" "offset").
  reflexivity.
Defined.

(** X7.  The update dispatch has the default branch exactly when its
    space has a read-only child; a gap alone does not give it one. *)
Theorem update_dispatch_default_branch node base offset sig lines :
  updatewhenlines node base offset sig = ok lines →
  has_others lines = existsb e_readOnly (objects (s_space node)).
Proof. apply update_others_iff. Qed.

Lemma update_dispatch_default_branch_witness :
  has_others
    [ (OnConst "A_ADDR", UpdateReg "UPDATE" "A" "reg" "A");
      (OnConst "B_ADDR", UpdateReg "UPDATE" "B" "reg" "B") ]
  = existsb e_readOnly (objects (c_space gap_component)).
Proof.
  apply (update_dispatch_default_branch
           (scope_of_component gap_component) "reg" "offset" false).
  reflexivity.
Defined.

(** X8.  In a space that covers its range, with the address constants
    at the positions of the children: the read dispatch selects, at the
    address of a readable register, the conversion of that register,
    and at every address of a readable array, the read procedure of the
    array. *)
Theorem read_dispatch_at_child node cs base offset lines total s e v :
  readwhenlines node base offset = ok lines →
  covers (s_space node) 0 total → consts_agree cs (s_space node) →
  s ∈ s_space node → obj s = Some e → e_writeOnly e = false →
  pos s ≤ v < pos s + size s →
  select cs v lines
  = match e with
    | EReg r =>
        if v =? pos s then Some (ReadReg (r_name r) base (r_identifier r))
        else fallback lines
    | EArr n i _ _ _ _ _ _ _ => Some (ReadArr n offset base i)
    | EOther _ _ _ _ _ => None
    end.
Proof.
  intros Hl Hc Ha Hs Ho Hwo Hv.
  pose proof (read_ok_dispatchable _ _ _ _ Hl) as Hd.
  pose proof (read_others_iff _ _ _ _ Hl) as Hoth. unfold fallback.
  rewrite Hoth. rewrite (read_lines _ _ _ Hd) in Hl. injection Hl as <-.
  rewrite (select_at readable_child (read_line base offset) cs
             (read_line_choice base offset) (read_line_other base offset)
             _ _ _ s v _ Hc Ha Hs Hv).
  pose proof (Ha s e Hs Ho) as Hcs.
  unfold slot_line, readable_child. rewrite Ho, Hwo. cbn [negb].
  rewrite select_others.
  destruct e as [r|nm id off sz fsz fc ro wo sp'|cl nm id ro wo].
  - cbn [read_line choice_of matches e_name e_identifier]. now rewrite Hcs.
  - destruct Hcs as [Hb Hla].
    cbn [read_line choice_of matches e_name e_identifier]. rewrite Hb, Hla.
    replace ((pos s <=? v) && (v <=? pos s + size s - 1)) with true;
      [reflexivity |].
    symmetry. apply andb_true_iff. rewrite !Z.leb_le. lia.
  - exfalso. unfold dispatchable in Hd. rewrite forallb_forall in Hd.
    apply list_elem_of_In in Hs. specialize (Hd s Hs).
    unfold readable_child in Hd. rewrite Ho in Hd. cbn in Hd, Hwo.
    rewrite Hwo in Hd. discriminate Hd.
Qed.

(** The sample component is well laid out. *)
Lemma mixed_component_covers : covers (c_space mixed_component) 0 8.
Proof. cbn. repeat split; lia. Qed.

Lemma mixed_component_consts :
  consts_agree (declared (visit_Component_addr mixed_component))
               (c_space mixed_component).
Proof.
  intros s e Hs Ho. cbn [c_space mixed_component] in Hs.
  repeat (apply elem_of_cons in Hs as [->|Hs]);
    [| | | | inversion Hs]; cbn in Ho; try discriminate Ho;
    injection Ho as <-; cbn; auto.
Qed.

Lemma gap_component_covers : covers (c_space gap_component) 0 4.
Proof. cbn. repeat split; lia. Qed.

Lemma gap_component_consts :
  consts_agree (declared (visit_Component_addr gap_component))
               (c_space gap_component).
Proof.
  intros s e Hs Ho. cbn [c_space gap_component] in Hs.
  repeat (apply elem_of_cons in Hs as [->|Hs]);
    [| | | inversion Hs]; cbn in Ho; try discriminate Ho;
    injection Ho as <-; cbn; auto.
Qed.

Lemma read_dispatch_at_child_witness :
  let cs := declared (visit_Component_addr mixed_component) in
  select cs 6
    [ (OnConst "STATUS_ADDR", ReadReg "STATUS" "reg" "STATUS");
      (OnRange "CH_BASEADDR" "CH_LASTADDR",
       ReadArr "CH" "offset" "reg" "CH");
      others_line ]
  = Some (ReadArr "CH" "offset" "reg" "CH").
Proof.
  intros cs.
  refine (read_dispatch_at_child (scope_of_component mixed_component) cs
            "reg" "offset" _ 8
            (Slot (Some (EArr "CH" "CH" 4 4 2 2 false false
                           [ Slot (Some (EReg (plain_register "A" 0))) 0 1;
                             Slot (Some (EReg (plain_register "B" 1))) 1 1 ]))
                  4 4)
            _ 6 eq_refl mixed_component_covers mixed_component_consts
            _ eq_refl eq_refl _).
  - cbn. repeat constructor.
  - cbn. lia.
Defined.

(** X9.  The dispatch generators raise [ValueError] exactly when a
    child they do not leave out is neither a register nor a register
    array: a readable one for the read dispatch, a writable one for the
    update dispatch. *)
Theorem dispatch_raises_iff node base offset :
  ((∃ msg, readwhenlines node base offset = raise (ValueError msg))
   ↔ dispatchable readable_child (s_space node) = false)
  ∧ (∀ sig,
       (∃ msg, updatewhenlines node base offset sig = raise (ValueError msg))
       ↔ dispatchable writable_child (s_space node) = false).
Proof.
  split; [| intros sig]; split.
  - intros [msg H]. destruct (dispatchable _ _) eqn:Hd; [| reflexivity].
    rewrite (read_lines _ _ _ Hd) in H. discriminate H.
  - intros Hd. unfold readwhenlines.
    destruct (read_loop_raises base offset (s_name node) _ Hd [] false)
      as [msg ->]. eauto.
  - intros [msg H]. destruct (dispatchable _ _) eqn:Hd; [| reflexivity].
    rewrite (update_lines _ _ _ _ Hd) in H. discriminate H.
  - intros Hd. unfold updatewhenlines.
    destruct (update_loop_raises (fnclass sig).1 base offset (s_name node)
                _ Hd [] false) as [msg ->]. eauto.
Qed.

(** The message of the error names the class and the name of the child
    and the scope. *)
Example odd_component_dispatch :
  readwhenlines (scope_of_component odd_component) "reg" "offset"
  = raise (ValueError "Child node Field: F of GenerateFunctionBodies: ODD")
  ∧ updatewhenlines (scope_of_component odd_component) "reg" "offset" false
    = raise (ValueError "Child node Field: F of Component ODD").
Proof. split; reflexivity. Qed.

(** X10.  Under the same conditions, the read dispatch selects the
    default branch, which clears [success], at every address of a gap
    and at every address of a write-only child. *)
Theorem read_dispatch_at_excluded node cs base offset lines total s v :
  readwhenlines node base offset = ok lines →
  covers (s_space node) 0 total → consts_agree cs (s_space node) →
  s ∈ s_space node → read_excluded s = true →
  pos s ≤ v < pos s + size s →
  select cs v lines = Some ClearSuccess.
Proof.
  intros Hl Hc Ha Hs Hex Hv.
  pose proof (read_ok_dispatchable _ _ _ _ Hl) as Hd.
  rewrite (read_lines _ _ _ Hd) in Hl. injection Hl as <-.
  rewrite (select_at readable_child (read_line base offset) cs
             (read_line_choice base offset) (read_line_other base offset)
             _ _ _ s v _ Hc Ha Hs Hv).
  assert (Hany : existsb read_excluded (s_space node) = true).
  { apply existsb_exists. exists s. split; [now apply list_elem_of_In | exact Hex]. }
  rewrite Hany. unfold slot_line, readable_child.
  unfold read_excluded in Hex. destruct (obj s) as [e|]; [| reflexivity].
  now rewrite Hex.
Qed.

Lemma read_dispatch_at_excluded_witness :
  let cs := declared (visit_Component_addr mixed_component) in
  select cs 1
    [ (OnConst "STATUS_ADDR", ReadReg "STATUS" "reg" "STATUS");
      (OnRange "CH_BASEADDR" "CH_LASTADDR",
       ReadArr "CH" "offset" "reg" "CH");
      others_line ]
  = Some ClearSuccess.
Proof.
  intros cs.
  refine (read_dispatch_at_excluded (scope_of_component mixed_component) cs
            "reg" "offset" _ 8
            (Slot (Some (EReg {| r_name := "CMD"; r_identifier := "CMD";
                                 r_offset := 1; r_width := 32;
                                 r_format := Unsigned; r_readOnly := false;
                                 r_writeOnly := true; r_space := [] |})) 1 1)
            1 eq_refl mixed_component_covers mixed_component_consts
            _ eq_refl _).
  - cbn. repeat constructor.
  - cbn. lia.
Defined.

(** X11.  The update dispatch selects, at the address of a writable
    register, the update of that register, and at every address of a
    writable array, the update procedure of the array; at every address
    of a read-only child it selects the default branch. *)
Theorem update_dispatch_at_child node cs base offset sig lines total s e v :
  updatewhenlines node base offset sig = ok lines →
  covers (s_space node) 0 total → consts_agree cs (s_space node) →
  s ∈ s_space node → obj s = Some e →
  pos s ≤ v < pos s + size s →
  select cs v lines
  = if e_readOnly e then Some ClearSuccess
    else match e with
         | EReg r =>
             if v =? pos s
             then Some (UpdateReg (fnclass sig).1 (r_name r) base
                          (r_identifier r))
             else fallback lines
         | EArr n i _ _ _ _ _ _ _ =>
             Some (UpdateArr (fnclass sig).1 n offset base i)
         | EOther _ _ _ _ _ => None
         end.
Proof.
  intros Hl Hc Ha Hs Ho Hv.
  pose proof (update_ok_dispatchable _ _ _ _ _ Hl) as Hd.
  pose proof (update_others_iff _ _ _ _ _ Hl) as Hoth. unfold fallback.
  rewrite Hoth. rewrite (update_lines _ _ _ _ Hd) in Hl. injection Hl as <-.
  rewrite (select_at writable_child (update_line (fnclass sig).1 base offset)
             cs (update_line_choice _ base offset)
             (update_line_other _ base offset)
             _ _ _ s v _ Hc Ha Hs Hv).
  pose proof (Ha s e Hs Ho) as Hcs.
  unfold slot_line, writable_child. rewrite Ho, select_others.
  destruct (e_readOnly e) eqn:Hro; cbn [negb].
  { assert (Hany : existsb e_readOnly (objects (s_space node)) = true);
      [| now rewrite Hany].
    apply existsb_exists. exists e. split; [| exact Hro].
    apply list_elem_of_In. unfold objects, items.
    apply list_elem_of_fmap. exists (e, pos s, size s). split; [reflexivity |].
    apply list_elem_of_omap. exists s. split; [exact Hs | now rewrite Ho]. }
  destruct e as [r|nm id off sz fsz fc ro wo sp'|cl nm id ro wo].
  - cbn [update_line choice_of matches e_name e_identifier]. now rewrite Hcs.
  - destruct Hcs as [Hb Hla].
    cbn [update_line choice_of matches e_name e_identifier]. rewrite Hb, Hla.
    replace ((pos s <=? v) && (v <=? pos s + size s - 1)) with true;
      [reflexivity |].
    symmetry. apply andb_true_iff. rewrite !Z.leb_le. lia.
  - exfalso. unfold dispatchable in Hd. rewrite forallb_forall in Hd.
    apply list_elem_of_In in Hs. specialize (Hd s Hs).
    unfold writable_child in Hd. rewrite Ho in Hd. cbn in Hd, Hro.
    rewrite Hro in Hd. discriminate Hd.
Qed.

Lemma update_dispatch_at_child_witness :
  let cs := declared (visit_Component_addr mixed_component) in
  select cs 0
    [ (OnConst "CMD_ADDR", UpdateReg "UPDATE" "CMD" "reg" "CMD");
      (OnRange "CH_BASEADDR" "CH_LASTADDR",
       UpdateArr "UPDATE" "CH" "offset" "reg" "CH");
      others_line ]
  = Some ClearSuccess.
Proof.
  intros cs.
  refine (update_dispatch_at_child (scope_of_component mixed_component) cs
            "reg" "offset" false _ 8
            (Slot (Some (EReg {| r_name := "STATUS"; r_identifier := "STATUS";
                                 r_offset := 0; r_width := 32;
                                 r_format := Unsigned; r_readOnly := true;
                                 r_writeOnly := false; r_space := [] |})) 0 1)
            _ 0 eq_refl mixed_component_covers mixed_component_consts
            _ eq_refl _).
  - cbn. repeat constructor.
  - cbn. lia.
Defined.

(** X12.  At an address in a gap the update dispatch has no alternative
    of its own: it selects the default branch if the space has a
    read-only child, and nothing otherwise, so that [success] stays as
    the procedure set it. *)
Theorem update_dispatch_in_gap node cs base offset sig lines total v :
  updatewhenlines node base offset sig = ok lines →
  covers (s_space node) 0 total → consts_agree cs (s_space node) →
  in_gap (s_space node) v →
  select cs v lines
  = if existsb e_readOnly (objects (s_space node))
    then Some ClearSuccess else None.
Proof.
  intros Hl Hc Ha (s & Hs & Ho & Hv).
  pose proof (update_ok_dispatchable _ _ _ _ _ Hl) as Hd.
  rewrite (update_lines _ _ _ _ Hd) in Hl. injection Hl as <-.
  rewrite (select_at writable_child (update_line (fnclass sig).1 base offset)
             cs (update_line_choice _ base offset)
             (update_line_other _ base offset)
             _ _ _ s v _ Hc Ha Hs Hv).
  unfold slot_line. rewrite Ho. apply select_others.
Qed.

Lemma update_dispatch_in_gap_witness :
  let cs := declared (visit_Component_addr gap_component) in
  select cs 2
    [ (OnConst "A_ADDR", UpdateReg "UPDATE" "A" "reg" "A");
      (OnConst "B_ADDR", UpdateReg "UPDATE" "B" "reg" "B") ]
  = if existsb e_readOnly (objects (c_space gap_component))
    then Some ClearSuccess else None.
Proof.
  intros cs.
  refine (update_dispatch_in_gap (scope_of_component gap_component) cs
            "reg" "offset" false _ 4 2 eq_refl gap_component_covers
            gap_component_consts _).
  exists (Slot None 1 2). cbn. repeat split; try lia.
  right. left.
Defined.

(** X13.  None of the dispatch procedures the generator writes is
    valid VHDL: the read and update procedures of a heterogeneous array
    and the read of the register file use [offs], which they do not
    declare, and the update of the register file assigns to [dat], a
    parameter of mode [in]. *)
Theorem dispatch_procedures_are_rejected node c cs offset :
  (∀ p, complexregarrayread node = ok p →
        run cs p offset = raise (Undeclared "offs"))
  ∧ (∀ sig p, complexregarrayupdate node sig = ok p →
              run cs p offset = raise (Undeclared "offs"))
  ∧ (∀ p, regfileread c = ok p →
          run cs p offset = raise (Undeclared "offs"))
  ∧ (∀ sig p, regfileupdate c sig = ok p →
              run cs p offset = raise (NotAssignable "dat")).
Proof.
  split; [| split; [| apply regfile_rejected]].
  - intros p Hp. now apply (array_read_rejected node p cs offset).
  - intros sig p Hp. now apply (array_update_rejected node sig p cs offset).
Qed.

End DispatchAt.


(** ** Register functions *)

Section BitFacts.
Import Vhdl.

Lemma testbit_high_zero v n i :
  0 ≤ v < 2 ^ n → 0 ≤ n → n ≤ i → Z.testbit v i = false.
Proof.
  intros Hv Hn Hi. rewrite <- (Z.mod_small v (2 ^ n)) by assumption.
  apply Z.mod_pow2_bits_high. lia.
Qed.

Lemma low_bits_bound x w :
  0 ≤ w → 0 ≤ x → (∀ i, w ≤ i → Z.testbit x i = false) → 0 ≤ x < 2 ^ w.
Proof.
  intros Hw Hx Hhigh. split; [assumption |].
  replace x with (x `mod` 2 ^ w); [apply Z.mod_pos_bound; lia |].
  apply Z.bits_inj'. intros i Hi. rewrite Z.testbit_mod_pow2 by assumption.
  destruct (Z.ltb_spec i w); [reflexivity |].
  now rewrite Hhigh by assumption.
Qed.

Lemma testbit_bits_of z H L i :
  0 ≤ i → L ≤ H + 1 →
  Z.testbit (bits_of z H L) i = (i <? H - L + 1) && Z.testbit z (i + L).
Proof.
  intros Hi Hw. unfold bits_of.
  rewrite Z.land_spec, Z.shiftr_spec, Z.testbit_ones_nonneg by lia.
  apply andb_comm.
Qed.

Lemma bits_of_bound z H L : L ≤ H + 1 → 0 ≤ bits_of z H L < 2 ^ (H - L + 1).
Proof.
  intros Hw. unfold bits_of. rewrite Z.land_ones by lia.
  apply Z.mod_pos_bound. lia.
Qed.

Lemma testbit_set_bits z H L v i :
  0 ≤ i → 0 ≤ L → L ≤ H + 1 → 0 ≤ v < 2 ^ (H - L + 1) →
  Z.testbit (set_bits z H L v) i
  = if (L <=? i) && (i <=? H) then Z.testbit v (i - L) else Z.testbit z i.
Proof.
  intros Hi HL Hw Hv. unfold set_bits.
  rewrite Z.lor_spec, Z.ldiff_spec, !Z.shiftl_spec by assumption.
  destruct (Z.leb_spec L i); cbn [andb].
  - rewrite Z.testbit_ones_nonneg by lia.
    destruct (Z.leb_spec i H).
    + replace (i - L <? H - L + 1) with true by (symmetry; apply Z.ltb_lt; lia).
      cbn [negb]. now rewrite andb_false_r.
    + replace (i - L <? H - L + 1) with false by (symmetry; apply Z.ltb_ge; lia).
      cbn [negb].
      rewrite (testbit_high_zero v (H - L + 1)) by lia.
      now rewrite andb_true_r, orb_false_r.
  - rewrite !(Z.testbit_neg_r _ (i - L)) by lia.
    cbn [negb]. now rewrite andb_true_r, orb_false_r.
Qed.

Lemma set_bits_bound z w H L v :
  0 ≤ z < 2 ^ w → 0 ≤ L → L ≤ H + 1 → H < w → 0 ≤ v < 2 ^ (H - L + 1) →
  0 ≤ set_bits z H L v < 2 ^ w.
Proof.
  intros Hz HL Hw HH Hv. apply low_bits_bound; [lia | |].
  - unfold set_bits. apply Z.lor_nonneg. split.
    + apply Z.ldiff_nonneg. lia.
    + apply Z.shiftl_nonneg. lia.
  - intros i Hi. rewrite testbit_set_bits by lia.
    replace ((L <=? i) && (i <=? H)) with false
      by (symmetry; apply andb_false_iff; right; apply Z.leb_gt; lia).
    apply (testbit_high_zero z w); lia.
Qed.

Lemma testbit_merged r dat k i :
  0 ≤ i → 0 ≤ k →
  Z.testbit (merged r dat k) i
  = if i <? k then Z.testbit dat i else Z.testbit r i.
Proof.
  intros Hi Hk. unfold merged.
  rewrite Z.lor_spec, Z.land_spec, Z.ldiff_spec, Z.testbit_ones_nonneg by lia.
  destruct (i <? k); cbn [negb].
  - now rewrite andb_true_r, andb_false_r, orb_false_r.
  - now rewrite andb_true_r, andb_false_r.
Qed.

Lemma merged_0 r dat : merged r dat 0 = r.
Proof.
  apply Z.bits_inj'. intros i Hi. rewrite testbit_merged by lia.
  now replace (i <? 0) with false by (symmetry; apply Z.ltb_ge; lia).
Qed.

(** Writing one more lane of [dat]. *)
Lemma merged_step r dat k :
  0 ≤ k →
  set_bits (merged r dat k) (k + 7) k (bits_of dat (k + 7) k)
  = merged r dat (k + 8).
Proof.
  intros Hk. apply Z.bits_inj'. intros i Hi.
  rewrite testbit_set_bits by (try lia; apply bits_of_bound; lia).
  rewrite !testbit_merged by lia.
  destruct (Z.leb_spec k i), (Z.leb_spec i (k + 7)); cbn [andb].
  - rewrite testbit_bits_of by lia.
    replace (i - k <? k + 7 - k + 1) with true
      by (symmetry; apply Z.ltb_lt; lia).
    replace (i <? k + 8) with true by (symmetry; apply Z.ltb_lt; lia).
    cbn [andb]. f_equal. lia.
  - replace (i <? k + 8) with false by (symmetry; apply Z.ltb_ge; lia).
    now replace (i <? k) with false by (symmetry; apply Z.ltb_ge; lia).
  - replace (i <? k + 8) with true by (symmetry; apply Z.ltb_lt; lia).
    now replace (i <? k) with true by (symmetry; apply Z.ltb_lt; lia).
  - lia.
Qed.

Lemma merged_full r dat w :
  0 ≤ r < 2 ^ w → 0 < w → merged r dat w = bits_of dat (w - 1) 0.
Proof.
  intros Hr Hw. apply Z.bits_inj'. intros i Hi.
  rewrite testbit_merged, testbit_bits_of by lia.
  replace (w - 1 - 0 + 1) with w by lia. rewrite Z.add_0_r.
  destruct (Z.ltb_spec i w); [reflexivity |].
  apply (testbit_high_zero r w); lia.
Qed.

End BitFacts.

Section UpdateFacts.
Import Space Vhdl.

Lemma exec_lanes_disabled W dat byteen st ls :
  Forall (λ l, enabled byteen (lu_bit l) = Some false) ls →
  exec_lanes W dat byteen st ls = Some st.
Proof.
  induction 1 as [|l ls Hl _ IH]; [reflexivity |].
  cbn [exec_lanes]. now rewrite Hl.
Qed.

Lemma lanes_bits width p :
  p ∈ lanes width → 0 ≤ p.1 < (width + 7) `div` 8 ∧ p.2 = 8 * p.1.
Proof.
  unfold lanes. intros (k & -> & Hk)%list_elem_of_fmap.
  apply list_elem_of_In, in_seq in Hk. cbn [fst snd]. lia.
Qed.

(** Every lane of an update tests a bit of the mask that belongs to a
    lane of the register. *)
Lemma update_lane_bits node l :
  l ∈ GenerateRegUpdate.visit_Register node →
  0 ≤ lu_bit l < (r_width node + 7) `div` 8.
Proof.
  unfold GenerateRegUpdate.visit_Register.
  destruct (nonempty (r_space node)).
  - unfold GenerateRegUpdate.complexRegister.
    intros ([bit start] & Hp & Hl)%list_elem_of_omap.
    unfold GenerateRegUpdate.complex_lane in Hl.
    destruct (negb _); [discriminate |]. injection Hl as <-.
    apply (lanes_bits _ _ Hp).
  - unfold GenerateRegUpdate.simpleRegister.
    intros ([bit start] & -> & Hp)%list_elem_of_fmap.
    apply (lanes_bits _ _ Hp).
Qed.

Lemma enabled_lookup byteen bit b :
  0 ≤ bit < Z.of_nat (length byteen) → (∀ x, x ∈ byteen → x = b) →
  enabled byteen bit = Some b.
Proof.
  intros Hbit Hall. unfold enabled.
  replace (bit <? 0) with false by (symmetry; apply Z.ltb_ge; lia).
  destruct (byteen !! Z.to_nat bit) as [x|] eqn:E.
  - f_equal. apply Hall. eapply list_elem_of_lookup_2, E.
  - apply lookup_ge_None in E. lia.
Qed.

(** An update under a mask of all-zero bits leaves the register value
    as it is, for a simple and for a complex register of any width. *)
Lemma update_all_disabled W node dat byteen reg :
  (∀ b, b ∈ byteen → b = false) →
  (r_width node + 7) `div` 8 ≤ Z.of_nat (length byteen) →
  UPDATE W node dat byteen reg = Some reg.
Proof.
  intros Hall Hlen. unfold UPDATE.
  rewrite exec_lanes_disabled; [reflexivity |].
  apply Forall_forall. intros l Hl%update_lane_bits.
  apply enabled_lookup; [lia | assumption].
Qed.

Lemma in_range_true W H L : 0 ≤ L → L ≤ H → H < W → in_range W H L = true.
Proof.
  intros. unfold in_range.
  rewrite !andb_true_iff, !Z.leb_le, Z.ltb_lt. lia.
Qed.

Lemma format_upper_vector w fmt :
  w ≠ 1 → String.eqb (register_format_upper w fmt) "STD_LOGIC" = false.
Proof.
  intros Hw. unfold register_format_upper.
  destruct (Z.eqb_spec w 1); [contradiction |]. now destruct fmt.
Qed.

(** The lanes from [a] on of a simple register whose width is a
    multiple of 8, all enabled: each writes its eight bits of [dat]. *)
Lemma simple_lanes_enabled W w fmt dat byteen r ret n :
  ∀ a : nat,
    w ≠ 1 → w ≤ W → 8 * Z.of_nat (a + n) ≤ w →
    (∀ bit, 0 ≤ bit < Z.of_nat (a + n) → enabled byteen bit = Some true) →
    exec_lanes W dat byteen
      (Scalar (VVec w (merged r dat (8 * Z.of_nat a))), ret)
      (map (GenerateRegUpdate.simple_lane w (register_format_upper w fmt))
           (map (λ k : nat, (Z.of_nat k, 8 * Z.of_nat k)) (seq a n)))
    = Some (Scalar (VVec w (merged r dat (8 * Z.of_nat (a + n)))), ret).
Proof.
  induction n as [|n IH]; intros a Hw HW Hfit Hen.
  - cbn. now rewrite Nat.add_0_r.
  - cbn [seq map exec_lanes]. unfold GenerateRegUpdate.simple_lane at 1 2.
    cbn [lu_bit lu_body]. rewrite Hen by lia.
    replace (Z.min (8 * Z.of_nat a + 7) w) with (8 * Z.of_nat a + 7) by lia.
    replace (8 * Z.of_nat a =? 8 * Z.of_nat a + 7) with false
      by (symmetry; apply Z.eqb_neq; lia).
    cbn [exec_assignments]. unfold exec_assignment.
    cbn [fst snd eval_source].
    rewrite in_range_true, (format_upper_vector w fmt Hw) by lia.
    cbn [andb negb assign].
    rewrite in_range_true, Z.eqb_refl by lia. cbn [andb].
    rewrite merged_step by lia.
    replace (8 * Z.of_nat a + 8) with (8 * Z.of_nat (S a)) by lia.
    assert (Hfit' : 8 * Z.of_nat (S a + n) ≤ w) by lia.
    assert (Hen' : ∀ bit, 0 ≤ bit < Z.of_nat (S a + n) →
                          enabled byteen bit = Some true)
      by (intros bit Hbit; apply Hen; lia).
    rewrite (IH (S a) Hw HW Hfit' Hen').
    replace (S a + n)%nat with (a + S n)%nat by lia. reflexivity.
Qed.

(** An update of a simple register under a mask of all-one bits is a
    full overwrite when the width of the register is a multiple of 8. *)
Lemma update_simple_all_enabled W node dat byteen r k :
  nonempty (r_space node) = false →
  r_width node = 8 * k → 0 < k → r_width node ≤ W →
  0 ≤ r < 2 ^ r_width node →
  (∀ b, b ∈ byteen → b = true) → k ≤ Z.of_nat (length byteen) →
  UPDATE W node dat byteen (Scalar (VVec (r_width node) r))
  = Some (Scalar (VVec (r_width node) (bits_of dat (r_width node - 1) 0))).
Proof.
  intros Hsimple Hw Hk HW Hr Hall Hlen. unfold UPDATE.
  unfold GenerateRegUpdate.visit_Register. rewrite Hsimple.
  unfold GenerateRegUpdate.simpleRegister, lanes.
  replace ((r_width node + 7) `div` 8) with k
    by (rewrite Hw; apply (Z.div_unique _ _ _ 7); lia).
  assert (Hen : ∀ bit, 0 ≤ bit < Z.of_nat (0 + Z.to_nat k) →
                       enabled byteen bit = Some true)
    by (intros bit Hbit; apply enabled_lookup; [lia | assumption]).
  pose proof (simple_lanes_enabled W (r_width node) (r_format node) dat
                byteen r 0 (Z.to_nat k) 0%nat ltac:(lia) HW ltac:(lia) Hen)
    as Hrun.
  change (8 * Z.of_nat 0) with 0 in Hrun. rewrite merged_0 in Hrun.
  rewrite Hrun.
  replace (8 * Z.of_nat (0 + Z.to_nat k)) with (r_width node) by lia.
  rewrite merged_full by lia. reflexivity.
Qed.

(** *** The update of a complex register *)

Lemma merged_advance r d k k' :
  0 ≤ k → k < k' →
  set_bits (merged r d k) (k' - 1) k (bits_of d (k' - 1) k) = merged r d k'.
Proof.
  intros Hk Hk'. apply Z.bits_inj'. intros i Hi.
  rewrite testbit_set_bits by (try lia; apply bits_of_bound; lia).
  rewrite !testbit_merged by lia.
  destruct (Z.leb_spec k i), (Z.leb_spec i (k' - 1)); cbn [andb].
  - rewrite testbit_bits_of by lia.
    replace (i - k <? k' - 1 - k + 1) with true
      by (symmetry; apply Z.ltb_lt; lia).
    replace (i <? k') with true by (symmetry; apply Z.ltb_lt; lia).
    cbn [andb]. f_equal. lia.
  - replace (i <? k') with false by (symmetry; apply Z.ltb_ge; lia).
    now replace (i <? k) with false by (symmetry; apply Z.ltb_ge; lia).
  - replace (i <? k') with true by (symmetry; apply Z.ltb_lt; lia).
    now replace (i <? k) with true by (symmetry; apply Z.ltb_lt; lia).
  - lia.
Qed.

Lemma bits_of_bits_of dat H L h l :
  0 ≤ L → 0 ≤ l → l ≤ h + 1 → h ≤ H - L →
  bits_of (bits_of dat H L) h l = bits_of dat (h + L) (l + L).
Proof.
  intros HL Hl Hh HH. apply Z.bits_inj'. intros i Hi.
  rewrite !testbit_bits_of by lia.
  replace (h + L - (l + L) + 1) with (h - l + 1) by lia.
  destruct (Z.ltb_spec i (h - l + 1)); [| reflexivity]. cbn [andb].
  replace (i + l <? H - L + 1) with true by (symmetry; apply Z.ltb_lt; lia).
  cbn [andb]. f_equal. lia.
Qed.

Lemma bits_of_small d w : 0 < w → 0 ≤ d < 2 ^ w → bits_of d (w - 1) 0 = d.
Proof.
  intros Hw Hd. unfold bits_of. rewrite Z.shiftr_0_r, Z.land_ones by lia.
  replace (w - 1 - 0 + 1) with w by lia. now apply Z.mod_small.
Qed.

Lemma value_ok_vec w w' bits :
  value_ok w (VVec w' bits) = true → w' = w ∧ w ≠ 1 ∧ 0 ≤ bits < 2 ^ w.
Proof.
  cbn. intros [[[Hww Hw1]%andb_prop Hb0]%andb_prop Hb1]%andb_prop.
  apply Z.eqb_eq in Hww. apply negb_true_iff, Z.eqb_neq in Hw1.
  apply Z.leb_le in Hb0. apply Z.ltb_lt in Hb1. lia.
Qed.

Lemma upto_0 dat f v : 0 ≤ f_offset f → upto dat 0 f v = v.
Proof.
  intros Hoff. destruct v as [b|w bits]; cbn [upto].
  - now replace (f_offset f <? 0) with false by (symmetry; apply Z.ltb_ge; lia).
  - replace (Z.max 0 (Z.min (0 - f_offset f) (f_width f))) with 0 by lia.
    now rewrite merged_0.
Qed.

(** Once the boundary is beyond the field, the field holds its value in
    the word. *)
Lemma upto_full dat B f v :
  0 ≤ f_offset f → 0 < f_width f → f_offset f + f_width f ≤ B →
  value_ok (f_width f) v = true →
  upto dat B f v = word_field dat f.
Proof.
  intros Hoff Hw HB Hv. unfold word_field. destruct v as [b|w bits].
  - cbn in Hv. rewrite Hv. cbn [upto].
    now replace (f_offset f <? B) with true by (symmetry; apply Z.ltb_lt; lia).
  - apply value_ok_vec in Hv as (-> & Hw1 & Hbits).
    replace (f_width f =? 1) with false by (symmetry; now apply Z.eqb_neq).
    cbn [upto]. f_equal.
    replace (Z.max 0 (Z.min (B - f_offset f) (f_width f)))
      with (f_width f) by lia.
    rewrite merged_full by lia. apply bits_of_small; [lia |].
    pose proof (bits_of_bound dat (f_offset f + f_width f - 1) (f_offset f)
                  ltac:(lia)) as Hb.
    now replace (f_offset f + f_width f - 1 - f_offset f + 1)
      with (f_width f) in Hb by lia.
Qed.

(** A lane that does not meet the field leaves its value as it is. *)
Lemma upto_skip dat B f v :
  0 < f_width f →
  f_offset f + f_width f ≤ B ∨ B + 8 ≤ f_offset f →
  upto dat (B + 8) f v = upto dat B f v.
Proof.
  intros Hw Hout. destruct v as [b|w bits]; cbn [upto].
  - destruct (Z.ltb_spec (f_offset f) (B + 8)),
      (Z.ltb_spec (f_offset f) B); try reflexivity; lia.
  - do 2 f_equal. lia.
Qed.

Lemma clip_some {A} a b (s s' : slot A) :
  clip a b s = Some s' →
  Z.max (pos s) a < Z.min (pos s + size s) b
  ∧ s' = Slot (obj s) (Z.max (pos s) a)
              (Z.min (pos s + size s) b - Z.max (pos s) a).
Proof.
  unfold clip. destruct (Z.ltb_spec (Z.max (pos s) a)
                           (Z.min (pos s + size s) b)); [| discriminate].
  intros [= <-]. auto.
Qed.

Lemma clip_none {A} a b (s : slot A) :
  clip a b s = None → Z.min (pos s + size s) b ≤ Z.max (pos s) a.
Proof.
  unfold clip. destruct (Z.ltb_spec (Z.max (pos s) a)
                           (Z.min (pos s + size s) b)); [discriminate |].
  auto.
Qed.

(** The lines of a lane for one field that meets the lane: they move
    the boundary of the field from [B] to [B + 8]. *)
Lemma field_lane_step W dat B f v m ret s s' :
  0 ≤ B → obj s = Some f → placed W s f →
  clip B (B + 8) s = Some s' →
  value_ok (f_width f) v = true →
  m !! f_identifier f = Some (upto dat B f v) →
  exec_assignments W dat (Fields m, ret)
    (GenerateRegUpdate.lane_lines [s'])
  = Some (Fields (<[f_identifier f := upto dat (B + 8) f v]> m), ret).
Proof.
  intros HB Hobj (Hpos & Hsize & Hfsize & Hoff & Hw & HW) Hclip Hv Hm.
  apply clip_some in Hclip as [Hmeet ->]. rewrite Hpos, Hsize in Hmeet |- *.
  unfold GenerateRegUpdate.lane_lines. cbn [omap list_omap obj pos size].
  rewrite Hobj. cbn [exec_assignments]. unfold exec_assignment.
  destruct v as [b|w bits].
  - cbn in Hv. apply Z.eqb_eq in Hv.
    replace (Z.max (f_offset f) B) with (f_offset f) by lia.
    replace (Z.min (f_offset f + f_width f) (B + 8) - f_offset f)
      with 1 by lia.
    rewrite Hfsize, Hv. change ((1 <? 1) || (1 <? 1)) with false.
    cbn [fst snd eval_source].
    rewrite in_range_true by lia. cbn [assign]. rewrite Hm.
    cbn [upto].
    now replace (f_offset f <? B + 8) with true
      by (symmetry; apply Z.ltb_lt; lia).
  - apply value_ok_vec in Hv as (-> & Hw1 & Hbits).
    rewrite Hfsize.
    replace (1 <? f_width f) with true by (symmetry; apply Z.ltb_lt; lia).
    rewrite orb_true_r. cbn [fst snd eval_source].
    rewrite in_range_true, (format_upper_vector _ _ Hw1) by lia.
    cbn [andb negb assign]. rewrite Hm. cbn [upto].
    rewrite in_range_true by lia.
    match goal with
    | |- context [?a =? ?b] =>
        replace (a =? b) with true by (symmetry; apply Z.eqb_eq; lia)
    end.
    cbn [andb]. do 4 f_equal.
    remember (Z.max 0 (Z.min (B - f_offset f) (f_width f))) as k eqn:Ek.
    remember (Z.max 0 (Z.min (B + 8 - f_offset f) (f_width f))) as k' eqn:Ek'.
    rewrite <- (merged_advance bits _ k k') by lia.
    rewrite bits_of_bits_of by lia.
    replace (Z.max (f_offset f) B
             + (Z.min (f_offset f + f_width f) (B + 8) - Z.max (f_offset f) B)
             - 1 - f_offset f) with (k' - 1) by lia.
    replace (Z.max (f_offset f) B
             + (Z.min (f_offset f + f_width f) (B + 8) - Z.max (f_offset f) B)
             - 1) with (k' - 1 + f_offset f) by lia.
    replace (Z.max (f_offset f) B - f_offset f) with k by lia.
    replace (Z.max (f_offset f) B) with (k + f_offset f) by lia.
    reflexivity.
Qed.

Lemma objects_cons_some {A} (s : slot A) sp a :
  obj s = Some a → objects (s :: sp) = a :: objects sp.
Proof. unfold objects, items. cbn. now intros ->. Qed.

Lemma objects_cons_none {A} (s : slot A) sp :
  obj s = None → objects (s :: sp) = objects sp.
Proof. unfold objects, items. cbn. now intros ->. Qed.

Lemma exec_assignments_app W dat st l1 l2 :
  exec_assignments W dat st (l1 ++ l2)
  = match exec_assignments W dat st l1 with
    | Some st' => exec_assignments W dat st' l2
    | None => None
    end.
Proof.
  revert st. induction l1 as [|a l1 IH]; intros st; [reflexivity |].
  cbn [app exec_assignments].
  destruct (exec_assignment W dat st a); [apply IH | reflexivity].
Qed.

Lemma lane_lines_cons s l :
  GenerateRegUpdate.lane_lines (s :: l)
  = GenerateRegUpdate.lane_lines [s] ++ GenerateRegUpdate.lane_lines l.
Proof.
  unfold GenerateRegUpdate.lane_lines. cbn [omap list_omap].
  now destruct (obj s).
Qed.

(** The lines of one lane move the boundary of every field from [B] to
    [B + 8] and touch nothing else. *)
Lemma lane_step W dat B m0 sp :
  0 ≤ B →
  (∀ s f, s ∈ sp → obj s = Some f → placed W s f) →
  NoDup (map f_identifier (objects sp)) →
  ∀ m ret,
    updated_upto dat B m0 m (objects sp) →
    ∃ m',
      exec_assignments W dat (Fields m, ret)
        (GenerateRegUpdate.lane_lines (slice sp B (B + 8)))
      = Some (Fields m', ret)
      ∧ (∀ id, id ∉ map f_identifier (objects sp) → m' !! id = m !! id)
      ∧ updated_upto dat (B + 8) m0 m' (objects sp).
Proof.
  intros HB. induction sp as [|s sp IH]; intros Hplaced Hnd m ret Hinv.
  - exists m. split; [reflexivity |]. split; [reflexivity |].
    intros f Hf. inversion Hf.
  - assert (Hplaced' : ∀ s' f, s' ∈ sp → obj s' = Some f → placed W s' f)
      by (intros s' f Hs'; apply Hplaced; now right).
    unfold slice. cbn [omap list_omap]. fold (slice sp B (B + 8)).
    destruct (obj s) as [f|] eqn:Hobj.
    + rewrite (objects_cons_some s sp f Hobj) in *.
      cbn [map] in Hnd. apply NoDup_cons in Hnd as [Hfresh Hnd].
      pose proof (Hplaced s f (list_elem_of_here _ _) Hobj) as Hpl.
      destruct (Hinv f (list_elem_of_here _ _)) as (v0 & Hv0 & Hok0 & Hm0).
      assert (Hother : ∀ g, g ∈ objects sp →
                            f_identifier g ≠ f_identifier f).
      { intros g Hg E. apply Hfresh. rewrite <- E.
        apply list_elem_of_fmap. eauto. }
      destruct (clip B (B + 8) s) as [s'|] eqn:Hclip.
      * rewrite lane_lines_cons, exec_assignments_app.
        rewrite (field_lane_step W dat B f v0 m ret s s'
                   HB Hobj Hpl Hclip Hok0 Hm0).
        destruct (IH Hplaced' Hnd
                    (<[f_identifier f := upto dat (B + 8) f v0]> m) ret)
          as (m' & Hrun & Hout & Hin).
        { intros g Hg. destruct (Hinv g (list_elem_of_further _ _ _ Hg))
            as (v & Hv & Hok & Hm).
          exists v. rewrite lookup_insert_ne by (apply not_eq_sym, Hother, Hg).
          auto. }
        exists m'. split; [exact Hrun |]. split.
        -- intros id Hid. rewrite Hout.
           ++ apply lookup_insert_ne. intros <-. apply Hid. now left.
           ++ intros H. apply Hid. now right.
        -- intros g Hg. apply elem_of_cons in Hg as [->|Hg]; [| eauto].
           exists v0. rewrite (Hout _ Hfresh), lookup_insert_eq. auto.
      * destruct (IH Hplaced' Hnd m ret) as (m' & Hrun & Hout & Hin).
        { intros g Hg. apply Hinv. now right. }
        exists m'. split; [exact Hrun |]. split.
        -- intros id Hid. apply Hout. intros H. apply Hid. now right.
        -- intros g Hg. apply elem_of_cons in Hg as [->|Hg]; [| eauto].
           exists v0. rewrite (Hout _ Hfresh), Hm0.
           destruct Hpl as (Hpos & Hsize & _ & _ & Hw & _).
           apply clip_none in Hclip. rewrite Hpos, Hsize in Hclip.
           rewrite upto_skip by lia. auto.
    + rewrite (objects_cons_none s sp Hobj) in *.
      destruct (IH Hplaced' Hnd m ret Hinv) as (m' & Hrun & Hrest).
      exists m'. split; [| exact Hrest].
      destruct (clip B (B + 8) s) as [s'|] eqn:Hclip; [| exact Hrun].
      rewrite lane_lines_cons, exec_assignments_app.
      apply clip_some in Hclip as [_ ->].
      unfold GenerateRegUpdate.lane_lines at 1. cbn [omap list_omap obj].
      rewrite Hobj. exact Hrun.
Qed.

Lemma lane_lines_unoccupied l :
  existsb occupied l = false → GenerateRegUpdate.lane_lines l = [].
Proof.
  induction l as [|s l IH]; [reflexivity |].
  cbn [existsb]. intros [Hs Hl]%orb_false_elim.
  rewrite lane_lines_cons, (IH Hl), app_nil_r.
  unfold GenerateRegUpdate.lane_lines, occupied in *. cbn [omap list_omap].
  now destruct (obj s).
Qed.

(** The lanes from [a] on of a complex register, all enabled. *)
Lemma complex_lanes_enabled W dat byteen m0 sp n :
  (∀ s f, s ∈ sp → obj s = Some f → placed W s f) →
  NoDup (map f_identifier (objects sp)) →
  ∀ (a : nat) m ret,
    (∀ bit, 0 ≤ bit < Z.of_nat (a + n) → enabled byteen bit = Some true) →
    updated_upto dat (8 * Z.of_nat a) m0 m (objects sp) →
    ∃ m',
      exec_lanes W dat byteen (Fields m, ret)
        (omap (GenerateRegUpdate.complex_lane sp)
              (map (λ k : nat, (Z.of_nat k, 8 * Z.of_nat k)) (seq a n)))
      = Some (Fields m', ret)
      ∧ (∀ id, id ∉ map f_identifier (objects sp) → m' !! id = m !! id)
      ∧ updated_upto dat (8 * Z.of_nat (a + n)) m0 m' (objects sp).
Proof.
  intros Hplaced Hnd. induction n as [|n IH]; intros a m ret Hen Hinv.
  - exists m. rewrite Nat.add_0_r. auto.
  - cbn [seq map omap list_omap]. unfold GenerateRegUpdate.complex_lane at 1.
    destruct (lane_step W dat (8 * Z.of_nat a) m0 sp ltac:(lia)
                Hplaced Hnd m ret Hinv) as (m1 & Hrun & Hout1 & Hinv1).
    replace (8 * Z.of_nat a + 8) with (8 * Z.of_nat (S a)) in Hinv1 by lia.
    assert (Hen' : ∀ bit, 0 ≤ bit < Z.of_nat (S a + n) →
                          enabled byteen bit = Some true)
      by (intros bit Hbit; apply Hen; lia).
    destruct (IH (S a) m1 ret Hen' Hinv1) as (m' & Hrest & Hout & Hinv').
    replace (S a + n)%nat with (a + S n)%nat in Hinv' by lia.
    exists m'. split; [| split; [| exact Hinv']].
    + destruct (existsb occupied (slice sp (8 * Z.of_nat a)
                                   (8 * Z.of_nat a + 8))) eqn:Hocc;
        cbn [negb].
      * cbn [exec_lanes lu_bit lu_body]. rewrite Hen by lia.
        rewrite Hrun. exact Hrest.
      * rewrite (lane_lines_unoccupied _ Hocc) in Hrun.
        cbn in Hrun. injection Hrun as <-. exact Hrest.
    + intros id Hid. now rewrite Hout, Hout1.
Qed.

Lemma complexRegister_lanes node :
  GenerateRegUpdate.complexRegister node
  = omap (GenerateRegUpdate.complex_lane (r_space node))
         (lanes (r_width node)).
Proof. reflexivity. Qed.

(** An update of a well-formed complex register under a mask of
    all-one bits is a full overwrite: every field holds its value in
    the new word, also a field that straddles lanes. *)
Lemma update_complex_all_enabled W node dat byteen m :
  nonempty (r_space node) = true →
  wf_register W node →
  has_type (type_of_register node) (Fields m) →
  (∀ b, b ∈ byteen → b = true) →
  (r_width node + 7) `div` 8 ≤ Z.of_nat (length byteen) →
  ∃ m',
    UPDATE W node dat byteen (Fields m) = Some (Fields m')
    ∧ (∀ f, f ∈ fields node →
            m' !! f_identifier f = Some (word_field dat f))
    ∧ (∀ id, id ∉ map f_identifier (fields node) → m' !! id = m !! id).
Proof.
  intros Hcomplex [Hcover Hplace Hnd Hbus] Hty Hall Hlen.
  unfold type_of_register in Hty. rewrite Hcomplex in Hty.
  destruct Hty as (_ & _ & Htyped).
  assert (Hplaced : ∀ s f, s ∈ r_space node → obj s = Some f → placed W s f).
  { intros s f Hs Hobj. destruct (Hplace s f Hs Hobj) as (Hp & Hsz & Hfs).
    destruct (covers_after _ _ _ _ Hcover Hs) as [H0 Hpos].
    pose proof (covers_within _ _ _ _ Hcover Hs). unfold placed. lia. }
  assert (Hfield : ∀ f, f ∈ fields node →
                        0 ≤ f_offset f ∧ 0 < f_width f
                        ∧ f_offset f + f_width f ≤ r_width node).
  { intros f Hf. unfold fields, objects in Hf.
    apply list_elem_of_fmap in Hf as ([[f' p] sz] & -> & Hin).
    unfold items in Hin. apply list_elem_of_omap in Hin as (s & Hs & Hi).
    destruct (obj s) as [g|] eqn:Hobj; [| discriminate].
    injection Hi as Eg Ep Esz. subst g p sz. cbn [fst].
    destruct (Hplace s f' Hs Hobj) as (Hp & Hsz & Hfs).
    destruct (covers_after _ _ _ _ Hcover Hs) as [H0 Hpos].
    pose proof (covers_within _ _ _ _ Hcover Hs). lia. }
  assert (Hinv : updated_upto dat (8 * Z.of_nat 0) m m (fields node)).
  { intros f Hf.
    destruct (Htyped (f_identifier f) (f_width f)) as (v & Hv & Hok).
    - apply list_elem_of_fmap. eauto.
    - exists v. change (8 * Z.of_nat 0) with 0.
      rewrite upto_0 by (apply Hfield, Hf). auto. }
  assert (Hen : ∀ bit,
             0 ≤ bit < Z.of_nat (0 + Z.to_nat ((r_width node + 7) `div` 8)) →
             enabled byteen bit = Some true)
    by (intros bit Hbit; apply enabled_lookup; [lia | assumption]).
  destruct (complex_lanes_enabled W dat byteen m (r_space node)
              (Z.to_nat ((r_width node + 7) `div` 8)) Hplaced Hnd
              0%nat m 0 Hen Hinv) as (m' & Hrun & Hout & Hinv').
  exists m'. unfold UPDATE, GenerateRegUpdate.visit_Register.
  rewrite Hcomplex, complexRegister_lanes. unfold lanes. rewrite Hrun.
  split; [reflexivity |]. split; [| exact Hout].
  intros f Hf. destruct (Hinv' f Hf) as (v & _ & Hok & ->). f_equal.
  destruct (Hfield f Hf) as (Hoff & Hw & Hfit).
  apply upto_full; try assumption.
  assert (0 ≤ r_width node) by lia.
  pose proof (Z.div_mod (r_width node + 7) 8 ltac:(lia)).
  pose proof (Z.mod_pos_bound (r_width node + 7) 8 ltac:(lia)).
  rewrite Nat.add_0_l, Z2Nat.id by (apply Z.div_pos; lia). lia.
Qed.

(** The register of the specification's scenario is well formed. *)
Example CTRL_well_formed : wf_register 32 CTRL ∧ wf_fields 32 (fields CTRL).
Proof.
  split; split.
  - cbn. lia.
  - intros s f Hs Ho. cbn in Hs.
    repeat (apply elem_of_cons in Hs as [->|Hs]); try discriminate;
      [injection Ho as <- | injection Ho as <- | inversion Hs]; cbn; lia.
  - cbn. repeat constructor; rewrite ?elem_of_cons, ?elem_of_nil;
      intuition discriminate.
  - cbn. lia.
  - cbn. repeat constructor; rewrite ?elem_of_cons, ?elem_of_nil;
      intuition discriminate.
  - repeat constructor.
  - repeat constructor; cbn; lia.
  - cbn. repeat constructor. cbn. unfold apart. cbn. lia.
Qed.

(** The scenario of the specification: with lane 0 enabled and lane 1
    disabled, the new word [0x00000105] updates [MODE] to 5 and leaves
    [ENABLE] as it is. *)
Example CTRL_partial_update :
  let before := Fields (list_to_map [("MODE", VVec 4 0);
                                     ("ENABLE", VBit false)]) in
  match UPDATE 32 CTRL 261 [true; false; false; false] before with
  | Some (Fields m) => (m !! "MODE", m !! "ENABLE")
  | _ => (None, None)
  end
  = (Some (VVec 4 5), Some (VBit false)).
Proof. vm_compute. reflexivity. Qed.

(** A field of 12 bits at bit 2 straddles lanes 0 and 1.  With lane 1
    alone enabled, the bits 6 to 11 of the field are taken from the
    bits 8 to 13 of the word and the bits 0 to 5 are left as they
    are. *)
Example STRADDLE_partial_update :
  flat_map render_lane (GenerateRegUpdate.visit_Register STRADDLE)
  = [ "    if byteen(0) then";
      "        reg.WIDE(5 downto 0) := UNSIGNED(dat(7 downto 2));";
      "    end if;";
      "    if byteen(1) then";
      "        reg.WIDE(11 downto 6) := UNSIGNED(dat(13 downto 8));";
      "    end if;" ]
  ∧ match UPDATE 32 STRADDLE 65535 [false; true]
            (Fields (list_to_map [("WIDE", VVec 12 21)])) with
    | Some (Fields m) => m !! "WIDE"
    | _ => None
    end
    = Some (VVec 12 4053).
Proof. split; vm_compute; reflexivity. Qed.

(** C1.  The update generated for a simple register of 12 bits: the
    second lane is written as [reg(12 downto 8)], one bit beyond the
    register.  Under the all-ones mask the update has no result, where
    the claim asks for the new word value [0xABC]; under the all-zero
    mask the value is unchanged. *)
Theorem C1_update_of_a_12_bit_register :
  let node := simple_register "R12" 12 in
  flat_map render_lane (GenerateRegUpdate.visit_Register node)
  = [ "    if byteen(0) then";
      "        reg(7 downto 0) := UNSIGNED(dat(7 downto 0));";
      "    end if;";
      "    if byteen(1) then";
      "        reg(12 downto 8) := UNSIGNED(dat(12 downto 8));";
      "    end if;" ]
  ∧ has_type (type_of_register node) (Scalar (VVec 12 0))
  ∧ UPDATE 32 node 2748 [false; false; false; false] (Scalar (VVec 12 0))
    = Some (Scalar (VVec 12 0))
  ∧ UPDATE 32 node 2748 [true; true; true; true] (Scalar (VVec 12 0))
    = None.
Proof. repeat split. Qed.

(** *** The conversions of a complex register *)

Lemma testbit_set_bit z i b j :
  0 ≤ i → Z.testbit (set_bit z i b) j = if j =? i then b else Z.testbit z j.
Proof.
  intros Hi. unfold set_bit. destruct b.
  - rewrite Z.setbit_eqb by assumption. rewrite (Z.eqb_sym i j).
    now destruct (j =? i).
  - rewrite Z.clearbit_eqb. rewrite (Z.eqb_sym i j).
    destruct (j =? i); cbn [negb]; [apply andb_false_r | apply andb_true_r].
Qed.

Lemma testbit_write_field_outside ret f v i :
  0 ≤ i → 0 ≤ f_offset f → 0 < f_width f → value_ok (f_width f) v = true →
  ¬ (f_offset f ≤ i < f_offset f + f_width f) →
  Z.testbit (write_field ret f v) i = Z.testbit ret i.
Proof.
  intros Hi Hoff Hw Hv Hout. destruct v as [b|w bits]; cbn in Hv |- *.
  - apply Z.eqb_eq in Hv. rewrite testbit_set_bit by assumption.
    destruct (Z.eqb_spec i (f_offset f)); [lia | reflexivity].
  - apply andb_prop in Hv as [[[Hww _]%andb_prop Hb0]%andb_prop Hb1].
    apply Z.leb_le in Hb0. apply Z.ltb_lt in Hb1.
    rewrite testbit_set_bits; try lia.
    + destruct (Z.leb_spec (f_offset f) i),
        (Z.leb_spec i (f_offset f + f_width f - 1)); cbn [andb];
        try reflexivity; lia.
    + now replace (f_offset f + f_width f - 1 - f_offset f + 1)
        with (f_width f) by lia.
Qed.

Lemma word_field_ext f ret ret' :
  0 ≤ f_offset f → 0 < f_width f →
  (∀ i, f_offset f ≤ i < f_offset f + f_width f →
        Z.testbit ret' i = Z.testbit ret i) →
  word_field ret' f = word_field ret f.
Proof.
  intros Hoff Hw Hsame. unfold word_field.
  destruct (f_width f =? 1); [now rewrite Hsame by lia |].
  f_equal. apply Z.bits_inj'. intros i Hi.
  rewrite !testbit_bits_of by lia.
  destruct (Z.ltb_spec i (f_offset f + f_width f - 1 - f_offset f + 1));
    [| reflexivity].
  cbn [andb]. apply Hsame. lia.
Qed.

Lemma word_field_written ret f v :
  0 ≤ f_offset f → 0 < f_width f → value_ok (f_width f) v = true →
  word_field (write_field ret f v) f = v.
Proof.
  intros Hoff Hw Hv. unfold word_field.
  destruct v as [b|w bits]; cbn in Hv |- *.
  - rewrite Hv, testbit_set_bit, Z.eqb_refl by assumption. reflexivity.
  - apply andb_prop in Hv as [[[Hww Hw1]%andb_prop Hb0]%andb_prop Hb1].
    apply Z.eqb_eq in Hww. subst w. apply negb_true_iff in Hw1.
    apply Z.leb_le in Hb0. apply Z.ltb_lt in Hb1. rewrite Hw1. f_equal.
    apply Z.bits_inj'. intros i Hi.
    rewrite testbit_bits_of by lia.
    replace (f_offset f + f_width f - 1 - f_offset f + 1)
      with (f_width f) by lia.
    destruct (Z.ltb_spec i (f_width f)); cbn [andb].
    + rewrite testbit_set_bits; try lia.
      * replace ((f_offset f <=? i + f_offset f)
                 && (i + f_offset f <=? f_offset f + f_width f - 1))
          with true
          by (symmetry; rewrite andb_true_iff, !Z.leb_le; lia).
        f_equal. lia.
      * now replace (f_offset f + f_width f - 1 - f_offset f + 1)
          with (f_width f) by lia.
    + symmetry. apply (testbit_high_zero bits (f_width f)); lia.
Qed.

(** The assignment that [reg_TO_DAT] makes for a field writes the value
    of the field to the word. *)
Lemma r2d_field W dat m ret f v :
  0 ≤ f_offset f → 0 < f_width f → f_offset f + f_width f ≤ W →
  m !! f_identifier f = Some v → value_ok (f_width f) v = true →
  exec_assignment W dat (Fields m, ret) (GenerateR2D.visit_Field f)
  = Some (Fields m, write_field ret f v).
Proof.
  intros Hoff Hw HW Hm Hv. unfold GenerateR2D.visit_Field, exec_assignment.
  destruct v as [b|w bits]; cbn in Hv.
  - rewrite Hv. cbn [fst snd eval_source assign]. rewrite Hm.
    cbn [assign]. rewrite in_range_true by lia. apply Z.eqb_eq in Hv.
    cbn [write_field].
    now replace (f_offset f + f_width f - 1) with (f_offset f) by lia.
  - apply andb_prop in Hv as [[[Hww Hw1]%andb_prop Hb0]%andb_prop Hb1].
    apply Z.eqb_eq in Hww. subst w. apply negb_true_iff in Hw1.
    rewrite Hw1. cbn [fst snd eval_source assign]. rewrite Hm.
    cbn [assign]. rewrite in_range_true by lia.
    replace (f_width f =? f_offset f + f_width f - 1 - f_offset f + 1)
      with true by (symmetry; apply Z.eqb_eq; lia).
    reflexivity.
Qed.

(** [reg_TO_DAT] on the fields of a record: the word it leaves holds
    the value of every field, and its other bits are untouched. *)
Lemma r2d_fields W dat m fs :
  Forall (λ f, 0 ≤ f_offset f ∧ 0 < f_width f
               ∧ f_offset f + f_width f ≤ W) fs →
  pairwise_apart fs → typed_fields m fs →
  ∀ ret,
    ∃ ret',
      exec_assignments W dat (Fields m, ret) (map GenerateR2D.visit_Field fs)
      = Some (Fields m, ret')
      ∧ (∀ i, 0 ≤ i →
              (∀ f, f ∈ fs → ¬ (f_offset f ≤ i < f_offset f + f_width f)) →
              Z.testbit ret' i = Z.testbit ret i)
      ∧ (∀ f v, f ∈ fs → m !! f_identifier f = Some v →
                word_field ret' f = v).
Proof.
  induction 1 as [|f fs (Hoff & Hw & HW) Hbounds IH];
    intros Hapart Htyped ret.
  - exists ret. split; [reflexivity |]. split; [reflexivity |].
    intros f v Hf. inversion Hf.
  - destruct Hapart as [Hf_apart Hapart].
    destruct (Htyped f (list_elem_of_here _ _)) as (v & Hm & Hv).
    destruct (IH Hapart (λ g Hg, Htyped g (list_elem_of_further _ _ _ Hg))
                (write_field ret f v)) as (ret' & Hrun & Hout & Hin).
    exists ret'. cbn [map exec_assignments].
    rewrite (r2d_field W dat m ret f v Hoff Hw HW Hm Hv). split; [exact Hrun |].
    split.
    + intros i Hi Hnone. rewrite Hout.
      * apply testbit_write_field_outside; try assumption.
        apply Hnone, list_elem_of_here.
      * assumption.
      * intros g Hg. apply Hnone. now right.
    + intros g u Hg Hu. apply elem_of_cons in Hg as [->|Hg]; [| eauto].
      assert (u = v) as -> by congruence.
      rewrite <- (word_field_written ret f v Hoff Hw Hv).
      apply word_field_ext; try assumption.
      intros i Hi. apply Hout; [lia |].
      intros g Hg. rewrite Forall_forall in Hf_apart.
      destruct (Hf_apart g Hg); lia.
Qed.

Lemma word_field_ok dat f :
  0 < f_width f → value_ok (f_width f) (word_field dat f) = true.
Proof.
  intros Hw. unfold word_field.
  destruct (Z.eqb_spec (f_width f) 1) as [E|E]; cbn [value_ok].
  - now apply Z.eqb_eq.
  - pose proof (bits_of_bound dat (f_offset f + f_width f - 1) (f_offset f)
                  ltac:(lia)) as Hb.
    replace (f_offset f + f_width f - 1 - f_offset f + 1)
      with (f_width f) in Hb by lia.
    rewrite Z.eqb_refl. cbn [andb].
    replace (f_width f =? 1) with false by (symmetry; now apply Z.eqb_neq).
    cbn [negb andb]. apply andb_true_iff. rewrite Z.leb_le, Z.ltb_lt. lia.
Qed.

(** [DAT_TO_reg] on the fields: the aggregate gives every field its
    value in the word. *)
Lemma d2r_fields W dat fs :
  Forall (λ f, 0 ≤ f_offset f ∧ 0 < f_width f
               ∧ f_offset f + f_width f ≤ W) fs →
  eval_assoc W dat (map GenerateD2R.visit_Field fs)
  = Some (map (λ f, (f_name f, word_field dat f)) fs).
Proof.
  induction 1 as [|f fs (Hoff & Hw & HW) _ IH]; [reflexivity |].
  cbn [map eval_assoc]. unfold GenerateD2R.visit_Field at 1.
  unfold word_field at 1.
  destruct (Z.eqb_spec (f_width f) 1) as [E|E].
  - cbn [eval_source]. rewrite in_range_true by lia. rewrite IH.
    now replace (f_offset f + f_width f - 1) with (f_offset f) by lia.
  - cbn [eval_source]. rewrite in_range_true by lia.
    rewrite format_upper_vector by assumption. cbn [andb negb].
    rewrite IH. do 4 f_equal. lia.
Qed.

Lemma aggregate_of_fields dat fs :
  Forall (λ f, f_name f = f_identifier f) fs →
  Forall (λ f, 0 < f_width f) fs →
  aggregate_ok (map (λ f, (f_identifier f, f_width f)) fs)
               (map (λ f, (f_name f, word_field dat f)) fs) = true.
Proof.
  induction 1 as [|f fs Hn _ IH]; intros Hw; [reflexivity |].
  apply Forall_cons in Hw as [Hwf Hw]. cbn [map aggregate_ok].
  rewrite Hn, String.eqb_refl, (word_field_ok dat f Hwf), (IH Hw).
  reflexivity.
Qed.

(** The round trip of a complex register: the value-to-word conversion
    followed by the word-to-value conversion gives the value back. *)
Lemma complex_round_trip W node m :
  nonempty (r_space node) = true →
  wf_fields W (fields node) →
  has_type (type_of_register node) (Fields m) →
  ∃ word, TO_DAT W node (Fields m) = Some word
          ∧ DAT_TO W node word = Some (Fields m).
Proof.
  intros Hcomplex [Hnd Hnames Hbounds Hapart]. unfold type_of_register.
  rewrite Hcomplex. cbn [has_type]. intros (_ & Hdom & Htyped).
  assert (Hty : typed_fields m (fields node)).
  { intros f Hf. apply (Htyped (f_identifier f) (f_width f)).
    apply list_elem_of_fmap. eauto. }
  destruct (r2d_fields W 0 m (fields node) Hbounds Hapart Hty 0)
    as (word & Hrun & _ & Hvalues).
  exists word. unfold TO_DAT, DAT_TO, GenerateR2D.visit_Register,
    GenerateD2R.visit_Register, type_of_register.
  rewrite Hcomplex. unfold GenerateR2D.complexRegister,
    GenerateD2R.complexRegister.
  rewrite Hrun. split; [reflexivity |].
  rewrite (d2r_fields W word (fields node) Hbounds).
  rewrite aggregate_of_fields.
  2:{ exact Hnames. }
  2:{ eapply Forall_impl; [exact Hbounds |]. cbn. intros; lia. }
  do 2 f_equal. apply map_eq. intros id.
  destruct (m !! id) as [v|] eqn:Hm.
  - assert (Hid : id ∈ map fst (map (λ f, (f_identifier f, f_width f))
                                    (fields node)))
      by (apply Hdom; eauto).
    apply list_elem_of_fmap in Hid as ([id' w] & -> & Hin).
    apply list_elem_of_fmap in Hin as (f & [= -> ->] & Hf).
    apply elem_of_list_to_map_1.
    + rewrite <- list_fmap_compose.
      erewrite list_fmap_ext; [exact Hnd |].
      intros i g Hg. cbn. rewrite Forall_forall in Hnames.
      apply Hnames. eapply list_elem_of_lookup_2, Hg.
    + apply list_elem_of_fmap. exists f. split; [| exact Hf].
      rewrite Forall_forall in Hnames.
      rewrite (Hnames f Hf), (Hvalues f v Hf Hm). reflexivity.
  - apply not_elem_of_list_to_map_1. intros Hin.
    rewrite <- list_fmap_compose in Hin.
    apply list_elem_of_fmap in Hin as (f & -> & Hf). cbn in Hm.
    rewrite Forall_forall in Hnames. rewrite (Hnames f Hf) in Hm.
    destruct (Hty f Hf) as (v & Hv & _). congruence.
Qed.

(** The hypothesis on the names is needed: the record type names its
    elements by the identifiers of the fields, the aggregate of the
    word-to-value conversion by their names.  For a field renamed by
    the legalization pass the two differ and the conversion has no
    result. *)
Example PORTS_word_to_value :
  render_d2r (GenerateD2R.visit_Register PORTS)
  = [ "    return (";
      "        out => UNSIGNED(dat(7 downto 0))";
      "    );" ]
  ∧ type_of_register PORTS = TRecord [("out_0", 8)]
  ∧ DAT_TO 32 PORTS 90 = None.
Proof. repeat split. Qed.

(** C5.  The conversions generated for a simple register of 8 bits:
    the word-to-value function returns the low 8 bits of the word; the
    value-to-word function reads [reg.R8], an element of a value that
    is a vector and not a record, and has no result.  The composition
    does not give the value back. *)
Theorem C5_conversions_of_a_simple_register :
  let node := simple_register "R8" 8 in
  map render_r2d (GenerateR2D.visit_Register node)
  = [ "    ret(7 downto 0) := STD_LOGIC_VECTOR(reg.R8);" ]
  ∧ render_d2r (GenerateD2R.visit_Register node)
    = [ "    return UNSIGNED(dat(7 downto 0));" ]
  ∧ type_of_register node = TScalar 8
  ∧ has_type (TScalar 8) (Scalar (VVec 8 90))
  ∧ DAT_TO 32 node 90 = Some (Scalar (VVec 8 90))
  ∧ TO_DAT 32 node (Scalar (VVec 8 90)) = None.
Proof. repeat split. Qed.

End UpdateFacts.

(** ** The C generator *)

Section CFacts.
Import Space CHeader.
Local Open Scope gen_scope.

Lemma gbind_ok {A B} (m : gen A) (k : A → gen B) written a :
  m = (written, ok a) →
  gbind m k = (written ++ (k a).1, (k a).2).
Proof. unfold gbind, ok. intros ->. now destruct (k a). Qed.

Lemma gbind_raise {A B} (m : gen A) (k : A → gen B) written e :
  m = (written, raise e) → gbind m k = (written, raise e).
Proof. unfold gbind. now intros ->. Qed.

Lemma gbind_lines {A B} (m : gen A) (k : A → gen B) l1 l2 a b :
  m = (l1, ok a) → k a = (l2, ok b) → gbind m k = (l1 ++ l2, ok b).
Proof. intros Hm Hk. rewrite (gbind_ok _ _ _ _ Hm), Hk. reflexivity. Qed.

Lemma gbind_then_raise {A B} (m : gen A) (k : A → gen B) l1 l2 a e :
  m = (l1, ok a) → k a = (l2, raise e) → gbind m k = (l1 ++ l2, raise e).
Proof. intros Hm Hk. rewrite (gbind_ok _ _ _ _ Hm), Hk. reflexivity. Qed.

(** A loop whose body only writes lines writes them in order. *)
Lemma foreach_lines {A} (xs : list A) (body : A → gen unit)
    (lines : A → list cline) :
  (∀ x, x ∈ xs → body x = (lines x, ok tt)) →
  foreach xs body = (flat_map lines xs, ok tt).
Proof.
  induction xs as [|x xs IH]; intros Hbody; [reflexivity |].
  cbn [foreach flat_map].
  apply (gbind_lines _ _ _ _ tt tt); [apply Hbody; now left |].
  apply IH. intros; apply Hbody; now right.
Qed.

Lemma flat_map_singleton {A B} (g : A → B) (l : list A) :
  flat_map (λ x, [g x]) l = map g l.
Proof. induction l as [|x l IH]; cbn; [reflexivity | now rewrite IH]. Qed.

Lemma shl_nonneg a n : 0 ≤ n → shl a n = ([], ok (a * 2 ^ n)).
Proof.
  intros Hn. unfold shl.
  replace (n <? 0) with false by (symmetry; apply Z.ltb_ge; lia).
  now rewrite Z.shiftl_mul_pow2 by assumption.
Qed.

Lemma shl_one n : 0 ≤ n → shl 1 n = ([], ok (2 ^ n)).
Proof. intros Hn. rewrite shl_nonneg by assumption. now rewrite Z.mul_1_l. Qed.

(** The lines written for one field are its comment, an empty line and
    the constants of the specification. *)
Lemma field_bitfields_spec regname f :
  0 ≤ fd_offset f → 0 ≤ fd_size f →
  generate_field_bitfields regname f
  = ([field_comment (regname +:+ "_" +:+ fd_name f) f; CText ""]
     ++ spec_field_constants (regname +:+ "_" +:+ fd_name f) f,
     ok tt).
Proof.
  intros Hoff Hsize. unfold generate_field_bitfields, spec_field_constants.
  fold (field_comment (regname +:+ "_" +:+ fd_name f) f).
  do 3 (eapply (gbind_lines _ _ [_]); [reflexivity |]).
  destruct ((fd_size f =? 1) && bool_decide (fd_enums f = [])).
  - eapply (gbind_lines _ _ []); [apply shl_one, Hoff |]. reflexivity.
  - eapply (gbind_lines _ _ []); [apply shl_one, Hsize |].
    eapply (gbind_lines _ _ []); [apply shl_nonneg, Hoff |].
    do 2 (eapply (gbind_lines _ _ [_]); [reflexivity |]).
    rewrite <- flat_map_singleton.
    apply foreach_lines. reflexivity.
Qed.

Lemma fields_of_objects self fs :
  fields_of self = Some fs → objects (rg_space self) = map BField fs.
Proof.
  unfold fields_of. generalize (objects (rg_space self)). intros os.
  revert fs. induction os as [|o os IH]; intros fs.
  - now intros [= <-].
  - cbn. destruct o as [f|o]; [| discriminate]. cbn.
    destruct (mapM _ os) as [fs'|]; [| discriminate]. cbn.
    intros [= <-]. cbn. now rewrite (IH fs' eq_refl).
Qed.

(** C10.  For every register whose bit space holds fields (of offset
    and size not negative), the bitfield definitions written for it
    are, for each field taken from the last to the first, a comment, an
    empty line and the constants of the specification under the name
    [{COMPONENT}_{REGISTER}_{FIELD}]: [_LSB] equal to the bit offset;
    for a field of size 1 without enumerated values the bit constant
    [2^offset]; otherwise [_MASK] equal to [(2^size - 1) * 2^offset],
    the macro [(x) << {FIELD}_LSB] and one constant per enumerated
    value that applies the macro to the value. *)
Theorem C10_register_bitfields self compname fs :
  fields_of self = Some fs →
  Forall (λ f, 0 ≤ fd_offset f ∧ 0 ≤ fd_size f) fs →
  generate_register_bitfields self compname
  = ((if negb (bool_decide (fs = []))
      then [ CText "";
             maincomment (rg_name self +:+ " Field Descriptions") ]
      else [])
     ++ flat_map
          (λ f,
             let fieldname :=
               (compname +:+ "_" +:+ rg_name self) +:+ "_" +:+ fd_name f in
             [field_comment fieldname f; CText ""]
             ++ spec_field_constants fieldname f)
          (rev fs),
     ok tt).
Proof.
  intros Hfs Hpos. unfold generate_register_bitfields.
  rewrite (fields_of_objects self fs Hfs).
  apply (gbind_lines _ _ _ _ tt tt).
  - destruct fs as [|f fs']; [reflexivity |].
    cbn [map]. rewrite !bool_decide_eq_false_2 by discriminate.
    reflexivity.
  - rewrite <- map_rev.
    rewrite (foreach_lines _ _
               (λ o, match o with
                     | BField f =>
                         [field_comment
                            ((compname +:+ "_" +:+ rg_name self)
                             +:+ "_" +:+ fd_name f) f; CText ""]
                         ++ spec_field_constants
                              ((compname +:+ "_" +:+ rg_name self)
                               +:+ "_" +:+ fd_name f) f
                     | BOther _ => []
                     end)).
    + f_equal. generalize (rev fs). intros l.
      induction l as [|f l IH]; [reflexivity |].
      cbn [map flat_map]. now rewrite IH.
    + intros o Ho.
      apply list_elem_of_fmap in Ho as (f & -> & Hf).
      apply list_elem_of_In, in_rev, list_elem_of_In in Hf.
      rewrite Forall_forall in Hpos. destruct (Hpos f Hf) as [Hoff Hsize].
      apply field_bitfields_spec; assumption.
Qed.

Lemma C10_register_bitfields_witness :
  generate_register_bitfields sample_control "UART"
  = ([ CText ""; maincomment "CTRL Field Descriptions";
       subcomment "UART_CTRL_ENABLE - Enable"; CText "";
       define "UART_CTRL_ENABLE_LSB" (VInt 8);
       define "UART_CTRL_ENABLE" (VHex 256);
       subcomment ("UART_CTRL_MODE - Mode" +:+ Vhdl.nl +:+ "Values:"
                   +:+ Vhdl.nl +:+ "IDLE - " +:+ Vhdl.nl +:+ "RUN - ");
       CText "";
       define "UART_CTRL_MODE_LSB" (VInt 0);
       define "UART_CTRL_MODE_MASK" (VHex 15);
       define "UART_CTRL_MODE(x)" (VShift "UART_CTRL_MODE");
       define "UART_CTRL_MODE_IDLE" (VApply "UART_CTRL_MODE" 0);
       define "UART_CTRL_MODE_RUN" (VApply "UART_CTRL_MODE" 5) ],
     ok tt).
Proof.
  refine (eq_trans
            (C10_register_bitfields sample_control "UART" _ eq_refl _) _).
  - repeat constructor; cbn; lia.
  - reflexivity.
Defined.

(** *** Failures *)


Lemma gap_lines indent p sz :
  ∃ lines,
    foreach (zrange p sz)
      (λ i, print (CText (indent +:+ "__I  uint32_t rsvd"
                          +:+ str_of_Z i +:+ ";")))
    = (lines, ok tt).
Proof.
  eexists.
  apply (foreach_lines _ _
           (λ i, [CText (indent +:+ "__I  uint32_t rsvd"
                         +:+ str_of_Z i +:+ ";")])).
  reflexivity.
Qed.

Lemma struct_result_seq (g1 g2 : gen unit) ok1 ok2 rs1 rs2 :
  struct_result g1 ok1 rs1 → struct_result g2 ok2 rs2 →
  struct_result (g1 ;;; g2) (ok1 && ok2) (rs1 ++ rs2).
Proof.
  intros [Hy1 Hn1] [Hy2 Hn2]. split.
  - intros [H1 H2]%andb_prop.
    destruct (Hy1 H1) as [l1 E1], (Hy2 H2) as [l2 E2].
    exists (l1 ++ l2). now apply (gbind_lines _ _ _ _ tt tt).
  - intros H. destruct ok1.
    + destruct (Hy1 eq_refl) as [l1 E1], (Hn2 H) as (l2 & r & E2 & Hin & Hr).
      exists (l1 ++ l2), r. rewrite (gbind_ok _ _ _ _ E1), E2.
      repeat split; [| assumption]. apply elem_of_app. now right.
    + destruct (Hn1 eq_refl) as (l1 & r & E1 & Hin & Hr).
      exists l1, r. rewrite (gbind_raise _ _ _ _ E1).
      repeat split; [| assumption]. apply elem_of_app. now left.
Qed.

Lemma struct_result_lines (g : gen unit) lines :
  g = (lines, ok tt) → struct_result g true [].
Proof. intros ->. split; [eauto | discriminate]. Qed.

Lemma innards_result gs indent sp :
  Forall (λ s, match obj s with
               | Some o => ∀ indent, struct_result (gs o indent) (struct_ok o)
                                       (registers_of o)
               | None => True
               end) sp →
  struct_result (struct_innards_with gs indent sp) (space_ok sp)
                (registers_in sp).
Proof.
  induction 1 as [|s sp Hs _ IH].
  - now apply (struct_result_lines _ []).
  - cbn [struct_innards_with space_ok registers_in forallb flat_map].
    apply struct_result_seq; [| exact IH].
    destruct (obj s) as [o|]; [apply Hs |].
    destruct (gap_lines indent (pos s) (size s)) as [lines E].
    now apply (struct_result_lines _ lines).
Qed.

Lemma elements_result gs indent sp :
  Forall (λ s, match obj s with
               | Some o => ∀ indent, struct_result (gs o indent) (struct_ok o)
                                       (registers_of o)
               | None => True
               end) sp →
  struct_result (struct_elements_with gs indent sp) (space_ok sp)
                (registers_in sp).
Proof.
  induction 1 as [|s sp Hs _ IH].
  - now apply (struct_result_lines _ []).
  - cbn [struct_elements_with space_ok registers_in forallb flat_map].
    apply struct_result_seq; [| exact IH].
    destruct (obj s) as [o|]; [apply Hs |].
    now apply (struct_result_lines _ []).
Qed.

Lemma generate_struct_result n :
  ∀ indent,
    struct_result (generate_struct n indent) (struct_ok n) (registers_of n).
Proof.
  induction n as [r|name count sp IH] using wordnode_ind'; intros indent.
  - cbn [generate_struct struct_ok registers_of].
    unfold generate_register_struct.
    destruct (Z.eqb_spec (rg_size r) 1) as [E|E]; cbn [negb].
    + split; [| discriminate]. intros _.
      destruct (negb (String.eqb (rg_desc r) "")); eexists; reflexivity.
    + split; [discriminate |]. intros _. exists [], r.
      repeat split; [apply list_elem_of_here | assumption].
  - cbn [generate_struct].
    change (struct_ok (WArr name count sp)) with (space_ok sp).
    change (registers_of (WArr name count sp)) with (registers_in sp).
    destruct (1 <? len sp)%nat.
    + pose proof (innards_result generate_struct (indent +:+ "    ") sp IH)
        as Hin.
      pose proof (struct_result_seq _ _ _ _ _ _
                    (struct_result_lines
                       (print (CText (indent +:+ "struct {"))) _ eq_refl)
                    (struct_result_seq _ _ _ _ _ _ Hin
                       (struct_result_lines
                          (print (CText (indent +:+ "} " +:+ name +:+ "["
                                         +:+ str_of_Z count +:+ "];")))
                          _ eq_refl))) as H.
      cbn [andb app] in H. now rewrite andb_true_r, app_nil_r in H.
    + destruct (elements_result generate_struct indent sp IH) as [Hy Hn].
      split.
      * intros H. destruct (Hy H) as [lines ->]. eexists. reflexivity.
      * intros H. destruct (Hn H) as (lines & r & -> & Hr).
        exists [], r. split; [reflexivity | exact Hr].
Qed.

(** The struct of a space: written to the end when every register has
    size 1, and otherwise cut short by the error of a register whose
    size is not 1. *)
Lemma generate_struct_innards_result sp indent :
  struct_result (generate_struct_innards sp indent) (space_ok sp)
                (registers_in sp).
Proof.
  apply innards_result, Forall_forall. intros s _.
  destruct (obj s); [apply generate_struct_result | exact I].
Qed.

(** A component with a register whose size is not 1 fails, after it
    has written its opening and the struct elements before that
    register. *)
Lemma component_fails_on_size now comp standalone :
  space_ok (cp_space comp) = false →
  ∃ lines r,
    generate_single_component now comp standalone
    = (component_opening now comp standalone ++ lines,
       raise (size_error r))
    ∧ r ∈ registers_in (cp_space comp) ∧ rg_size r ≠ 1.
Proof.
  intros Hbad.
  destruct (generate_struct_innards_result (cp_space comp) "    ")
    as [_ Hn].
  destruct (Hn Hbad) as (lines & r & E & Hr).
  exists lines, r. split; [| exact Hr].
  unfold generate_single_component, component_opening.
  cbn [app]. rewrite <- app_assoc.
  apply (gbind_then_raise _ _ [_] _ tt); [reflexivity |].
  apply (gbind_then_raise _ _ _ _ tt); [now destruct standalone |].
  apply (gbind_then_raise _ _ [_] _ tt); [reflexivity |].
  apply (gbind_raise _ _ _ _ E).
Qed.

(** The peripheral definitions of an instance array that wraps more
    than one child, or a child that is not an instance, fail. *)
Lemma array_peripherals_fail self count children basename :
  (1 < length children)%nat ∨ (∃ o rest, children = MOther o :: rest) →
  generate_array_peripherals self count children basename
  = ([], raise (group_error self)).
Proof.
  intros [Hlen|(o & rest & ->)]; [| reflexivity].
  destruct children as [|[i|o] rest]; cbn in Hlen; [lia | | reflexivity].
  unfold generate_array_peripherals.
  now replace (1 <? length (MInstance i :: rest))%nat with true
    by (symmetry; apply Nat.ltb_lt; cbn; lia).
Qed.

(** *** The driving loop *)

Section loop.
Context {A : Type}.
Variable source : A → string.
Variable text : A → list cline.
Variable report : A → list string.
Variable step : world → A → world.
Variable dir : string.
Hypothesis step_files :
  ∀ w a, w_files (step w a) = <[(dir, source a) := text a]> (w_files w).
Hypothesis step_stderr :
  ∀ w a, w_stderr (step w a) = w_stderr w ++ report a.

Lemma loop_other_files artifacts :
  ∀ w k, k ∉ map (λ a, (dir, source a)) artifacts →
         w_files (fold_left step artifacts w) !! k = w_files w !! k.
Proof.
  induction artifacts as [|a l IH]; intros w k Hk; [reflexivity |].
  cbn [fold_left]. rewrite IH by (intros H; apply Hk; now right).
  rewrite step_files. apply lookup_insert_ne.
  intros <-. apply Hk. now left.
Qed.

(** Every artifact of the run has its own text in its file, whatever
    became of the artifacts before and after it. *)
Lemma loop_files artifacts :
  NoDup (map source artifacts) →
  ∀ w a, a ∈ artifacts →
         w_files (fold_left step artifacts w) !! (dir, source a)
         = Some (text a).
Proof.
  induction artifacts as [|b l IH]; intros Hnd w a Ha; [inversion Ha |].
  cbn [map] in Hnd. apply NoDup_cons in Hnd as [Hb Hnd]. cbn [fold_left].
  apply elem_of_cons in Ha as [->|Ha]; [| now apply IH].
  rewrite loop_other_files.
  - rewrite step_files. apply lookup_insert_eq.
  - intros (c & [= Hc] & Hin)%list_elem_of_fmap. apply Hb.
    rewrite Hc. apply list_elem_of_fmap. eauto.
Qed.

(** The standard error holds the reports of the artifacts that failed,
    in the order of the run. *)
Lemma loop_stderr artifacts :
  ∀ w, w_stderr (fold_left step artifacts w)
       = w_stderr w ++ flat_map report artifacts.
Proof.
  induction artifacts as [|a l IH]; intros w.
  - cbn. now rewrite app_nil_r.
  - cbn [fold_left flat_map]. now rewrite IH, step_stderr, app_assoc.
Qed.
End loop.

Lemma main_component_files now dir w c :
  w_files (main_component now (Some dir) w c)
  = <[(dir, cp_sourcefile c) := component_text now c]> (w_files w).
Proof.
  unfold main_component, with_output, component_text.
  now destruct (generate_single_component now c true) as [text [e|[]]].
Qed.

Lemma main_component_stderr now output_dir w c :
  w_stderr (main_component now output_dir w c)
  = w_stderr w ++ component_log now c.
Proof.
  unfold main_component, with_output, component_log.
  destruct (generate_single_component now c true) as [text [e|[]]];
    destruct output_dir; cbn; now rewrite ?app_nil_r.
Qed.

Lemma main_map_files now dir xrefs w m :
  w_files (main_map now (Some dir) xrefs w m)
  = <[(dir, mm_sourcefile m) := map_text now xrefs m]> (w_files w).
Proof.
  unfold main_map, with_output, map_text.
  now destruct (generate_memory_map now m xrefs) as [text [e|[]]].
Qed.

Lemma main_map_stderr now output_dir xrefs w m :
  w_stderr (main_map now output_dir xrefs w m)
  = w_stderr w ++ map_log now xrefs m.
Proof.
  unfold main_map, with_output, map_log.
  destruct (generate_memory_map now m xrefs) as [text [e|[]]];
    destruct output_dir; cbn; now rewrite ?app_nil_r.
Qed.

(** C9.  (1) The C output of a component with a register whose size is
    not 1 fails with the [OutputterError] of such a register, which
    carries the register's origin.  (2) The peripheral definitions of
    an instance array that wraps more than one child, or a child that
    is not an instance, fail with an [OutputterError] that carries the
    array's origin.  (3, 4) The loops of [main] over the components and
    over the memory maps catch the failure of an artifact, report it on
    the standard error and go on: every artifact of the run has its own
    text in its file, and the standard error holds one report per
    failed artifact. *)
Theorem C9_failures_are_local :
  (∀ now comp standalone,
     space_ok (cp_space comp) = false →
     ∃ lines r,
       generate_single_component now comp standalone
       = (lines, raise (size_error r))
       ∧ r ∈ registers_in (cp_space comp) ∧ rg_size r ≠ 1)
  ∧ (∀ self count children basename,
       (1 < length children)%nat ∨ (∃ o rest, children = MOther o :: rest) →
       generate_array_peripherals self count children basename
       = ([], raise (group_error self)))
  ∧ (∀ now dir mmap xrefs comps w,
       NoDup (map cp_sourcefile comps) →
       let w' := main now (Some dir) mmap xrefs comps [] w in
       (∀ c, c ∈ comps →
             w_files w' !! (dir, cp_sourcefile c)
             = Some (component_text now c))
       ∧ w_stderr w' = w_stderr w ++ flat_map (component_log now) comps)
  ∧ (∀ now dir comps maps w,
       maps ≠ [] → NoDup (map mm_sourcefile maps) →
       let w' := main now (Some dir) true false comps maps w in
       (∀ m, m ∈ maps →
             w_files w' !! (dir, mm_sourcefile m)
             = Some (map_text now false m))
       ∧ w_stderr w' = w_stderr w ++ flat_map (map_log now false) maps).
Proof.
  split; [| split; [| split]].
  - intros now comp standalone Hbad.
    destruct (component_fails_on_size now comp standalone Hbad)
      as (lines & r & E & Hr).
    eauto.
  - apply array_peripherals_fail.
  - intros now dir mmap xrefs comps w Hnd. unfold main.
    rewrite bool_decide_eq_true_2 by reflexivity. cbn [negb andb orb].
    split.
    + apply (loop_files cp_sourcefile (component_text now) _ dir
               (main_component_files now dir)), Hnd.
    + apply (loop_stderr (component_log now) _
               (main_component_stderr now (Some dir))).
  - intros now dir comps maps w Hmaps Hnd. unfold main.
    rewrite bool_decide_eq_false_2 by assumption. cbn [negb andb orb].
    split.
    + apply (loop_files mm_sourcefile (map_text now false) _ dir
               (main_map_files now dir false)), Hnd.
    + apply (loop_stderr (map_log now false) _
               (main_map_stderr now (Some dir) false)).
Qed.

Lemma C9_failures_are_local_witness :
  let w' := main "now" (Some "out") true false [uart; timer] []
              nothing_written in
  (∃ lines r,
     generate_single_component "now" uart true
     = (lines, raise (size_error r))
     ∧ r ∈ registers_in (cp_space uart) ∧ rg_size r ≠ 1)
  ∧ generate_array_peripherals (sample_origin "InstanceArray" "UARTS" 7) 2
      [MOther (sample_origin "Register" "X" 8)] "SOC"
    = ([], raise (group_error (sample_origin "InstanceArray" "UARTS" 7)))
  ∧ w_files w' !! ("out", "timer.xml") = Some (component_text "now" timer)
  ∧ w_stderr w'
    = [ "Don't know how to deal with register sizes other than 1.";
        "    Sourced from uart.xml, line 20" ].
Proof.
  intros w'.
  destruct C9_failures_are_local as (Hreg & Harr & Hcomps & _).
  split; [apply (Hreg "now" uart true); reflexivity |].
  split; [apply Harr; right; eauto |].
  destruct (Hcomps "now" "out" true false [uart; timer] nothing_written)
    as [Hfiles Hlog].
  - repeat constructor; rewrite ?elem_of_cons, ?elem_of_nil;
      intuition discriminate.
  - split.
    + apply (Hfiles timer). apply elem_of_cons. right. apply list_elem_of_here.
    + exact Hlog.
Defined.

(** C6, counterexample.  The component [uart], whose second register
    claims two words: its generation fails, and its file holds the four
    lines written before the failure. *)
Lemma C6_counterexample :
  (generate_single_component "now" uart true).2
  = raise (size_error (sample_register "WIDE" 2 20))
  ∧ w_files (main "now" (Some "out") true false [uart] [] nothing_written)
    !! ("out", "uart.xml")
    = Some [ maincomment (component_header "UART" "A serial port."
                            "uart.xml" "now");
             guard_open "uart.xml";
             CText "typedef struct {";
             CText "    __IO uint32_t   DATA;" ].
Proof. split; reflexivity. Qed.

(** C6 (amended).  For every component whose generation fails, the
    text written before the failure is in the output sink: nothing is
    held in a buffer.  When the sink is a file, the file holds the
    lines written up to the failure, which begin with the header
    comment; when it is the standard output, these lines are appended
    to it.  The failure is reported on the standard error. *)
Theorem C6_partial_output now comp e :
  (generate_single_component now comp true).2 = raise e →
  ∃ more,
    component_text now comp
    = maincomment (component_header (cp_name comp) (cp_desc comp)
                     (cp_sourcefile comp) now) :: more
    ∧ ∀ w,
        (∀ dir,
           let w' := main_component now (Some dir) w comp in
           w_files w' !! (dir, cp_sourcefile comp)
           = Some (component_text now comp)
           ∧ w_stderr w' = w_stderr w ++ component_report comp e)
        ∧ (let w' := main_component now None w comp in
           w_stdout w' = w_stdout w ++ component_text now comp
           ∧ w_stderr w' = w_stderr w ++ component_report comp e).
Proof.
  intros Hfail.
  assert (Hlog : component_log now comp = component_report comp e)
    by (unfold component_log; now rewrite Hfail).
  assert (Hhead : ∃ more,
             component_text now comp
             = maincomment (component_header (cp_name comp) (cp_desc comp)
                              (cp_sourcefile comp) now) :: more).
  { unfold component_text, generate_single_component.
    destruct (gbind _ _) as [rest r] eqn:E in |- *.
    unfold gbind in E at 1. cbn [print] in E.
    destruct (gbind _ _) as [rest' r'] in E. injection E as <- _.
    eauto. }
  destruct Hhead as [more Hmore]. exists more. split; [exact Hmore |].
  intros w. split.
  - intros dir w'. subst w'. split.
    + rewrite main_component_files. apply lookup_insert_eq.
    + now rewrite main_component_stderr, Hlog.
  - intros w'. subst w'. split.
    + unfold main_component, with_output, component_text.
      now destruct (generate_single_component now comp true) as [text [?|[]]].
    + now rewrite main_component_stderr, Hlog.
Qed.

Lemma C6_partial_output_witness :
  ∃ more,
    component_text "now" uart
    = maincomment (component_header "UART" "A serial port." "uart.xml" "now")
      :: more
    ∧ ∀ w,
        (∀ dir,
           let w' := main_component "now" (Some dir) w uart in
           w_files w' !! (dir, "uart.xml") = Some (component_text "now" uart)
           ∧ w_stderr w'
             = w_stderr w
               ++ component_report uart
                    (size_error (sample_register "WIDE" 2 20)))
        ∧ (let w' := main_component "now" None w uart in
           w_stdout w' = w_stdout w ++ component_text "now" uart
           ∧ w_stderr w'
             = w_stderr w
               ++ component_report uart
                    (size_error (sample_register "WIDE" 2 20))).
Proof.
  exact (C6_partial_output "now" uart
           (size_error (sample_register "WIDE" 2 20)) eq_refl).
Defined.

End CFacts.
